(** * python-lightify: the gateway client of [lightify/__init__.py]

    A shallow embedding of the module and the properties of its frame codec,
    receive loop, device model and session registries. The module is
    Python 2 code ([iteritems], [itervalues], frames built by concatenating
    [str]): a [str] is a byte string, and [struct] (as of Python 2.7) raises
    [struct.error] on a value that does not fit its format code and on a
    buffer of the wrong size. Logging is left out. *)

From Stdlib Require Import ZArith Lia Strings.Byte Ascii String HexString.
From stdpp Require Import base option list gmap.

Open Scope Z_scope.

(** ** Byte strings *)

(** A Python 2 [str]: a sequence of 8-bit characters. *)
Abbreviation bytes := (list byte).

#[global] Instance byte_eq_dec : EqDecision byte := Byte.byte_eq_dec.
#[global] Instance byte_countable : Countable byte :=
  inj_countable Byte.to_N Byte.of_N Byte.of_to_N.

Definition Z_of_byte (b : byte) : Z := Z.of_N (Byte.to_N b).
Definition byte_of_Z (v : Z) : byte :=
  default x00 (Byte.of_N (Z.to_N (v mod 256))).

(** [s[a:b]] for [0 <= a <= b]: clipped to the string, never an error. *)
Definition slice {A} (a b : nat) (s : list A) : list A :=
  take (b - a) (drop a s).

(** [s.replace('\0', "")] *)
Definition strip_nul (s : bytes) : bytes :=
  filter (λ c, c ≠ x00) s.

(** ** The [struct] module *)

Module struct.

(** Byte order character of a format: ["<"] or [">"]. Both select the
    standard sizes without alignment. *)
Inductive order := LE | BE.

(** Format codes used by the module: [B], [H], [I], [Q] and [<n>s]. *)
Inductive code := B | H | I | Q | s (n : nat).

Inductive value := Int (v : Z) | Str (v : bytes).

Definition size (c : code) : nat :=
  match c with B => 1 | H => 2 | I => 4 | Q => 8 | s n => n end.

Definition calcsize (fmt : list code) : nat :=
  foldr (λ c n, size c + n)%nat 0%nat fmt.

Fixpoint le_bytes (n : nat) (v : Z) : bytes :=
  match n with
  | O => []
  | S n' => byte_of_Z v :: le_bytes n' (v / 256)
  end.

Fixpoint le_int (bs : bytes) : Z :=
  match bs with
  | [] => 0
  | b :: rest => Z_of_byte b + 256 * le_int rest
  end.

Definition int_bytes (o : order) (n : nat) (v : Z) : bytes :=
  match o with LE => le_bytes n v | BE => rev (le_bytes n v) end.

Definition bytes_int (o : order) (bs : bytes) : Z :=
  match o with LE => le_int bs | BE => le_int (rev bs) end.

(** One integer field; [None] is [struct.error] (value out of range for
    the code). The module only ever packs integers. *)
Definition pack1 (o : order) (c : code) (v : Z) : option bytes :=
  match c with
  | s _ => None
  | _ => if (0 <=? v) && (v <? 256 ^ Z.of_nat (size c))
         then Some (int_bytes o (size c) v) else None
  end.

(** [struct.pack(fmt, *vals)]; [None] is [struct.error]. *)
Fixpoint pack (o : order) (fmt : list code) (vals : list Z) : option bytes :=
  match fmt, vals with
  | [], [] => Some []
  | c :: fmt', v :: vals' =>
      match pack1 o c v, pack o fmt' vals' with
      | Some b, Some r => Some (b ++ r)
      | _, _ => None
      end
  | _, _ => None
  end.

Definition unpack1 (o : order) (c : code) (bs : bytes) : value :=
  match c with
  | s _ => Str bs
  | _ => Int (bytes_int o bs)
  end.

Fixpoint fields (o : order) (fmt : list code) (bs : bytes) : list value :=
  match fmt with
  | [] => []
  | c :: fmt' =>
      unpack1 o c (take (size c) bs) :: fields o fmt' (drop (size c) bs)
  end.

(** [struct.unpack(fmt, data)]; [None] is [struct.error] (the buffer is
    not exactly [calcsize(fmt)] bytes long). *)
Definition unpack (o : order) (fmt : list code) (bs : bytes)
  : option (list value) :=
  if decide (length bs = calcsize fmt) then Some (fields o fmt bs) else None.

End struct.

(** ** Module constants *)

Definition COMMAND_ALL_LIGHT_STATUS : Z := 0x13.
Definition COMMAND_GROUP_LIST : Z := 0x1e.
Definition COMMAND_GROUP_INFO : Z := 0x26.
Definition COMMAND_LUMINANCE : Z := 0x31.
Definition COMMAND_ONOFF : Z := 0x32.
Definition COMMAND_TEMP : Z := 0x33.
Definition COMMAND_COLOUR : Z := 0x36.
Definition COMMAND_LIGHT_STATUS : Z := 0x68.

(** ** Objects *)

(** A reference to a [Light] instance in the object store. *)
Abbreviation loc := nat.

(** The attributes of a [Light] instance. Name mangling keeps two name
    attributes apart: [_Luminary__name], set by [Luminary.__init__] and read
    by [name()], and [_Light__name], set by [update_status]. The status
    attributes exist only once [update_status] has run; the one place that
    constructs a [Light] calls it right away, and the record describes the
    instance from then on. *)
Record Light := mkLight {
  Luminary_name : bytes;
  Light_id : Z;
  Light_addr : Z;
  Light_type : Z;
  Light_fwVersion : Z;
  Light_online : Z;
  Light_groupId : Z;
  Light_on : Z;
  Light_lum : Z;
  Light_temp : Z;
  Light_r : Z;
  Light_g : Z;
  Light_b : Z;
  Light_alpha : Z;
  Light_name : bytes
}.

(** A [Group] instance. No method of the module changes a group once it is
    in the registry, so groups are kept by value. *)
Record Group := mkGroup {
  Group_idx : Z;
  Group_name : bytes;
  Group_lights : list Z
}.

(** ** The socket *)

(** What the peer does next on the receiving side: deliver a chunk of bytes,
    make [recv] raise [socket.error], or close the stream. A closed stream
    stays closed ([recv] returns the empty string from then on); a script
    that ends leaves [recv] blocked for good. *)
Inductive rx := RxData (chunk : bytes) | RxError | RxEof.

Record socket := mkSocket {
  inbox : list rx;
  outbox : list bytes;     (* what [sendall] has written, oldest first *)
  sendable : nat           (* [sendall] calls accepted before the connection breaks *)
}.

(** ** The session *)

(** A [Lightify] instance together with the [Light] objects it refers to.
    [Lightify_lights] maps an address to a reference: the same object can be
    reached from the old and from the new registry. *)
Record Lightify := mkLightify {
  Lightify_seq : Z;
  Lightify_groups : gmap bytes Group;
  Lightify_lights : gmap Z loc;
  Lightify_sock : socket;
  store : list Light
}.

Definition with_seq (v : Z) (c : Lightify) : Lightify :=
  mkLightify v (Lightify_groups c) (Lightify_lights c) (Lightify_sock c) (store c).
Definition with_groups (v : gmap bytes Group) (c : Lightify) : Lightify :=
  mkLightify (Lightify_seq c) v (Lightify_lights c) (Lightify_sock c) (store c).
Definition with_lights (v : gmap Z loc) (c : Lightify) : Lightify :=
  mkLightify (Lightify_seq c) (Lightify_groups c) v (Lightify_sock c) (store c).
Definition with_sock (v : socket) (c : Lightify) : Lightify :=
  mkLightify (Lightify_seq c) (Lightify_groups c) (Lightify_lights c) v (store c).
Definition with_store (v : list Light) (c : Lightify) : Lightify :=
  mkLightify (Lightify_seq c) (Lightify_groups c) (Lightify_lights c) (Lightify_sock c) v.

(** ** Computations: state, exceptions, and calls that never return *)

Inductive exn :=
  | StructError    (* struct.error *)
  | SocketError    (* socket.error *)
  | NoObject.      (* a reference outside the store; no Python counterpart *)

Inductive outcome (A : Type) :=
  | Ret (a : A)
  | Raise (e : exn)
  | Hang.
Arguments Ret {A} a.
Arguments Raise {A} e.
Arguments Hang {A}.

(** A method call: from the state before to the outcome and the state after.
    An exception keeps what was written before it was raised. *)
Definition io (A : Type) : Type := Lightify → outcome A * Lightify.

Definition ret {A} (a : A) : io A := λ c, (Ret a, c).
Definition raise {A} (e : exn) : io A := λ c, (Raise e, c).
Definition bind {A B} (m : io A) (k : A → io B) : io B :=
  λ c, match m c with
       | (Ret a, c') => k a c'
       | (Raise e, c') => (Raise e, c')
       | (Hang, c') => (Hang, c')
       end.

Notation "x <- m ;; k" := (bind m (λ x, k))
  (at level 100, m at next level, right associativity).
Notation "m ;;; k" := (bind m (λ _, k))
  (at level 100, right associativity).

Definition get : io Lightify := λ c, (Ret c, c).
Definition modify (f : Lightify → Lightify) : io unit := λ c, (Ret tt, f c).

(** A [struct] call inside a method. *)
Definition struct_call {A} (r : option A) : io A :=
  match r with Some a => ret a | None => raise StructError end.

(** Attribute access on a [Light] object. *)
Definition read (l : loc) : io Light :=
  λ c, match store c !! l with
       | Some o => (Ret o, c)
       | None => (Raise NoObject, c)
       end.
Definition write (l : loc) (f : Light → Light) : io unit :=
  o <- read l ;; modify (λ c, with_store (<[l := f o]> (store c)) c).

(** [Light(...)] : a new object, at a reference not used before. *)
Definition new (o : Light) : io loc :=
  λ c, (Ret (length (store c)), with_store (store c ++ [o]) c).

Definition hang {A} : io A := λ c, (Hang, c).

(** [for x in xs: body], the loop's local variables threaded as [acc]. *)
Fixpoint for_each {A S} (xs : list A) (body : A → S → io S) (acc : S) : io S :=
  match xs with
  | [] => ret acc
  | x :: xs' => acc' <- body x acc ;; for_each xs' body acc'
  end.

(** [range(0, num)] *)
Definition range (num : Z) : list nat := seq 0 (Z.to_nat num).

(** ** Socket calls *)

(** [sock.recv(n)] on the pending deliveries: at most [n] bytes of the next
    chunk, the rest of it staying queued. A chunk without bytes delivers
    nothing and the call keeps waiting. *)
Fixpoint sock_recv_from (n : nat) (q : list rx) : outcome bytes * list rx :=
  match q with
  | [] => (Hang, [])
  | RxEof :: _ => (Ret [], q)
  | RxError :: rest => (Raise SocketError, rest)
  | RxData [] :: rest => sock_recv_from n rest
  | RxData chunk :: rest =>
      if decide (length chunk ≤ n)%nat then (Ret chunk, rest)
      else (Ret (take n chunk), RxData (drop n chunk) :: rest)
  end.

Definition sock_recv (n : nat) : io bytes :=
  λ c, let k := Lightify_sock c in
       let '(r, q) := sock_recv_from n (inbox k) in
       (r, with_sock (mkSocket q (outbox k) (sendable k)) c).

(** [sock.sendall(data)] *)
Definition sock_sendall (data : bytes) : io unit :=
  λ c, let k := Lightify_sock c in
       match sendable k with
       | O => (Raise SocketError, c)
       | S n => (Ret tt, with_sock (mkSocket (inbox k) (outbox k ++ [data]) n) c)
       end.

(** ** [class Lightify]: frames *)

Import struct.

Definition next_seq : io Z :=
  modify (λ c, with_seq (Lightify_seq c + 1) c) ;;;
  c <- get ;; ret (Lightify_seq c).

(** In Python 2 the concatenation of two [str] cannot raise [TypeError]:
    the [except] branches of the builders are never entered. The arguments
    of [struct.pack] are evaluated first, so [next_seq()] has run when
    [struct.pack] raises. *)
Definition build_global_command (command : Z) (data : bytes) : io bytes :=
  let length := 6 + Z.of_nat (length data) in
  sq <- next_seq ;;
  head <- struct_call (pack LE [H; B; B; B; B; B; B] [length; 0x02; command; 0; 0; 0x7; sq]) ;;
  ret (head ++ data).

Definition build_basic_command (flag command : Z) (group_or_light data : bytes)
  : io bytes :=
  let length := 14 + Z.of_nat (length data) in
  sq <- next_seq ;;
  head <- struct_call (pack LE [H; B; B; B; B; B; B] [length; flag; command; 0; 0; 0x7; sq]) ;;
  ret (head ++ group_or_light ++ data).

Definition build_command (command : Z) (group : Group) (data : bytes) : io bytes :=
  target <- struct_call (pack LE [B; B; B; B; B; B; B; B]
                              [Group_idx group; 0; 0; 0; 0; 0; 0; 0]) ;;
  build_basic_command 0x02 command target data.

Definition build_light_command (command : Z) (light : loc) (data : bytes)
  : io bytes :=
  o <- read light ;;
  target <- struct_call (pack LE [Q] [Light_addr o]) ;;
  build_basic_command 0x00 command target data.

(** The receiver of a [Luminary] method: a [Light] object or a [Group]. *)
Inductive Luminary := ALight (l : loc) | AGroup (g : Group).

(** [item.build_command(command, data)], overridden in both subclasses. *)
Definition item_build_command (item : Luminary) (command : Z) (data : bytes)
  : io bytes :=
  match item with
  | ALight l => build_light_command command l data
  | AGroup g => build_command command g data
  end.

Definition build_onoff (item : Luminary) (on : Z) : io bytes :=
  data <- struct_call (pack LE [B] [on]) ;;
  item_build_command item COMMAND_ONOFF data.

Definition build_temp (item : Luminary) (temp time : Z) : io bytes :=
  data <- struct_call (pack LE [H; H] [temp; time]) ;;
  item_build_command item COMMAND_TEMP data.

Definition build_luminance (item : Luminary) (luminance time : Z) : io bytes :=
  data <- struct_call (pack LE [B; H] [luminance; time]) ;;
  item_build_command item COMMAND_LUMINANCE data.

Definition build_colour (item : Luminary) (red green blue time : Z) : io bytes :=
  data <- struct_call (pack LE [B; B; B; B; H] [red; green; blue; 0xff; time]) ;;
  item_build_command item COMMAND_COLOUR data.

Definition build_group_info (group : Group) : io bytes :=
  build_command COMMAND_GROUP_INFO group [].

Definition build_all_light_status (flag : Z) : io bytes :=
  data <- struct_call (pack LE [B] [flag]) ;;
  build_global_command COMMAND_ALL_LIGHT_STATUS data.

Definition build_light_status (light : loc) : io bytes :=
  build_light_command COMMAND_LIGHT_STATUS light [].

Definition build_group_list : io bytes :=
  build_global_command COMMAND_GROUP_LIST [].

(** ** [class Lightify]: transport *)

Definition send (data : bytes) : io unit := sock_sendall data.

(** The [while expected > 0] loop of [recv]. Every pass that reads at least
    one byte lowers [expected], and a pass that reads none has met the end of
    the stream, where every later pass reads none either: [fuel] passes with
    [fuel >= expected] are all the loop can make before it returns, raises or
    is stuck for good ([recv_loop_fuel] below). *)
Fixpoint recv_loop (fuel : nat) (expected : Z) (data string : bytes) : io bytes :=
  if decide (expected > 0) then
    match fuel with
    | O => hang
    | S fuel' =>
        data <- sock_recv (Z.to_nat expected) ;;
        let expected := expected - Z.of_nat (length data) in
        let string := string ++ data in
        recv_loop fuel' expected data string
    end
  else ret data.

Definition recv : io bytes :=
  let lengthsize := 2%nat in
  data <- sock_recv lengthsize ;;
  vals <- struct_call (unpack LE [H] (take lengthsize data)) ;;
  match vals with
  | [Int length_] =>
      let string := [] in
      let expected := length_ + 2 - Z.of_nat (length data) in
      recv_loop (Z.to_nat expected) expected data string
  | _ => raise StructError   (* never taken: ["<H"] unpacks to one integer *)
  end.

(** ** [class Luminary] *)

Definition Luminary_set_onoff (self : Luminary) (on : Z) : io unit :=
  data <- build_onoff self on ;;
  send data ;;;
  _ <- recv ;; ret tt.

Definition Luminary_set_luminance (self : Luminary) (lum time : Z) : io unit :=
  data <- build_luminance self lum time ;;
  send data ;;;
  _ <- recv ;; ret tt.

Definition Luminary_set_temperature (self : Luminary) (temp time : Z) : io unit :=
  data <- build_temp self temp time ;;
  send data ;;;
  _ <- recv ;; ret tt.

Definition Luminary_set_rgb (self : Luminary) (r g b time : Z) : io unit :=
  data <- build_colour self r g b time ;;
  send data ;;;
  _ <- recv ;; ret tt.

(** ** [class Light] *)

(** Assignments to single attributes. *)
Definition set_on (v : Z) (o : Light) : Light :=
  mkLight (Luminary_name o) (Light_id o) (Light_addr o) (Light_type o)
    (Light_fwVersion o) (Light_online o) (Light_groupId o) v (Light_lum o)
    (Light_temp o) (Light_r o) (Light_g o) (Light_b o) (Light_alpha o)
    (Light_name o).
Definition set_lum (v : Z) (o : Light) : Light :=
  mkLight (Luminary_name o) (Light_id o) (Light_addr o) (Light_type o)
    (Light_fwVersion o) (Light_online o) (Light_groupId o) (Light_on o) v
    (Light_temp o) (Light_r o) (Light_g o) (Light_b o) (Light_alpha o)
    (Light_name o).
Definition set_temp (v : Z) (o : Light) : Light :=
  mkLight (Luminary_name o) (Light_id o) (Light_addr o) (Light_type o)
    (Light_fwVersion o) (Light_online o) (Light_groupId o) (Light_on o)
    (Light_lum o) v (Light_r o) (Light_g o) (Light_b o) (Light_alpha o)
    (Light_name o).
Definition set_r (v : Z) (o : Light) : Light :=
  mkLight (Luminary_name o) (Light_id o) (Light_addr o) (Light_type o)
    (Light_fwVersion o) (Light_online o) (Light_groupId o) (Light_on o)
    (Light_lum o) (Light_temp o) v (Light_g o) (Light_b o) (Light_alpha o)
    (Light_name o).
Definition set_g (v : Z) (o : Light) : Light :=
  mkLight (Luminary_name o) (Light_id o) (Light_addr o) (Light_type o)
    (Light_fwVersion o) (Light_online o) (Light_groupId o) (Light_on o)
    (Light_lum o) (Light_temp o) (Light_r o) v (Light_b o) (Light_alpha o)
    (Light_name o).
Definition set_b (v : Z) (o : Light) : Light :=
  mkLight (Luminary_name o) (Light_id o) (Light_addr o) (Light_type o)
    (Light_fwVersion o) (Light_online o) (Light_groupId o) (Light_on o)
    (Light_lum o) (Light_temp o) (Light_r o) (Light_g o) v (Light_alpha o)
    (Light_name o).

(** [Light.__init__]: the status attributes are not assigned yet; the
    record holds zeros for them until [update_status] runs. *)
Definition Light_init (id addr type : Z) (name : bytes) : Light :=
  mkLight name id addr type 0 0 0 0 0 0 0 0 0 0 [].

Definition format_x (v : Z) : string :=
  match v with
  | Z0 => "0"
  | Zpos p => HexString.Raw.of_pos p ""
  | Zneg p => String "-" (HexString.Raw.of_pos p "")
  end.

(** ['-'.join(format(addr, 'x')[i:i+2] for i in range(0,16,2))] *)
Definition mac_friendly (addr : Z) : string :=
  String.concat "-"
    (map (λ i, substring i 2 (format_x addr)) [0; 2; 4; 6; 8; 10; 12; 14]%nat).

Definition Light_mac (self : Light) : string := mac_friendly (Light_addr self).

Definition Light_update_status (self : loc)
    (fwVersion online groupId status luminance temp red green blue alpha : Z)
    (name : bytes) : io unit :=
  write self (λ o,
    mkLight (Luminary_name o) (Light_id o) (Light_addr o) (Light_type o)
      fwVersion online groupId status luminance temp red green blue alpha name).

Definition Light_set_onoff (self : loc) (on : Z) : io unit :=
  write self (set_on on) ;;;
  Luminary_set_onoff (ALight self) on ;;;
  o <- read self ;;
  if decide (Light_lum o = 0 ∧ on ≠ 0) then write self (set_lum 1)
  else ret tt.

Definition Light_set_luminance (self : loc) (lum time : Z) : io unit :=
  write self (set_lum lum) ;;;
  Luminary_set_luminance (ALight self) lum time ;;;
  o <- read self ;;
  if decide (lum > 0 ∧ Light_on o = 0) then write self (set_on 1)
  else if decide (lum = 0 ∧ Light_on o ≠ 0) then write self (set_on 0)
  else ret tt.

Definition Light_set_temperature (self : loc) (temp time : Z) : io unit :=
  write self (set_temp temp) ;;;
  Luminary_set_temperature (ALight self) temp time.

Definition Light_set_rgb (self : loc) (r g b time : Z) : io unit :=
  write self (set_r r) ;;;
  write self (set_g g) ;;;
  write self (set_b b) ;;;
  Luminary_set_rgb (ALight self) r g b time.

(** ** [class Lightify]: registries *)

(** The shape of an unpacked tuple is fixed by its format: the last branch
    of the matches below is never taken. *)
Definition group_list : io (gmap Z bytes) :=
  let groups : gmap Z bytes := ∅ in
  data <- build_group_list ;;
  send data ;;;
  data <- recv ;;
  vals <- struct_call (unpack LE [H] (slice 7 9 data)) ;;
  match vals with
  | [Int num] =>
      for_each (range num) (λ i groups,
        let pos := (9 + i * 18)%nat in
        let payload := slice pos (pos + 18) data in
        vals <- struct_call (unpack LE [H; s 16] payload) ;;
        match vals with
        | [Int idx; Str name] =>
            let name := strip_nul name in
            ret (<[idx := name]> groups)
        | _ => raise StructError
        end) groups
  | _ => raise StructError
  end.

Definition group_info (group : Group) : io (list Z) :=
  let lights : list Z := [] in
  data <- build_group_info group ;;
  send data ;;;
  data <- recv ;;
  let payload := drop 7 data in
  vals <- struct_call (unpack LE [H; s 16; B] (take 19 payload)) ;;
  match vals with
  | [Int idx; Str name; Int num] =>
      for_each (range num) (λ i lights,
        let pos := (7 + 19 + i * 8)%nat in
        let payload := slice pos (pos + 8) data in
        vals <- struct_call (unpack LE [Q] (take 8 payload)) ;;
        match vals with
        | [Int addr] => ret (lights ++ [addr])
        | _ => raise StructError
        end) lights
  | _ => raise StructError
  end.

(** Python 2 does not fix the order in which [lst.iteritems()] yields the
    entries of a dict: [iteritems] is whatever order the interpreter uses. *)
Definition update_group_list (iteritems : gmap Z bytes → list (Z * bytes))
  : io unit :=
  lst <- group_list ;;
  let groups : gmap bytes Group := ∅ in
  groups <- for_each (iteritems lst) (λ '(idx, name) groups,
      let group := mkGroup idx name [] in
      lights <- group_info group ;;
      let group := mkGroup (Group_idx group) (Group_name group) lights in
      ret (<[name := group]> groups)) groups ;;
  modify (with_groups groups).

(** One pass of the loop of [update_all_light_status] over the entries:
    entry [i] of [data] is decoded and merged into [new_lights]. The format
    ["<Q16"] of the address ends in a repeat count without a code, which
    Python 2 ignores: it reads as ["<Q"]. The friendly form of the address
    is only logged. *)
Definition light_status_entry (data : bytes) (old_lights : gmap Z loc)
    (i : nat) (new_lights : gmap Z loc) : io (gmap Z loc) :=
  let status_len := 50%nat in
  let pos := (9 + i * status_len)%nat in
  let payload := slice pos (pos + status_len) data in
  v_id <- struct_call (unpack LE [H] (slice 0 2 payload)) ;;
  v_mac <- struct_call (unpack LE [Q] (slice 2 10 payload)) ;;
  v_type <- struct_call (unpack LE [B] (slice 10 11 payload)) ;;
  v_fw <- struct_call (unpack BE [I] (slice 11 15 payload)) ;;
  v_online <- struct_call (unpack LE [B] (slice 15 16 payload)) ;;
  v_group <- struct_call (unpack LE [H] (slice 16 18 payload)) ;;
  v_status <- struct_call (unpack LE [B] (slice 18 19 payload)) ;;
  v_bt <- struct_call (unpack LE [B; H] (slice 19 22 payload)) ;;
  v_rgba <- struct_call (unpack LE [B; B; B; B] (slice 22 26 payload)) ;;
  let name := strip_nul (slice 26 42 payload) in
  v_unknown <- struct_call (unpack LE [Q] (slice 42 50 payload)) ;;
  match v_id, v_mac, v_type, v_fw, v_online, v_group, v_status, v_bt, v_rgba with
  | [Int id], [Int mac], [Int type], [Int fwVersion], [Int online],
    [Int groupId], [Int status], [Int brightness; Int temp],
    [Int red; Int green; Int blue; Int alpha] =>
      light <- match old_lights !! mac with
               | Some light => ret light
               | None => new (Light_init id mac type name)
               end ;;
      Light_update_status light fwVersion online groupId status
        brightness temp red green blue alpha name ;;;
      ret (<[mac := light]> new_lights)
  | _, _, _, _, _, _, _, _, _ => raise StructError
  end.

Definition update_all_light_status : io unit :=
  data <- build_all_light_status 1 ;;
  send data ;;;
  data <- recv ;;
  vals <- struct_call (unpack LE [H] (slice 7 9 data)) ;;
  match vals with
  | [Int num] =>
      c <- get ;;
      let old_lights := Lightify_lights c in
      let new_lights : gmap Z loc := ∅ in
      new_lights <- for_each (range num) (light_status_entry data old_lights)
                      new_lights ;;
      modify (with_lights new_lights)
  | _ => raise StructError
  end.

(** [Lightify.update_light_status]: the method returns once the response
    is read; the decoding written below its [return] is never run. *)
Definition update_light_status (light : loc) : io unit :=
  data <- build_light_status light ;;
  send data ;;;
  data <- recv ;;
  ret tt.

(** The loop of [light_byname], which returns from inside: the first of
    [lights] whose [name()] is [name]. *)
Fixpoint first_named (name : bytes) (lights : list loc) : io (option loc) :=
  match lights with
  | [] => ret None
  | light :: lights' =>
      o <- read light ;;
      if decide (Luminary_name o = name) then ret (Some light)
      else first_named name lights'
  end.

(** [Lightify.light_byname]. Python 2 does not fix the order in which
    [itervalues()] yields the values of a dict: [itervalues] is whatever
    order the interpreter uses. [None] is Python's [None]. *)
Definition light_byname (itervalues : gmap Z loc → list loc) (name : bytes)
  : io (option loc) :=
  c <- get ;;
  first_named name (itervalues (Lightify_lights c)).

(** [Lightify.__init__] on a connected socket. *)
Definition Lightify_init (sock : socket) : Lightify :=
  mkLightify 1 ∅ ∅ sock [].

(** * Vocabulary of the statements *)

(** ** Relations kept by a call *)

(** A relation between the state before and the state after that holds
    whatever the outcome. *)
Definition keeps {A} (R : relation Lightify) (m : io A) : Prop :=
  ∀ c, R c (m c).2.

(** A relation between the state before and the state in which an exception
    leaves the session. *)
Definition keeps_on_raise {A} (R : relation Lightify) (m : io A) : Prop :=
  ∀ c e c', m c = (Raise e, c') → R c c'.

(** Only the sequence counter and the socket may differ. *)
Definition wire_only : relation Lightify := λ c c',
  Lightify_groups c' = Lightify_groups c ∧
  Lightify_lights c' = Lightify_lights c ∧
  store c' = store c.

(** An object is still the one it was: what [__init__] gave it is there. *)
Definition same_object (o o' : Light) : Prop :=
  Luminary_name o' = Luminary_name o ∧ Light_id o' = Light_id o ∧
  Light_addr o' = Light_addr o ∧ Light_type o' = Light_type o.

(** Both dicts are as they were, and so is every object but for its status
    attributes. *)
Definition registry_kept : relation Lightify := λ c c',
  Lightify_groups c' = Lightify_groups c ∧
  Lightify_lights c' = Lightify_lights c ∧
  ∀ l o, store c !! l = Some o → ∃ o', store c' !! l = Some o' ∧ same_object o o'.

(** What [lights()[addr]] denotes: the object registered under [addr]. *)
Definition registered (c : Lightify) (addr : Z) : option Light :=
  Lightify_lights c !! addr ≫= λ l, store c !! l.

(** ** Frames *)

(** The eight bytes every frame starts with. *)
Definition frame_head (length_ flag command sq : Z) : option bytes :=
  pack LE [H; B; B; B; B; B; B] [length_; flag; command; 0; 0; 0x7; sq].

(** The target selector of a group. *)
Definition group_target (idx : Z) : option bytes :=
  pack LE [B; B; B; B; B; B; B; B] [idx; 0; 0; 0; 0; 0; 0; 0].

(** [n] commands in a row: the frames of [n] group-list requests. *)
Definition issue (n : nat) : io (list bytes) :=
  for_each (seq 0 n) (λ _ frames,
    frame <- build_group_list ;; ret (frames ++ [frame])) [].

(** ** Deliveries *)

(** The session with its pending deliveries replaced. *)
Definition with_inbox (q : list rx) (c : Lightify) : Lightify :=
  with_sock (mkSocket q (outbox (Lightify_sock c)) (sendable (Lightify_sock c))) c.

(** The first two bytes of a response: the length of what follows. *)
Definition length_prefix (n : nat) : bytes := int_bytes LE 2 (Z.of_nat n).

(** ** The mutators of [Light] *)

Inductive mutator :=
  | SetOnOff (on : Z)
  | SetLuminance (lum time : Z)
  | SetTemperature (temp time : Z)
  | SetRgb (r g b time : Z).

Definition call (self : loc) (m : mutator) : io unit :=
  match m with
  | SetOnOff on => Light_set_onoff self on
  | SetLuminance lum time => Light_set_luminance self lum time
  | SetTemperature temp time => Light_set_temperature self temp time
  | SetRgb r g b time => Light_set_rgb self r g b time
  end.

(** Calls on one light, one after the other. *)
Definition calls (self : loc) (ms : list mutator) : io unit :=
  for_each ms (λ m _, call self m) tt.

(** The round trip a mutator leaves to the base class. *)
Definition wire_part (self : loc) (m : mutator) : io unit :=
  match m with
  | SetOnOff on => Luminary_set_onoff (ALight self) on
  | SetLuminance lum time => Luminary_set_luminance (ALight self) lum time
  | SetTemperature temp time => Luminary_set_temperature (ALight self) temp time
  | SetRgb r g b time => Luminary_set_rgb (ALight self) r g b time
  end.

(** The assignments a mutator makes before the round trip. *)
Definition first_write (m : mutator) (o : Light) : Light :=
  match m with
  | SetOnOff on => set_on on o
  | SetLuminance lum _ => set_lum lum o
  | SetTemperature temp _ => set_temp temp o
  | SetRgb r g b _ => set_b b (set_g g (set_r r o))
  end.

(** What a mutator that returns has done to the object. *)
Definition after (m : mutator) (o : Light) : Light :=
  match m with
  | SetOnOff on =>
      if decide (Light_lum o = 0 ∧ on ≠ 0) then set_lum 1 (set_on on o)
      else set_on on o
  | SetLuminance lum _ =>
      if decide (lum > 0 ∧ Light_on o = 0) then set_on 1 (set_lum lum o)
      else if decide (lum = 0 ∧ Light_on o ≠ 0) then set_on 0 (set_lum lum o)
      else set_lum lum o
  | SetTemperature temp _ => set_temp temp o
  | SetRgb r g b _ => set_b b (set_g g (set_r r o))
  end.

(** The attribute named by the call holds the value asked for. *)
Definition requested (m : mutator) (o : Light) : Prop :=
  match m with
  | SetOnOff on => Light_on o = on
  | SetLuminance lum _ => Light_lum o = lum
  | SetTemperature temp _ => Light_temp o = temp
  | SetRgb r g b _ => Light_r o = r ∧ Light_g o = g ∧ Light_b o = b
  end.

(** The arguments of a call fit the fields of its payload. *)
Definition packable (m : mutator) : Prop :=
  match m with
  | SetOnOff on => 0 ≤ on < 256
  | SetLuminance lum time => 0 ≤ lum < 256 ∧ 0 ≤ time < 65536
  | SetTemperature temp time => 0 ≤ temp < 65536 ∧ 0 ≤ time < 65536
  | SetRgb r g b time =>
      0 ≤ r < 256 ∧ 0 ≤ g < 256 ∧ 0 ≤ b < 256 ∧ 0 ≤ time < 65536
  end.

(** The payload and the command code of a call. *)
Definition payload (m : mutator) : option bytes :=
  match m with
  | SetOnOff on => pack LE [B] [on]
  | SetLuminance lum time => pack LE [B; H] [lum; time]
  | SetTemperature temp time => pack LE [H; H] [temp; time]
  | SetRgb r g b time => pack LE [B; B; B; B; H] [r; g; b; 0xff; time]
  end.

Definition command_code (m : mutator) : Z :=
  match m with
  | SetOnOff _ => COMMAND_ONOFF
  | SetLuminance _ _ => COMMAND_LUMINANCE
  | SetTemperature _ _ => COMMAND_TEMP
  | SetRgb _ _ _ _ => COMMAND_COLOUR
  end.

(** Responses on their way, each arriving in two reads: its length, then
    its body. *)
Fixpoint deliveries (bodies : list bytes) (rest : list rx) : list rx :=
  match bodies with
  | [] => rest
  | body :: bodies' =>
      RxData (length_prefix (length body)) :: RxData body
      :: deliveries bodies' rest
  end.

(** A session in which the calls [ms] on the light [self] go through: the
    arguments fit their payloads, the counter and the connection last for
    that many commands, and an acknowledgement is on its way for each. *)
Definition cooperative (self : loc) (ms : list mutator) (c : Lightify) : Prop :=
  ∃ o bodies rest,
    store c !! self = Some o ∧
    0 ≤ Light_addr o < 2 ^ 64 ∧
    Forall packable ms ∧
    0 ≤ Lightify_seq c + 1 ∧ Lightify_seq c + Z.of_nat (length ms) < 256 ∧
    (length ms ≤ sendable (Lightify_sock c))%nat ∧
    length bodies = length ms ∧
    Forall (λ body, body ≠ [] ∧ Z.of_nat (length body) < 65536) bodies ∧
    inbox (Lightify_sock c) = deliveries bodies rest.

(** The two mutators that couple on/off and luminance. *)
Definition couples (m : mutator) : Prop :=
  match m with SetOnOff _ | SetLuminance _ _ => True | _ => False end.

(** Luminance 0 exactly when off. *)
Definition coupled (o : Light) : Prop := Light_lum o = 0 ↔ Light_on o = 0.

(** Luminance 0 only when off. *)
Definition dark_is_off (o : Light) : Prop := Light_lum o = 0 → Light_on o = 0.

(** What a completed call does to the on/off flag and the luminance. *)
Definition coupling_effect (m : mutator) (o o' : Light) : Prop :=
  match m with
  | SetLuminance lum _ =>
      Light_lum o' = lum ∧
      (lum > 0 → Light_on o' ≠ 0 ∧ (Light_on o = 0 → Light_on o' = 1)) ∧
      (lum = 0 → Light_on o' = 0)
  | SetOnOff on =>
      Light_on o' = on ∧
      (on ≠ 0 → Light_lum o = 0 → Light_lum o' = 1) ∧
      (on = 0 → Light_lum o' = Light_lum o)
  | _ => True
  end.

(** ** Status entries *)

(** Entry [i] of a response. *)
Definition entry (data : bytes) (i : nat) : bytes :=
  slice (9 + i * 50) (9 + i * 50 + 50) data.

(** The attributes read from the 50 bytes of one entry. *)
Definition decode_entry (p : bytes) : Light :=
  let name := strip_nul (slice 26 42 p) in
  let bt := slice 19 22 p in
  let rgba := slice 22 26 p in
  mkLight name
    (bytes_int LE (take 2 (slice 0 2 p)))
    (bytes_int LE (take 8 (slice 2 10 p)))
    (bytes_int LE (take 1 (slice 10 11 p)))
    (bytes_int BE (take 4 (slice 11 15 p)))
    (bytes_int LE (take 1 (slice 15 16 p)))
    (bytes_int LE (take 2 (slice 16 18 p)))
    (bytes_int LE (take 1 (slice 18 19 p)))
    (bytes_int LE (take 1 bt))
    (bytes_int LE (take 2 (drop 1 bt)))
    (bytes_int LE (take 1 rgba))
    (bytes_int LE (take 1 (drop 1 rgba)))
    (bytes_int LE (take 1 (drop 1 (drop 1 rgba))))
    (bytes_int LE (take 1 (drop 1 (drop 1 (drop 1 rgba)))))
    name.

(** [update_status] with the attributes of [d]. *)
Definition refresh (d o : Light) : Light :=
  mkLight (Luminary_name o) (Light_id o) (Light_addr o) (Light_type o)
    (Light_fwVersion d) (Light_online d) (Light_groupId d) (Light_on d)
    (Light_lum d) (Light_temp d) (Light_r d) (Light_g d) (Light_b d)
    (Light_alpha d) (Light_name d).

(** A name in its 16-byte field. *)
Definition pad16 (name : bytes) : bytes :=
  name ++ replicate (16 - length name) x00.

(** The entry that reports the attributes of [o], in the layout the loop
    of [update_all_light_status] reads, followed by the eight bytes nobody
    has deciphered. *)
Definition status_record (o : Light) (reserved : bytes) : bytes :=
  int_bytes LE 2 (Light_id o) ++
  int_bytes LE 8 (Light_addr o) ++
  int_bytes LE 1 (Light_type o) ++
  int_bytes BE 4 (Light_fwVersion o) ++
  int_bytes LE 1 (Light_online o) ++
  int_bytes LE 2 (Light_groupId o) ++
  int_bytes LE 1 (Light_on o) ++
  int_bytes LE 1 (Light_lum o) ++
  int_bytes LE 2 (Light_temp o) ++
  int_bytes LE 1 (Light_r o) ++
  int_bytes LE 1 (Light_g o) ++
  int_bytes LE 1 (Light_b o) ++
  int_bytes LE 1 (Light_alpha o) ++
  pad16 (Light_name o) ++
  reserved.

(** Attributes that fit the fields of an entry, on a light as it is right
    after its creation (both name attributes equal). *)
Record reportable (o : Light) : Prop := {
  reportable_id : 0 ≤ Light_id o < 2 ^ 16;
  reportable_addr : 0 ≤ Light_addr o < 2 ^ 64;
  reportable_type : 0 ≤ Light_type o < 2 ^ 8;
  reportable_fwVersion : 0 ≤ Light_fwVersion o < 2 ^ 32;
  reportable_online : 0 ≤ Light_online o < 2 ^ 8;
  reportable_groupId : 0 ≤ Light_groupId o < 2 ^ 16;
  reportable_on : 0 ≤ Light_on o < 2 ^ 8;
  reportable_lum : 0 ≤ Light_lum o < 2 ^ 8;
  reportable_temp : 0 ≤ Light_temp o < 2 ^ 16;
  reportable_r : 0 ≤ Light_r o < 2 ^ 8;
  reportable_g : 0 ≤ Light_g o < 2 ^ 8;
  reportable_b : 0 ≤ Light_b o < 2 ^ 8;
  reportable_alpha : 0 ≤ Light_alpha o < 2 ^ 8;
  reportable_name_length : (length (Light_name o) ≤ 16)%nat;
  reportable_name_nul : x00 ∉ Light_name o;
  reportable_names : Luminary_name o = Light_name o
}.

(** What [recv] hands over after an all-light-status request: seven bytes
    of header, the number of entries, the entries. *)
Definition status_response (head : bytes) (entries : list bytes) : bytes :=
  head ++ int_bytes LE 2 (Z.of_nat (length entries)) ++ concat entries.

(** ** Concrete sessions *)

(** The name "Test". *)
Definition name_Test : bytes := [x54; x65; x73; x74].

(** A lamp that is on at brightness 128. *)
Definition lamp : Light :=
  mkLight name_Test 1 0x0123456789ABCDEF 2 0x01020304 1 3 1 128 2700
    255 200 150 255 name_Test.

(** The light of the decoding example: id 1, type 2, firmware 1.2.3.4,
    online, in group 3, on at brightness 128 and 2700 K, colour
    255/200/150/255, named "Test". *)
Definition bulb : Light :=
  mkLight name_Test 1 0xAABBCCDDEEFF0011 2 0x01020304 1 3 1 128 2700
    255 200 150 255 name_Test.

(** An acknowledgement: a frame declaring one byte after its length. *)
Definition ack : list rx := [RxData [x01; x00]; RxData [x00]].

(** A session holding one light, with the given deliveries pending and the
    given number of [sendall] calls left. *)
Definition session (o : Light) (q : list rx) (n : nat) : Lightify :=
  mkLightify 1 ∅ {[Light_addr o := 0%nat]} (mkSocket q [] n) [o].

Definition no_reserved : bytes := replicate 8 x00.

(** A header as [recv] leaves it in front of the body. *)
Definition some_head : bytes := [x00; x13; x00; x00; x07; x02; x00].

Definition bulb_response : bytes :=
  status_response some_head [status_record bulb no_reserved].

(** A session right after [__init__], the response to its first poll on
    the way. *)
Definition fresh_session : Lightify :=
  Lightify_init
    (mkSocket [RxData (length_prefix (length bulb_response));
               RxData bulb_response] [] 1).

(** A response in two entries: [lamp] dimmed to 10, then an entry cut
    short. *)
Definition cut_response : bytes :=
  some_head ++ [x02; x00] ++ status_record (set_lum 10 lamp) no_reserved ++
  [x02; x00; x22].

Definition polled_session : Lightify :=
  session lamp [RxData (length_prefix (length cut_response));
                RxData cut_response] 1.

(** A group list of one group, and a session whose group-info request gets
    a broken connection for an answer. *)
Definition group_list_response : bytes :=
  some_head ++ [x01; x00] ++ [x03; x00] ++ pad16 name_Test.

Definition grouped_session : Lightify :=
  mkLightify 1 {[name_Test := mkGroup 3 name_Test [Light_addr lamp]]}
    {[Light_addr lamp := 0%nat]}
    (mkSocket [RxData (length_prefix (length group_list_response));
               RxData group_list_response; RxError] [] 2)
    [lamp].

(** ** Further vocabulary: streams, commands, groups, polls *)

(** The read that the loop of [recv] made last. *)
Definition last_read (data : bytes) (chunks : list bytes) : bytes :=
  foldl (λ _ chunk, chunk) data chunks.

Definition leftover (extra : bytes) (rest : list rx) : list rx :=
  match extra with [] => rest | _ => RxData extra :: rest end.

(** A [Luminary] method on a light or on a group. *)
Definition luminary_call (item : Luminary) (m : mutator) : io unit :=
  match m with
  | SetOnOff on => Luminary_set_onoff item on
  | SetLuminance lum time => Luminary_set_luminance item lum time
  | SetTemperature temp time => Luminary_set_temperature item temp time
  | SetRgb r g b time => Luminary_set_rgb item r g b time
  end.

(** The frame of a call. *)
Definition call_frame (item : Luminary) (m : mutator) : io bytes :=
  data <- struct_call (payload m) ;;
  item_build_command item (command_code m) data.

(** The target of a command fits its eight bytes. *)
Definition addressable (item : Luminary) (c : Lightify) : Prop :=
  match item with
  | ALight l => ∃ o, store c !! l = Some o ∧ 0 ≤ Light_addr o < 2 ^ 64
  | AGroup g => 0 ≤ Group_idx g < 256
  end.

(** One entry of a group list: the index and the name in its field. *)
Definition group_entry (e : Z * bytes) : bytes :=
  int_bytes LE 2 e.1 ++ pad16 e.2.

(** What [recv] hands over after a group-list request. *)
Definition group_list_body (head : bytes) (entries : list (Z * bytes)) : bytes :=
  head ++ int_bytes LE 2 (Z.of_nat (length entries)) ++
  concat (group_entry <$> entries).

(** An index and a name that fit an entry. *)
Definition listable (e : Z * bytes) : Prop :=
  0 ≤ e.1 < 65536 ∧ (length e.2 ≤ 16)%nat ∧ x00 ∉ e.2.

(** The dict that the entries fill, later entries overriding earlier ones. *)
Definition filed (entries : list (Z * bytes)) (groups : gmap Z bytes)
  : gmap Z bytes :=
  foldl (λ groups e, <[e.1 := e.2]> groups) groups entries.

(** What [recv] hands over after a group-info request: the group's index,
    its name, and the addresses of its lights. *)
Definition group_info_response (head : bytes) (idx : Z) (name : bytes)
    (addrs : list Z) : bytes :=
  head ++ int_bytes LE 2 idx ++ pad16 name ++
  int_bytes LE 1 (Z.of_nat (length addrs)) ++
  concat (int_bytes LE 8 <$> addrs).

(** A session that can make one more request, the response [body] to it
    arriving in one read. *)
Definition answering (body : bytes) (rest : list rx) (c : Lightify) : Prop :=
  0 ≤ Lightify_seq c + 1 < 256 ∧
  sendable (Lightify_sock c) ≠ 0%nat ∧
  body ≠ [] ∧ Z.of_nat (length body) < 65536 ∧
  inbox (Lightify_sock c) =
    RxData (length_prefix (length body)) :: RxData body :: rest.

(** The session after a request that was answered. *)
Definition answered (frame : bytes) (rest : list rx) (c : Lightify) : Lightify :=
  with_sock (mkSocket rest (outbox (Lightify_sock c) ++ [frame])
               (pred (sendable (Lightify_sock c))))
    (with_seq (Lightify_seq c + 1) c).

(** The answer to one group-info request: header, index, name, addresses. *)
Record membership := mkMembership {
  membership_head : bytes;
  membership_idx : Z;
  membership_name : bytes;
  membership_addrs : list Z
}.

Definition membership_response (i : membership) : bytes :=
  group_info_response (membership_head i) (membership_idx i)
    (membership_name i) (membership_addrs i).

Definition well_formed_membership (i : membership) : Prop :=
  length (membership_head i) = 7%nat ∧
  0 ≤ membership_idx i < 65536 ∧
  (length (membership_name i) ≤ 16)%nat ∧
  (length (membership_addrs i) < 256)%nat ∧
  Forall (λ a, 0 ≤ a < 2 ^ 64) (membership_addrs i).

(** The registry that a refresh builds from the listed groups, taken in
    the order of the iteration, and the answers about their lights. *)
Definition regrouped (order : list (Z * bytes)) (infos : list membership)
    (groups : gmap bytes Group) : gmap bytes Group :=
  foldl (λ groups p, <[p.1.2 := mkGroup p.1.1 p.1.2 (membership_addrs p.2)]> groups)
    groups (zip order infos).

(** One entry merged into the new registry and the objects: a light known
    to the old registry is refreshed where it is, any other is created. *)
Definition merge_entry (old_lights : gmap Z loc)
    (acc : gmap Z loc * list Light) (p : bytes) : gmap Z loc * list Light :=
  let d := decode_entry p in
  match old_lights !! Light_addr d with
  | Some l =>
      match acc.2 !! l with
      | Some o => (<[Light_addr d := l]> acc.1, <[l := refresh d o]> acc.2)
      | None => acc
      end
  | None => (<[Light_addr d := length acc.2]> acc.1, acc.2 ++ [d])
  end.

(** The new registry and the objects after a poll that brought [entries]. *)
Definition polled (c : Lightify) (entries : list bytes) : gmap Z loc * list Light :=
  foldl (merge_entry (Lightify_lights c)) (∅, store c) entries.

(** Every reference of the registry is to an object. *)
Definition registry_refers (c : Lightify) : Prop :=
  ∀ a l, Lightify_lights c !! a = Some l → is_Some (store c !! l).

(** ** Concrete sessions, continued *)

(** A session holding the lamp, with nothing pending and nothing to send. *)
Definition idle : Lightify := session lamp [] 0.

(** The group "Test" with index 3, holding the lamp. *)
Definition den : Group := mkGroup 3 name_Test [Light_addr lamp].

(** The list of groups that holds [den] alone, and the answer about its
    lights. *)
Definition den_list : list (Z * bytes) := [(3, name_Test)].

Definition den_membership : membership :=
  mkMembership some_head 3 name_Test [Light_addr lamp].

(** An order in which the entries and the values of a dict may come. *)
Definition some_iteritems (lst : gmap Z bytes) : list (Z * bytes) :=
  map_to_list lst.

Definition some_itervalues (lights : gmap Z loc) : list loc :=
  (map_to_list lights).*2.

(** A body of three bytes that arrives in two reads. *)
Definition two_reads : list rx :=
  [RxData (length_prefix 3); RxData [x61]; RxData [x62; x63]].

(** The lamp reported dimmed to brightness 10. *)
Definition dimmed_response : bytes :=
  status_response some_head [status_record (set_lum 10 lamp) no_reserved].

(** ** Vocabulary of the mutators and of the polls, continued *)

(** The session once a mutator has made its assignments. *)
Definition assigned (self : loc) (m : mutator) (o : Light) (c : Lightify)
  : Lightify :=
  with_store (<[self := first_write m o]> (store c)) c.

(** The request of a poll and the response to it: the first three
    statements of [update_all_light_status]. *)
Definition poll_request : io bytes :=
  data <- build_all_light_status 1 ;;
  send data ;;;
  recv.

(** The entries that a poll has decoded: the first full-length ones of its
    response, up to some index; none when the response never came. *)
Definition decoded_first (c : Lightify) (ps : list bytes) : Prop :=
  match (poll_request c).1 with
  | Ret data =>
      ∃ k, ps = entry data <$> seq 0 k ∧ Forall (λ p, length p = 50%nat) ps
  | _ => ps = []
  end.

(** What decoding the entries [ps] has done to the lights that [c] held: a
    light that no entry reports is as it was; a light that was registered
    under the address of an entry holds the status of the last such entry,
    and is otherwise as it was. *)
Definition overwritten_by (ps : list bytes) (c c' : Lightify) : Prop :=
  (∀ l o,
     store c !! l = Some o →
     (∀ p, p ∈ ps → Lightify_lights c !! Light_addr (decode_entry p) ≠ Some l) →
     store c' !! l = Some o) ∧
  (∀ l o pre p post,
     store c !! l = Some o → ps = pre ++ p :: post →
     Lightify_lights c !! Light_addr (decode_entry p) = Some l →
     (∀ q, q ∈ post → Lightify_lights c !! Light_addr (decode_entry q) ≠ Some l) →
     store c' !! l = Some (refresh (decode_entry p) o)).

(** A response that announces [num] entries and breaks off after the
    entries [entries], inside the next one. *)
Definition truncated_response (head : bytes) (num : Z) (entries : list bytes)
    (tail : bytes) : bytes :=
  head ++ int_bytes LE 2 num ++ concat entries ++ tail.

(** The lamp as a later poll could report it: another id, another type,
    another name ("Lamp"). *)
Definition relabelled : Light :=
  mkLight [x4c; x61; x6d; x70] 9 (Light_addr lamp) 200 0x01020304 1 3 1 128
    2700 255 200 150 255 [x4c; x61; x6d; x70].

Definition relabelled_response : bytes :=
  status_response some_head [status_record relabelled no_reserved].

(** The session of the lamp, the response that reports it relabelled on
    the way. *)
Definition repolled_session : Lightify :=
  session lamp (deliveries [relabelled_response] []) 1.

(** A session right after [__init__] whose first poll is answered by
    [bulb_response] in two reads, the second holding its last 20 bytes. *)
Definition split_session : Lightify :=
  Lightify_init
    (mkSocket [RxData (length_prefix (length bulb_response));
               RxData (take 39 bulb_response);
               RxData (drop 39 bulb_response)] [] 1).

(** * Lemmas and theorems *)

(** ** Running computations *)

Lemma bind_run {A B} (m : io A) (k : A → io B) c :
  bind m k c = match m c with
               | (Ret a, c') => k a c'
               | (Raise e, c') => (Raise e, c')
               | (Hang, c') => (Hang, c')
               end.
Proof. reflexivity. Qed.

Lemma bind_returned {A B} (m : io A) (k : A → io B) c a c1 :
  m c = (Ret a, c1) → bind m k c = k a c1.
Proof. intros H. by rewrite bind_run, H. Qed.

Lemma bind_ret_inv {A B} (m : io A) (k : A → io B) c b c' :
  bind m k c = (Ret b, c') →
  ∃ a c1, m c = (Ret a, c1) ∧ k a c1 = (Ret b, c').
Proof.
  rewrite bind_run. destruct (m c) as [[a|e|] c1]; [eauto | done | done].
Qed.

Lemma bind_raise_inv {A B} (m : io A) (k : A → io B) c e c' :
  bind m k c = (Raise e, c') →
  m c = (Raise e, c') ∨ ∃ a c1, m c = (Ret a, c1) ∧ k a c1 = (Raise e, c').
Proof.
  rewrite bind_run. destruct (m c) as [[a|e1|] c1]; [eauto | | done].
  intros [= -> ->]. by left.
Qed.

Lemma bind_ret_r {A} (m : io A) c : bind m ret c = m c.
Proof. rewrite bind_run. by destruct (m c) as [[a|e|] c1]. Qed.

Lemma for_each_app {A S} (xs ys : list A) (body : A → S → io S) acc c :
  for_each (xs ++ ys) body acc c =
  (acc' <- for_each xs body acc ;; for_each ys body acc') c.
Proof.
  revert acc c. induction xs as [|x xs IH]; intros acc c; simpl.
  - done.
  - rewrite !bind_run. destruct (body x acc c) as [[a|e|] c1]; [| done | done].
    by rewrite IH, bind_run.
Qed.

Section keeps.
Context (R : relation Lightify) `{!PreOrder R}.

Lemma keeps_ret {A} (a : A) : keeps R (ret a).
Proof. intros c. simpl. reflexivity. Qed.

Lemma keeps_raise {A} e : keeps R (@raise A e).
Proof. intros c. simpl. reflexivity. Qed.

Lemma keeps_hang {A} : keeps R (@hang A).
Proof. intros c. simpl. reflexivity. Qed.

Lemma keeps_get : keeps R get.
Proof. intros c. simpl. reflexivity. Qed.

Lemma keeps_struct_call {A} (r : option A) : keeps R (struct_call r).
Proof. destruct r; [apply keeps_ret | apply keeps_raise]. Qed.

Lemma keeps_bind {A B} (m : io A) (k : A → io B) :
  keeps R m → (∀ a, keeps R (k a)) → keeps R (bind m k).
Proof.
  intros Hm Hk c. rewrite bind_run. specialize (Hm c).
  destruct (m c) as [[a|e|] c1]; simpl in *; [| done | done].
  etransitivity; [done | apply Hk].
Qed.

Lemma keeps_for_each {A S} (xs : list A) (body : A → S → io S) acc :
  (∀ x acc, keeps R (body x acc)) → keeps R (for_each xs body acc).
Proof.
  intros Hb. revert acc.
  induction xs as [|x xs IH]; intros acc; simpl.
  - apply keeps_ret.
  - apply keeps_bind; auto.
Qed.

Lemma keeps_modify (f : Lightify → Lightify) :
  (∀ c, R c (f c)) → keeps R (modify f).
Proof. intros Hf c. apply Hf. Qed.

Lemma keeps_run {A} (m : io A) c r c' : keeps R m → m c = (r, c') → R c c'.
Proof. intros Hm Hc. specialize (Hm c). by rewrite Hc in Hm. Qed.
End keeps.

(** ** Calls that only touch the sequence counter and the socket *)

#[global] Instance wire_only_preorder : PreOrder wire_only.
Proof.
  split.
  - by intros c.
  - intros c1 c2 c3 (?&?&?) (?&?&?). unfold wire_only. split_and!; congruence.
Qed.

Ltac keeps_step :=
  lazymatch goal with
  | |- keeps ?R (ret _) => exact (keeps_ret R _)
  | |- keeps ?R (raise _) => exact (keeps_raise R _)
  | |- keeps ?R hang => exact (keeps_hang R)
  | |- keeps ?R get => exact (keeps_get R)
  | |- keeps ?R (struct_call _) => exact (keeps_struct_call R _)
  | |- keeps ?R (bind _ _) => apply (keeps_bind R); [| intros ?]
  | |- keeps ?R (for_each _ _ _) => apply (keeps_for_each R); intros ? ?
  | |- keeps _ (match ?x with _ => _ end) => destruct x
  end.

Section wire.
Context (R : relation Lightify) `{!PreOrder R}.
Context (Rseq : ∀ v c, R c (with_seq v c)).
Context (Rsock : ∀ k c, R c (with_sock k c)).

Lemma keeps_next_seq : keeps R next_seq.
Proof.
  unfold next_seq. repeat keeps_step.
  apply keeps_modify; intros c; apply Rseq.
Qed.

Lemma keeps_sock_recv n : keeps R (sock_recv n).
Proof.
  intros c. unfold sock_recv.
  destruct (sock_recv_from n (inbox (Lightify_sock c))). apply Rsock.
Qed.

Lemma keeps_send data : keeps R (send data).
Proof.
  intros c. unfold send, sock_sendall.
  destruct (sendable (Lightify_sock c)); simpl; [reflexivity | apply Rsock].
Qed.

Lemma keeps_read l : keeps R (read l).
Proof. intros c. unfold read. destruct (store c !! l); reflexivity. Qed.

Lemma keeps_recv_loop fuel expected data string :
  keeps R (recv_loop fuel expected data string).
Proof.
  revert expected data string.
  induction fuel as [|fuel IH]; intros expected data string; simpl;
    repeat keeps_step; auto using keeps_sock_recv.
Qed.

Lemma keeps_recv : keeps R recv.
Proof.
  unfold recv.
  repeat keeps_step; auto using keeps_sock_recv, keeps_recv_loop.
Qed.

Lemma keeps_build_global_command command data :
  keeps R (build_global_command command data).
Proof. unfold build_global_command. repeat keeps_step. apply keeps_next_seq. Qed.

Lemma keeps_build_basic_command flag command target data :
  keeps R (build_basic_command flag command target data).
Proof. unfold build_basic_command. repeat keeps_step. apply keeps_next_seq. Qed.

Lemma keeps_item_build_command item command data :
  keeps R (item_build_command item command data).
Proof.
  destruct item; simpl; unfold build_light_command, build_command;
    repeat keeps_step; auto using keeps_read, keeps_build_basic_command.
Qed.

#[local] Hint Resolve keeps_item_build_command keeps_build_global_command
  keeps_build_basic_command keeps_send keeps_recv : core.

Lemma keeps_Luminary_set_onoff self on :
  keeps R (Luminary_set_onoff self on).
Proof.
  unfold Luminary_set_onoff, build_onoff. repeat keeps_step; auto.
Qed.

Lemma keeps_Luminary_set_luminance self lum time :
  keeps R (Luminary_set_luminance self lum time).
Proof.
  unfold Luminary_set_luminance, build_luminance. repeat keeps_step; auto.
Qed.

Lemma keeps_Luminary_set_temperature self temp time :
  keeps R (Luminary_set_temperature self temp time).
Proof.
  unfold Luminary_set_temperature, build_temp. repeat keeps_step; auto.
Qed.

Lemma keeps_Luminary_set_rgb self r g b time :
  keeps R (Luminary_set_rgb self r g b time).
Proof.
  unfold Luminary_set_rgb, build_colour. repeat keeps_step; auto.
Qed.

Lemma keeps_group_list : keeps R group_list.
Proof.
  unfold group_list, build_group_list. repeat keeps_step; auto.
Qed.

Lemma keeps_group_info group : keeps R (group_info group).
Proof.
  unfold group_info, build_group_info, build_command.
  repeat keeps_step; auto.
Qed.
End wire.

Lemma wire_only_seq v c : wire_only c (with_seq v c).
Proof. done. Qed.
Lemma wire_only_sock k c : wire_only c (with_sock k c).
Proof. done. Qed.

(** ** The mutators of [Light] *)

Lemma read_run l c o : store c !! l = Some o → read l c = (Ret o, c).
Proof. intros H. unfold read. by rewrite H. Qed.

Lemma write_run l f c o :
  store c !! l = Some o →
  write l f c = (Ret tt, with_store (<[l := f o]> (store c)) c).
Proof. intros H. unfold write. by rewrite bind_run, (read_run _ _ _ H). Qed.

Lemma store_written l (o : Light) (st : list Light) :
  is_Some (st !! l) → <[l := o]> st !! l = Some o.
Proof. intros H. apply list_lookup_insert_eq. by apply lookup_lt_is_Some. Qed.

Lemma store_with_store v c : store (with_store v c) = v.
Proof. done. Qed.

Lemma with_store_twice v w c : with_store v (with_store w c) = with_store v c.
Proof. done. Qed.

Lemma with_store_id c l o :
  store c !! l = Some o → with_store (<[l := o]> (store c)) c = c.
Proof. intros H. rewrite list_insert_id by done. by destruct c. Qed.

(** The calls of the base class leave every object as it is. *)
Lemma Luminary_call_store {A} (m : io A) c r c' :
  keeps wire_only m → m c = (r, c') → store c' = store c.
Proof. intros Hm Hc. by destruct (keeps_run wire_only m c r c' Hm Hc) as (_&_&?). Qed.

Lemma keeps_wire_part self m : keeps wire_only (wire_part self m).
Proof.
  destruct m; simpl;
    [ apply keeps_Luminary_set_onoff | apply keeps_Luminary_set_luminance
    | apply keeps_Luminary_set_temperature | apply keeps_Luminary_set_rgb ];
    first [ exact _ | exact wire_only_seq | exact wire_only_sock ].
Qed.

Lemma requested_first_write m o : requested m (first_write m o).
Proof. by destruct m. Qed.

Lemma requested_after m o : requested m (after m o).
Proof. destruct m; simpl; repeat case_decide; done. Qed.

(** Every mutator is: the attribute writes, then the round trip of the base
    class, then (for on/off and luminance) the coupling of the two. *)
Lemma call_run self m c o :
  store c !! self = Some o →
  let c1 := with_store (<[self := first_write m o]> (store c)) c in
  call self m c =
    match wire_part self m c1 with
    | (Ret _, c2) => (Ret tt, with_store (<[self := after m o]> (store c2)) c2)
    | (Raise e, c2) => (Raise e, c2)
    | (Hang, c2) => (Hang, c2)
    end.
Proof.
  intros Ho c1.
  assert (Hc1 : store c1 !! self = Some (first_write m o)).
  { apply store_written. by rewrite Ho. }
  assert (Hst : ∀ r c2, wire_part self m c1 = (r, c2) → store c2 = store c1).
  { intros r c2. apply Luminary_call_store, keeps_wire_part. }
  destruct m as [on|lum time|temp time|r g b time]; simpl in *.
  - unfold Light_set_onoff.
    rewrite bind_run, (write_run _ _ _ _ Ho). fold c1. rewrite bind_run.
    destruct (Luminary_set_onoff (ALight self) on c1) as [[[]|e|] c2] eqn:E;
      [| done | done].
    pose proof (Hst _ _ eq_refl) as Hs.
    assert (Hc2 : store c2 !! self = Some (set_on on o)) by by rewrite Hs.
    rewrite bind_run, (read_run _ _ _ Hc2). simpl.
    repeat case_decide; try tauto.
    + rewrite (write_run _ _ _ _ Hc2). done.
    + rewrite (with_store_id c2); done.
  - unfold Light_set_luminance.
    rewrite bind_run, (write_run _ _ _ _ Ho). fold c1. rewrite bind_run.
    destruct (Luminary_set_luminance (ALight self) lum time c1)
      as [[[]|e|] c2] eqn:E; [| done | done].
    pose proof (Hst _ _ eq_refl) as Hs.
    assert (Hc2 : store c2 !! self = Some (set_lum lum o)) by by rewrite Hs.
    rewrite bind_run, (read_run _ _ _ Hc2). simpl.
    repeat case_decide; try tauto; try lia.
    + rewrite (write_run _ _ _ _ Hc2). done.
    + rewrite (write_run _ _ _ _ Hc2). done.
    + rewrite (with_store_id c2); done.
  - unfold Light_set_temperature.
    rewrite bind_run, (write_run _ _ _ _ Ho). fold c1.
    destruct (Luminary_set_temperature (ALight self) temp time c1)
      as [[[]|e|] c2] eqn:E; [| done | done].
    rewrite (with_store_id c2); [done |].
    by rewrite (Hst _ _ eq_refl).
  - unfold Light_set_rgb.
    rewrite bind_run, (write_run _ _ _ _ Ho).
    rewrite bind_run, (write_run _ _ _ (set_r r o));
      [| rewrite store_with_store; apply store_written; by rewrite Ho].
    rewrite bind_run, (write_run _ _ _ (set_g g (set_r r o)));
      [| rewrite !store_with_store, list_insert_insert_eq;
         apply store_written; by rewrite Ho].
    rewrite !store_with_store, !with_store_twice, !list_insert_insert_eq.
    fold c1.
    destruct (Luminary_set_rgb (ALight self) r g b time c1)
      as [[[]|e|] c2] eqn:E; [| done | done].
    rewrite (with_store_id c2); [done |].
    by rewrite (Hst _ _ eq_refl).
Qed.

Lemma call_returns self m c o c' :
  store c !! self = Some o → call self m c = (Ret tt, c') →
  store c' !! self = Some (after m o).
Proof.
  intros Ho. rewrite (call_run _ _ _ _ Ho).
  destruct (wire_part _ _ _) as [[[]|e|] c2] eqn:E; intros [= <-].
  rewrite store_with_store. apply store_written.
  rewrite (Luminary_call_store _ _ _ _ (keeps_wire_part self m) E).
  rewrite store_with_store, store_written; [done | by rewrite Ho].
Qed.

Lemma call_raises self m c o e c' :
  store c !! self = Some o → call self m c = (Raise e, c') →
  store c' !! self = Some (first_write m o).
Proof.
  intros Ho. rewrite (call_run _ _ _ _ Ho).
  destruct (wire_part _ _ _) as [[[]|e1|] c2] eqn:E; intros [= <- <-].
  rewrite (Luminary_call_store _ _ _ _ (keeps_wire_part self m) E).
  rewrite store_with_store. apply store_written. by rewrite Ho.
Qed.

Lemma after_dark_is_off m o : couples m → dark_is_off (after m o).
Proof.
  unfold dark_is_off.
  destruct m; simpl; [| | done | done]; intros _;
    repeat case_decide; simpl; intros; lia.
Qed.

Lemma calls_snoc self ms m c :
  calls self (ms ++ [m]) c =
    match calls self ms c with
    | (Ret _, c1) => call self m c1
    | (Raise e, c1) => (Raise e, c1)
    | (Hang, c1) => (Hang, c1)
    end.
Proof.
  unfold calls. rewrite for_each_app, bind_run.
  destruct (for_each ms _ tt c) as [[[]|e|] c1]; [| done | done].
  simpl. apply bind_ret_r.
Qed.

Lemma calls_alive self ms c c' :
  is_Some (store c !! self) → calls self ms c = (Ret tt, c') →
  is_Some (store c' !! self).
Proof.
  revert c'. induction ms as [|m ms IH] using rev_ind; intros c' Hs.
  - by intros [= <-].
  - rewrite calls_snoc.
    destruct (calls self ms c) as [[[]|e|] c1] eqn:E; [| done | done].
    destruct (IH _ Hs eq_refl) as [o Ho]. intros Hc.
    rewrite (call_returns _ _ _ _ _ Ho Hc). eauto.
Qed.

(** ** On/off and luminance *)

Lemma after_coupling_effect m o : coupling_effect m o (after m o).
Proof.
  destruct m; simpl; [| | done | done];
    repeat case_decide; simpl; split_and!; intros; try lia; tauto.
Qed.

(** C10: every mutator of [Light] assigns the requested values before the
    round trip of the base class starts. Whatever the call does, it is the
    round trip run on the session in which the object already holds these
    values: when the round trip returns, the call returns and the object
    holds the requested value (with the coupling of on/off and luminance
    applied); when the round trip raises (while the frame is built, sent or
    the acknowledgement is read) or never ends, so does the call, and the
    object is left with the values assigned, the assignment not undone. *)
Theorem C10_write_before_wire c self o m :
  store c !! self = Some o →
  store (assigned self m o c) !! self = Some (first_write m o) ∧
  requested m (first_write m o) ∧
  (∃ r c2,
     wire_part self m (assigned self m o c) = (r, c2) ∧
     store c2 = store (assigned self m o c) ∧
     match r with
     | Ret _ =>
         call self m c
           = (Ret tt, with_store (<[self := after m o]> (store c2)) c2) ∧
         requested m (after m o)
     | Raise e => call self m c = (Raise e, c2)
     | Hang => call self m c = (Hang, c2)
     end) ∧
  (∀ e c', call self m c = (Raise e, c') →
     wire_part self m (assigned self m o c) = (Raise e, c') ∧
     store c' !! self = Some (first_write m o)).
Proof.
  intros Ho. split_and!.
  - unfold assigned. rewrite store_with_store. apply store_written. by exists o.
  - apply requested_first_write.
  - pose proof (call_run _ m _ _ Ho) as Hcall. cbv zeta in Hcall.
    fold (assigned self m o c) in Hcall.
    destruct (wire_part self m (assigned self m o c)) as [r c2] eqn:E.
    exists r, c2. split; [done |]. split.
    + exact (Luminary_call_store _ _ _ _ (keeps_wire_part self m) E).
    + destruct r as [[]|e|]; [| done | done].
      split; [done | apply requested_after].
  - intros e c' Hc. split; [| by eapply call_raises].
    rewrite (call_run _ _ _ _ Ho) in Hc. cbv zeta in Hc.
    fold (assigned self m o c) in Hc.
    by destruct (wire_part _ _ _) as [[[]|e1|] c2]; simplify_eq.
Qed.

(** C10 on a lamp whose connection breaks while [set_rgb] waits for the
    acknowledgement. *)
Lemma C10_write_before_wire_witness :
  wire_part 0 (SetRgb 1 2 3 0)
    (assigned 0 (SetRgb 1 2 3 0) lamp (session lamp [RxError] 1))
    = (Raise SocketError, (call 0 (SetRgb 1 2 3 0) (session lamp [RxError] 1)).2) ∧
  store (call 0 (SetRgb 1 2 3 0) (session lamp [RxError] 1)).2 !! 0%nat
    = Some (first_write (SetRgb 1 2 3 0) lamp).
Proof.
  apply (proj2 (proj2 (proj2 (C10_write_before_wire (session lamp [RxError] 1) 0%nat lamp
                                (SetRgb 1 2 3 0) eq_refl))) SocketError).
  vm_compute. reflexivity.
Defined.

(** ** Integers and their bytes *)

Lemma Z_of_byte_range b : 0 ≤ Z_of_byte b < 256.
Proof.
  unfold Z_of_byte. pose proof (Byte.to_N_bounded b). lia.
Qed.

Lemma Z_of_byte_of_Z v : Z_of_byte (byte_of_Z v) = v mod 256.
Proof.
  unfold Z_of_byte, byte_of_Z.
  assert (Hr : 0 ≤ v mod 256 < 256) by (apply Z.mod_pos_bound; lia).
  destruct (Byte.of_N (Z.to_N (v mod 256))) as [b|] eqn:E; simpl.
  - apply Byte.to_of_N in E. rewrite E. lia.
  - apply Byte.of_N_None_iff in E. lia.
Qed.

Lemma byte_of_Z_of_byte b : byte_of_Z (Z_of_byte b) = b.
Proof.
  unfold byte_of_Z. pose proof (Z_of_byte_range b).
  rewrite Z.mod_small by done. unfold Z_of_byte.
  by rewrite N2Z.id, Byte.of_to_N.
Qed.

Lemma length_le_bytes n v : length (le_bytes n v) = n.
Proof. revert v. induction n as [|n IH]; intros v; simpl; [done | by rewrite IH]. Qed.

Lemma length_int_bytes o n v : length (int_bytes o n v) = n.
Proof. destruct o; simpl; rewrite ?length_rev; apply length_le_bytes. Qed.

Lemma le_int_le_bytes n v : le_int (le_bytes n v) = v mod 256 ^ Z.of_nat n.
Proof.
  revert v. induction n as [|n IH]; intros v.
  - simpl. by rewrite Z.mod_1_r.
  - cbn [le_bytes le_int]. rewrite Z_of_byte_of_Z, IH.
    rewrite Nat2Z.inj_succ, Z.pow_succ_r by lia.
    rewrite Z.rem_mul_r by lia. done.
Qed.

Lemma bytes_int_int_bytes o n v :
  0 ≤ v < 256 ^ Z.of_nat n → bytes_int o (int_bytes o n v) = v.
Proof.
  intros Hv. destruct o; simpl; rewrite ?rev_involutive, le_int_le_bytes;
    by apply Z.mod_small.
Qed.

Lemma pack1_Some o c v bs :
  pack1 o c v = Some bs →
  0 ≤ v < 256 ^ Z.of_nat (size c) ∧ bs = int_bytes o (size c) v.
Proof.
  unfold pack1. destruct c; try done;
    (destruct (_ && _) eqn:E; [| done]; intros [= <-];
     apply andb_true_iff in E as [?%Z.leb_le ?%Z.ltb_lt]; done).
Qed.

Lemma pack1_in_range o c v :
  (∀ n, c ≠ s n) → 0 ≤ v < 256 ^ Z.of_nat (size c) →
  pack1 o c v = Some (int_bytes o (size c) v).
Proof.
  intros Hc [H1%Z.leb_le H2%Z.ltb_lt]. unfold pack1.
  destruct c; rewrite ?H1, ?H2; try done. by destruct (Hc n).
Qed.

Lemma pack1_out_of_range o c v :
  ¬ (0 ≤ v < 256 ^ Z.of_nat (size c)) → pack1 o c v = None.
Proof.
  intros Hv. destruct (pack1 o c v) as [bs|] eqn:E; [| done].
  by apply pack1_Some in E as [? _].
Qed.

Lemma pack_length o fmt vals bs :
  pack o fmt vals = Some bs → length bs = calcsize fmt.
Proof.
  revert vals bs. induction fmt as [|c fmt IH]; intros [|v vals] bs; simpl; try done.
  - by intros [= <-].
  - destruct (pack1 o c v) as [b|] eqn:E1; [| done].
    destruct (pack o fmt vals) as [r|] eqn:E2; [| done]. intros [= <-].
    apply pack1_Some in E1 as [_ ->].
    rewrite length_app, length_int_bytes. f_equal. by eapply IH.
Qed.

Lemma unpack_sized o fmt bs :
  length bs = calcsize fmt → unpack o fmt bs = Some (fields o fmt bs).
Proof. intros H. unfold unpack. by rewrite decide_True. Qed.

Lemma unpack_Some o fmt bs vals :
  unpack o fmt bs = Some vals → length bs = calcsize fmt ∧ vals = fields o fmt bs.
Proof. unfold unpack. case_decide; [| done]. by intros [= <-]. Qed.

(** ** Slices *)

Lemma length_slice {A} (a b : nat) (l : list A) :
  (a ≤ b)%nat → (b ≤ length l)%nat → length (slice a b l) = (b - a)%nat.
Proof. intros. unfold slice. rewrite length_take, length_drop. lia. Qed.

(** ** Frames *)

Lemma next_seq_run c :
  next_seq c = (Ret (Lightify_seq c + 1), with_seq (Lightify_seq c + 1) c).
Proof. done. Qed.

Lemma build_basic_command_run flag command target data c :
  build_basic_command flag command target data c =
    let c' := with_seq (Lightify_seq c + 1) c in
    match frame_head (14 + Z.of_nat (length data)) flag command (Lightify_seq c + 1) with
    | Some head => (Ret (head ++ target ++ data), c')
    | None => (Raise StructError, c')
    end.
Proof.
  unfold build_basic_command. rewrite bind_run, next_seq_run, bind_run.
  fold (frame_head (14 + Z.of_nat (length data)) flag command (Lightify_seq c + 1)).
  by destruct (frame_head _ _ _ _).
Qed.

Lemma build_global_command_run command data c :
  build_global_command command data c =
    let c' := with_seq (Lightify_seq c + 1) c in
    match frame_head (6 + Z.of_nat (length data)) 0x02 command (Lightify_seq c + 1) with
    | Some head => (Ret (head ++ data), c')
    | None => (Raise StructError, c')
    end.
Proof.
  unfold build_global_command. rewrite bind_run, next_seq_run, bind_run.
  fold (frame_head (6 + Z.of_nat (length data)) 0x02 command (Lightify_seq c + 1)).
  by destruct (frame_head _ _ _ _).
Qed.

Lemma frame_head_Some length_ flag command sq :
  0 ≤ length_ < 65536 → 0 ≤ flag < 256 → 0 ≤ command < 256 → 0 ≤ sq < 256 →
  frame_head length_ flag command sq =
    Some (int_bytes LE 2 length_ ++
          [byte_of_Z flag; byte_of_Z command; x00; x00; x07; byte_of_Z sq]).
Proof.
  intros. unfold frame_head. cbn [pack].
  rewrite !pack1_in_range by (done || simpl; lia). done.
Qed.

Lemma frame_head_seq length_ flag command sq :
  ¬ (0 ≤ sq < 256) → frame_head length_ flag command sq = None.
Proof.
  intros Hsq. unfold frame_head. cbn [pack].
  rewrite (pack1_out_of_range LE B sq) by done.
  by repeat (destruct (pack1 _ _ _); try done).
Qed.

(** The sequence byte is the eighth byte of a frame. *)
Lemma frame_head_byte length_ flag command sq head :
  frame_head length_ flag command sq = Some head →
  length head = 8%nat ∧ head !! 7%nat = Some (byte_of_Z sq) ∧ 0 ≤ sq < 256.
Proof.
  unfold frame_head. cbn [pack]. intros E.
  repeat (destruct (pack1 _ _ _) as [?|] eqn:? in E; [| done]).
  repeat match goal with H : pack1 _ _ _ = Some _ |- _ =>
    apply pack1_Some in H as [? ->] end.
  injection E as <-. done.
Qed.

(** C4: the set-on-off frame for the light at address 0x0123456789ABCDEF,
    on = 1, built when the counter stands at 4 (the frame gets sequence
    number 5): length 15, flag 0x00, command 0x32, two zero bytes, 0x07,
    sequence 0x05, target EF CD AB 89 67 45 23 01, payload 01. *)
Theorem C4_onoff_frame c self o :
  store c !! self = Some o →
  Light_addr o = 0x0123456789ABCDEF →
  Lightify_seq c = 4 →
  (build_onoff (ALight self) 1 c).1 =
    Ret [x0f; x00; x00; x32; x00; x00; x07; x05;
         xef; xcd; xab; x89; x67; x45; x23; x01; x01].
Proof.
  intros Ho Haddr Hseq. unfold build_onoff.
  change (struct_call (pack LE [B] [1])) with (ret (A:=bytes) [x01]).
  rewrite bind_run. cbn [ret item_build_command]. unfold build_light_command.
  rewrite bind_run, (read_run _ _ _ Ho), Haddr.
  change (struct_call (pack LE [Q] [81985529216486895]))
    with (ret (A:=bytes) [xef; xcd; xab; x89; x67; x45; x23; x01]).
  rewrite bind_run. cbn [ret].
  rewrite build_basic_command_run, Hseq. reflexivity.
Qed.

(** C4 on a session that holds such a light. *)
Lemma C4_onoff_frame_witness :
  (build_onoff (ALight 0) 1 (with_seq 4 (session lamp [] 1))).1 =
    Ret [x0f; x00; x00; x32; x00; x00; x07; x05;
         xef; xcd; xab; x89; x67; x45; x23; x01; x01].
Proof.
  apply (C4_onoff_frame (with_seq 4 (session lamp [] 1)) 0%nat lamp);
    reflexivity.
Defined.

(** ** Group targets *)

Lemma pack_cons o c fmt v vals :
  pack o (c :: fmt) (v :: vals) =
    match pack1 o c v, pack o fmt vals with
    | Some b, Some r => Some (b ++ r)
    | _, _ => None
    end.
Proof. done. Qed.

Lemma group_target_Some idx target :
  group_target idx = Some target →
  0 ≤ idx < 256 ∧ target = byte_of_Z idx :: replicate 7 x00.
Proof.
  unfold group_target. rewrite pack_cons.
  change (pack LE [B; B; B; B; B; B; B] [0; 0; 0; 0; 0; 0; 0])
    with (Some (replicate 7 x00)).
  destruct (pack1 LE B idx) as [b|] eqn:E; [| done]. intros [= <-].
  by apply pack1_Some in E as [? ->].
Qed.

Lemma group_target_None idx : ¬ (0 ≤ idx < 256) → group_target idx = None.
Proof.
  intros H. unfold group_target. rewrite pack_cons.
  by rewrite (pack1_out_of_range LE B idx).
Qed.

Lemma int_bytes_byte idx :
  0 ≤ idx < 256 → int_bytes LE 8 idx = byte_of_Z idx :: replicate 7 x00.
Proof.
  intros H. cbn [int_bytes le_bytes]. rewrite (Z.div_small idx 256) by done.
  reflexivity.
Qed.

Lemma slice_target {A} (head target data : list A) :
  length head = 8%nat → length target = 8%nat →
  slice 8 16 (head ++ target ++ data) = target.
Proof.
  intros Hh Ht. unfold slice.
  rewrite drop_app_length' by done. by rewrite take_app_length' by done.
Qed.

Lemma build_command_target command group data c frame :
  (build_command command group data c).1 = Ret frame →
  0 ≤ Group_idx group < 256 ∧
  slice 8 16 frame = int_bytes LE 8 (Group_idx group) ∧
  slice 8 16 frame = byte_of_Z (Group_idx group) :: replicate 7 x00.
Proof.
  unfold build_command. rewrite bind_run.
  fold (group_target (Group_idx group)).
  destruct (group_target (Group_idx group)) as [target|] eqn:E; [| done].
  apply group_target_Some in E as [Hidx ->].
  cbn [struct_call ret]. rewrite build_basic_command_run. cbv zeta.
  destruct (frame_head _ _ _ _) as [head|] eqn:Eh; [| done].
  apply frame_head_byte in Eh as (Hlen & _). intros [= <-].
  rewrite int_bytes_byte by done.
  split_and!; [lia | lia | |];
    by apply (slice_target head (_ :: replicate 7 x00) data).
Qed.

(** A frame is built for every index that fits one byte, and for no other. *)
Lemma group_target_in_range idx :
  0 ≤ idx < 256 → group_target idx = Some (byte_of_Z idx :: replicate 7 x00).
Proof.
  intros H. unfold group_target. rewrite pack_cons.
  by rewrite pack1_in_range by (done || simpl; lia).
Qed.

Lemma build_command_narrow_index command group data c :
  0 ≤ Group_idx group < 256 → 0 ≤ command < 256 →
  0 ≤ Lightify_seq c + 1 < 256 → 14 + Z.of_nat (length data) < 65536 →
  ∃ frame, (build_command command group data c).1 = Ret frame.
Proof.
  intros Hidx Hcmd Hseq Hlen. unfold build_command. rewrite bind_run.
  fold (group_target (Group_idx group)).
  rewrite group_target_in_range by done.
  cbn [struct_call ret]. rewrite build_basic_command_run. cbv zeta.
  rewrite frame_head_Some by lia. by eexists.
Qed.

Lemma build_command_wide_index command group data c :
  ¬ (0 ≤ Group_idx group < 256) →
  build_command command group data c = (Raise StructError, c).
Proof.
  intros Hidx. unfold build_command. rewrite bind_run.
  fold (group_target (Group_idx group)). by rewrite group_target_None.
Qed.

(** C5, as amended: for a group whose index fits one byte, [build_command]
    builds a frame (the command code, the counter and the payload length
    being in range), and in every frame it builds bytes 8 to 15 are the
    group index as an 8-byte little-endian integer: the index byte and
    seven zero bytes. For any other index [build_command] raises
    [struct.error] and builds no frame. *)
Theorem C5_group_target command group data c :
  (∀ frame,
     (build_command command group data c).1 = Ret frame →
     0 ≤ Group_idx group < 256 ∧
     slice 8 16 frame = int_bytes LE 8 (Group_idx group) ∧
     slice 8 16 frame = byte_of_Z (Group_idx group) :: replicate 7 x00) ∧
  (0 ≤ Group_idx group < 256 → 0 ≤ command < 256 →
   0 ≤ Lightify_seq c + 1 < 256 → 14 + Z.of_nat (length data) < 65536 →
   ∃ frame, (build_command command group data c).1 = Ret frame) ∧
  (¬ (0 ≤ Group_idx group < 256) →
   build_command command group data c = (Raise StructError, c)).
Proof.
  split_and!.
  - apply build_command_target.
  - apply build_command_narrow_index.
  - apply build_command_wide_index.
Qed.

(** C5, as amended, on the set-on-off frames for group 3 and group 256. *)
Lemma C5_group_target_witness :
  (0 ≤ 3 < 256 ∧
   slice 8 16 [x0f; x00; x02; x32; x00; x00; x07; x02;
               x03; x00; x00; x00; x00; x00; x00; x00; x01]
     = int_bytes LE 8 3 ∧
   slice 8 16 [x0f; x00; x02; x32; x00; x00; x07; x02;
               x03; x00; x00; x00; x00; x00; x00; x00; x01]
     = byte_of_Z 3 :: replicate 7 x00) ∧
  (∃ frame,
     (build_command COMMAND_ONOFF (mkGroup 3 name_Test []) [x01]
        (session lamp [] 1)).1 = Ret frame) ∧
  build_command COMMAND_ONOFF (mkGroup 256 name_Test []) [x01]
    (session lamp [] 1) = (Raise StructError, session lamp [] 1).
Proof.
  split; [| split].
  - apply (proj1 (C5_group_target COMMAND_ONOFF (mkGroup 3 name_Test []) [x01]
                    (session lamp [] 1))).
    reflexivity.
  - apply (proj1 (proj2 (C5_group_target COMMAND_ONOFF
                           (mkGroup 3 name_Test []) [x01] (session lamp [] 1))));
      unfold COMMAND_ONOFF; simpl; lia.
  - apply (proj2 (proj2 (C5_group_target COMMAND_ONOFF
                           (mkGroup 256 name_Test []) [x01] (session lamp [] 1)))).
    simpl. lia.
Defined.

(** C5 as it stands fails: 256 is a 16-bit index, and no frame is built
    for the group that has it. *)
Lemma C5_counterexample :
  0 ≤ Group_idx (mkGroup 256 name_Test []) < 2 ^ 16 ∧
  build_command COMMAND_ONOFF (mkGroup 256 name_Test []) [x01]
    (session lamp [] 1) = (Raise StructError, session lamp [] 1).
Proof. split; [simpl; lia | reflexivity]. Qed.

(** ** Sequence numbers *)

Lemma sequence_byte flag command target data c frame c' :
  build_basic_command flag command target data c = (Ret frame, c') →
  frame !! 7%nat = Some (byte_of_Z (Lightify_seq c + 1)) ∧
  0 ≤ Lightify_seq c + 1 < 256 ∧
  Lightify_seq c' = Lightify_seq c + 1.
Proof.
  rewrite build_basic_command_run. cbv zeta.
  destruct (frame_head _ _ _ _) as [head|] eqn:E; [| done].
  apply frame_head_byte in E as (Hlen & H7 & Hr). intros [= <- <-].
  split_and!; [| lia | lia | done].
  by rewrite lookup_app_l by lia.
Qed.

Lemma sequence_byte_global command data c frame c' :
  build_global_command command data c = (Ret frame, c') →
  frame !! 7%nat = Some (byte_of_Z (Lightify_seq c + 1)) ∧
  0 ≤ Lightify_seq c + 1 < 256 ∧
  Lightify_seq c' = Lightify_seq c + 1.
Proof.
  rewrite build_global_command_run. cbv zeta.
  destruct (frame_head _ _ _ _) as [head|] eqn:E; [| done].
  apply frame_head_byte in E as (Hlen & H7 & Hr). intros [= <- <-].
  split_and!; [| lia | lia | done].
  by rewrite lookup_app_l by lia.
Qed.

Lemma sequence_overflow flag command target data c :
  255 ≤ Lightify_seq c →
  build_basic_command flag command target data c =
    (Raise StructError, with_seq (Lightify_seq c + 1) c) ∧
  build_global_command command data c =
    (Raise StructError, with_seq (Lightify_seq c + 1) c).
Proof.
  intros H.
  rewrite build_basic_command_run, build_global_command_run. cbv zeta.
  by rewrite !frame_head_seq by lia.
Qed.

(** The first 254 frames of a session carry the bytes 2 to 255. *)
Lemma issue_254 sock :
  (fmap (M:=list) (λ frame, Z_of_byte <$> frame !! 7%nat)) <$>
    match (issue 254 (Lightify_init sock)).1 with
    | Ret frames => Some frames | _ => None end
  = Some ((λ n, Some (Z.of_nat n + 2)) <$> seq 0 254).
Proof. vm_compute. reflexivity. Qed.

(** C3 fails on the code: after 254 commands of a session the counter
    does not wrap; the 255th command raises [struct.error] with the counter
    at 256, and no frame is built. *)
Theorem C3_sequence_overflow sock :
  (issue 254 ;;; build_group_list) (Lightify_init sock) =
    (Raise StructError, with_seq 256 (Lightify_init sock)).
Proof. vm_compute. reflexivity. Qed.

(** ** The address as text *)

(** C9 fails on the code: for the address 0x0123456789ABCDEF, [mac()]
    gives 15 hex digits, the last group being a single digit. *)
Theorem C9_mac_unpadded :
  Light_addr lamp = 0x0123456789ABCDEF ∧
  Light_mac lamp = "12-34-56-78-9a-bc-de-f"%string.
Proof. split; reflexivity. Qed.

Example mac_sixteen_digits :
  mac_friendly 0xAABBCCDDEEFF0011 = "aa-bb-cc-dd-ee-ff-00-11"%string.
Proof. reflexivity. Qed.

Example mac_one_digit : mac_friendly 1 = "1-------"%string.
Proof. reflexivity. Qed.

(** ** The receive loop *)

Lemma with_inbox_id c : with_inbox (inbox (Lightify_sock c)) c = c.
Proof. by destruct c as [? ? ? [] ?]. Qed.

Lemma with_inbox_twice q q' c : with_inbox q (with_inbox q' c) = with_inbox q c.
Proof. done. Qed.

Lemma inbox_with_inbox q c : inbox (Lightify_sock (with_inbox q c)) = q.
Proof. done. Qed.

Lemma sock_recv_run n c :
  sock_recv n c =
    ((sock_recv_from n (inbox (Lightify_sock c))).1,
     with_inbox (sock_recv_from n (inbox (Lightify_sock c))).2 c).
Proof. unfold sock_recv. by destruct (sock_recv_from _ _). Qed.

Lemma sock_recv_from_chunk n chunk rest :
  chunk ≠ [] → (length chunk ≤ n)%nat →
  sock_recv_from n (RxData chunk :: rest) = (Ret chunk, rest).
Proof.
  intros Hne Hlen. destruct chunk as [|b chunk]; [done |].
  cbn [sock_recv_from]. by rewrite decide_True.
Qed.

(** What a read can bring: bytes, at least one and at most [n], or nothing
    at the end of the stream, which is then still at its end. *)
Lemma sock_recv_from_Ret n q data q' :
  (0 < n)%nat → sock_recv_from n q = (Ret data, q') →
  (data ≠ [] ∧ (length data ≤ n)%nat ∧ (length q' ≤ length q)%nat) ∨
  (data = [] ∧ ∃ q0, q' = RxEof :: q0).
Proof.
  intros Hn. induction q as [|[chunk| |] q IH]; simpl; [done | | done |].
  - destruct chunk as [|b chunk].
    + intros H. destruct (IH H) as [(?&?&?)|?]; [left | by right].
      split_and!; [done | done | lia].
    + case_decide; intros [= <- <-]; left; split_and!; try done.
      * simpl. lia.
      * destruct n; [lia | done].
      * rewrite length_take. lia.
  - intros [= <- <-]. right. eauto.
Qed.

Lemma recv_loop_unfold fuel expected data string c :
  recv_loop fuel expected data string c =
    if decide (expected > 0) then
      match fuel with
      | O => (Hang, c)
      | S fuel' =>
          (data <- sock_recv (Z.to_nat expected) ;;
           recv_loop fuel' (expected - Z.of_nat (length data)) data
             (string ++ data)) c
      end
    else (Ret data, c).
Proof. destruct fuel; simpl; by case_decide. Qed.

(** At the end of the stream the loop spins: however many passes it is
    given, it has not returned. *)
Lemma recv_loop_eof fuel expected data string c q :
  expected > 0 → inbox (Lightify_sock c) = RxEof :: q →
  recv_loop fuel expected data string c = (Hang, c).
Proof.
  intros He Hq. revert data string.
  induction fuel as [|fuel IH]; intros data string;
    rewrite recv_loop_unfold, decide_True by done; [done |].
  rewrite bind_run, sock_recv_run, Hq. cbn [sock_recv_from fst snd].
  rewrite <- Hq, with_inbox_id. cbn [length]. rewrite Z.sub_0_r. apply IH.
Qed.

(** The passes given to the loop by [recv] are enough: more of them change
    nothing. *)
Lemma recv_loop_fuel fuel1 fuel2 expected data string c :
  (Z.to_nat expected ≤ fuel1)%nat → (Z.to_nat expected ≤ fuel2)%nat →
  recv_loop fuel1 expected data string c =
  recv_loop fuel2 expected data string c.
Proof.
  revert fuel2 expected data string c.
  induction fuel1 as [|fuel1 IH]; intros fuel2 expected data string c H1 H2.
  - rewrite !recv_loop_unfold. case_decide; [lia | done].
  - rewrite !recv_loop_unfold. case_decide as He; [| done].
    destruct fuel2 as [|fuel2]; [lia |].
    rewrite !bind_run, sock_recv_run.
    destruct (sock_recv_from _ _) as [[data'|e|] q'] eqn:E; [| done | done].
    cbn [fst snd].
    apply sock_recv_from_Ret in E as [(Hne & Hlen & _)|[-> [q0 ->]]]; [| | lia].
    + destruct data' as [|b data']; [done |]. simpl in Hlen.
      apply IH; simpl length; lia.
    + cbn [length]. rewrite Z.sub_0_r.
      by rewrite !(recv_loop_eof _ _ _ _ _ q0).
Qed.

Lemma recv_loop_chunk fuel expected data string c chunk rest :
  inbox (Lightify_sock c) = RxData chunk :: rest →
  chunk ≠ [] → Z.of_nat (length chunk) ≤ expected →
  recv_loop (S fuel) expected data string c =
  recv_loop fuel (expected - Z.of_nat (length chunk)) chunk (string ++ chunk)
    (with_inbox rest c).
Proof.
  intros Hq Hne Hlen.
  assert (expected > 0) by (destruct chunk; [done | simpl in Hlen; lia]).
  rewrite recv_loop_unfold, decide_True by done.
  rewrite bind_run, sock_recv_run, Hq, sock_recv_from_chunk by (done || lia).
  done.
Qed.

Lemma unpack_H v :
  0 ≤ v < 65536 → unpack LE [H] (int_bytes LE 2 v) = Some [Int v].
Proof.
  intros Hv. rewrite unpack_sized by done. cbn [fields unpack1 size].
  rewrite take_ge by done.
  change (le_bytes 2 v) with (int_bytes LE 2 v).
  by rewrite bytes_int_int_bytes.
Qed.

(** A body that arrives in one read is returned whole. *)
Lemma recv_one_read c body rest :
  inbox (Lightify_sock c) = RxData (length_prefix (length body)) :: RxData body :: rest →
  body ≠ [] → Z.of_nat (length body) < 65536 →
  recv c = (Ret body, with_inbox rest c).
Proof.
  intros Hq Hne Hlen. unfold recv.
  rewrite bind_run, sock_recv_run, Hq, sock_recv_from_chunk by done.
  cbn [fst snd]. rewrite take_ge by done.
  unfold length_prefix. rewrite unpack_H by lia.
  cbn [struct_call]. rewrite bind_run. cbn [ret].
  rewrite length_int_bytes.
  replace (Z.of_nat (length body) + 2 - Z.of_nat 2) with (Z.of_nat (length body)) by lia.
  rewrite Nat2Z.id.
  destruct body as [|b body]; [done |]. cbn [length].
  rewrite (recv_loop_chunk _ _ _ _ _ (b :: body) rest) by (done || simpl; lia).
  rewrite recv_loop_unfold, decide_False by (simpl; lia).
  by rewrite with_inbox_twice.
Qed.

(** C2 fails on the code: of a body that arrives in two reads, [recv]
    returns the second read only, not the whole body. *)
Theorem C2_recv_last_read c a b rest :
  inbox (Lightify_sock c) =
    RxData (length_prefix (length (a ++ b))) :: RxData a :: RxData b :: rest →
  a ≠ [] → b ≠ [] → Z.of_nat (length (a ++ b)) < 65536 →
  recv c = (Ret b, with_inbox rest c) ∧ b ≠ a ++ b.
Proof.
  intros Hq Ha Hb Hlen. split.
  - unfold recv.
    rewrite bind_run, sock_recv_run, Hq, sock_recv_from_chunk by done.
    cbn [fst snd]. rewrite take_ge by done.
    unfold length_prefix. rewrite unpack_H by lia.
    cbn [struct_call]. rewrite bind_run. cbn [ret].
    rewrite length_int_bytes.
    replace (Z.of_nat (length (a ++ b)) + 2 - Z.of_nat 2)
      with (Z.of_nat (length (a ++ b))) by lia.
    rewrite Nat2Z.id, length_app.
    destruct a as [|x a]; [done |]. destruct b as [|y b]; [done |].
    cbn [length]. rewrite Nat.add_succ_r. cbn [Nat.add].
    rewrite (recv_loop_chunk _ _ _ _ _ (x :: a) (RxData (y :: b) :: rest))
      by (done || simpl; lia).
    rewrite (recv_loop_chunk _ _ _ _ _ (y :: b) rest) by (done || simpl; lia).
    rewrite recv_loop_unfold, decide_False by (simpl; lia).
    by rewrite !with_inbox_twice.
  - intros Heq. apply (f_equal length) in Heq. rewrite length_app in Heq.
    destruct a; [done | simpl in Heq; lia].
Qed.

(** C2 on a body of four bytes that arrives two by two. *)
Lemma C2_recv_last_read_witness :
  recv (session lamp [RxData [x04; x00]; RxData [x61; x62]; RxData [x63; x64]] 0)
    = (Ret [x63; x64], with_inbox [] (session lamp [] 0)) ∧
  [x63; x64] ≠ [x61; x62; x63; x64].
Proof.
  apply (C2_recv_last_read
           (session lamp [RxData [x04; x00]; RxData [x61; x62]; RxData [x63; x64]] 0)
           [x61; x62] [x63; x64] []);
    [reflexivity | done | done | simpl; lia].
Defined.

(** ** Refreshing the registries *)

Section keeps_on_raise.
Context (R : relation Lightify) `{!PreOrder R}.

Lemma keeps_on_raise_weaken {A} (m : io A) : keeps R m → keeps_on_raise R m.
Proof. intros Hm c e c' Hc. by eapply keeps_run. Qed.

Lemma keeps_on_raise_bind {A B} (m : io A) (k : A → io B) :
  keeps R m → (∀ a, keeps_on_raise R (k a)) → keeps_on_raise R (bind m k).
Proof.
  intros Hm Hk c e c' [Hc|(a & c1 & Hc & Hk')]%bind_raise_inv.
  - by eapply keeps_run.
  - etransitivity; [by eapply keeps_run | by eapply Hk].
Qed.

Lemma keeps_on_raise_modify f : keeps_on_raise R (modify f).
Proof. by intros c e c'. Qed.
End keeps_on_raise.

#[global] Instance same_object_preorder : PreOrder same_object.
Proof.
  split.
  - by intros o.
  - intros o1 o2 o3 (?&?&?&?) (?&?&?&?). unfold same_object.
    split_and!; congruence.
Qed.

#[global] Instance registry_kept_preorder : PreOrder registry_kept.
Proof.
  split.
  - intros c. split_and!; [done | done |]. intros l o Ho. by exists o.
  - intros c1 c2 c3 (?&?&H12) (?&?&H23). split_and!; [congruence | congruence |].
    intros l o Ho. destruct (H12 _ _ Ho) as (o2 & Ho2 & ?).
    destruct (H23 _ _ Ho2) as (o3 & Ho3 & ?). exists o3.
    split; [done | by etransitivity].
Qed.

Lemma wire_only_registry_kept c c' : wire_only c c' → registry_kept c c'.
Proof.
  intros (?&?&Hs). split_and!; [done | done |].
  intros l o Ho. exists o. by rewrite Hs.
Qed.

Lemma registry_kept_seq v c : registry_kept c (with_seq v c).
Proof. apply wire_only_registry_kept, wire_only_seq. Qed.
Lemma registry_kept_sock k c : registry_kept c (with_sock k c).
Proof. apply wire_only_registry_kept, wire_only_sock. Qed.

Ltac wire_side :=
  first [ exact _ | exact wire_only_seq | exact wire_only_sock
        | exact registry_kept_seq | exact registry_kept_sock ].

Lemma keeps_new o : keeps registry_kept (new o).
Proof.
  intros c. simpl. split_and!; [done | done |].
  intros l o1 Ho1. exists o1. split; [| done].
  by apply lookup_app_l_Some.
Qed.

Lemma keeps_Light_update_status self fw online groupId status lum temp r g b alpha name :
  keeps registry_kept
    (Light_update_status self fw online groupId status lum temp r g b alpha name).
Proof.
  intros c. unfold Light_update_status, write. rewrite bind_run. unfold read.
  destruct (store c !! self) as [o|] eqn:Ho; [| reflexivity].
  unfold modify. cbn [snd]. split_and!; [done | done |].
  intros l o1 Ho1. rewrite store_with_store.
  destruct (decide (l = self)) as [->|Hne].
  - rewrite list_lookup_insert_eq by by eapply lookup_lt_Some.
    eexists. split; [done |]. by simplify_eq.
  - rewrite list_lookup_insert_ne by done. by exists o1.
Qed.

Lemma keeps_light_status_entry data old_lights i new_lights :
  keeps registry_kept (light_status_entry data old_lights i new_lights).
Proof.
  unfold light_status_entry.
  repeat (apply (keeps_bind registry_kept); [by keeps_step | intros ?]).
  repeat keeps_step; auto using keeps_new, keeps_Light_update_status.
Qed.

Lemma keeps_on_raise_update_all_light_status :
  keeps_on_raise registry_kept update_all_light_status.
Proof.
  unfold update_all_light_status, build_all_light_status.
  apply (keeps_on_raise_bind registry_kept).
  { repeat keeps_step.
    apply keeps_build_global_command; wire_side. }
  intros ?. apply (keeps_on_raise_bind registry_kept).
  { apply keeps_send; wire_side. }
  intros ?. apply (keeps_on_raise_bind registry_kept).
  { apply keeps_recv; wire_side. }
  intros ?. apply (keeps_on_raise_bind registry_kept); [by keeps_step |].
  intros vals.
  assert (Hraise : ∀ A e, keeps_on_raise registry_kept (@raise A e)).
  { intros A e. apply (keeps_on_raise_weaken registry_kept). keeps_step. }
  destruct vals as [|[num|] [|]]; try apply Hraise.
  apply (keeps_on_raise_bind registry_kept); [by keeps_step |].
  intros ?. apply (keeps_on_raise_bind registry_kept).
  { apply (keeps_for_each registry_kept). intros ? ?.
    apply keeps_light_status_entry. }
  intros ?. apply keeps_on_raise_modify.
Qed.

Lemma keeps_on_raise_update_group_list iteritems :
  keeps_on_raise wire_only (update_group_list iteritems).
Proof.
  unfold update_group_list.
  apply (keeps_on_raise_bind wire_only).
  { apply keeps_group_list; wire_side. }
  intros ?. apply (keeps_on_raise_bind wire_only).
  { apply (keeps_for_each wire_only). intros [idx name] ?.
    apply (keeps_bind wire_only); [| intros ?; keeps_step].
    apply keeps_group_info; wire_side. }
  intros ?. apply keeps_on_raise_modify.
Qed.

(** ** Status entries *)

Lemma struct_call_unpack o fmt bs :
  length bs = calcsize fmt →
  struct_call (unpack o fmt bs) = ret (fields o fmt bs).
Proof. intros H. by rewrite unpack_sized. Qed.

Lemma bind_ret_l {A B} (a : A) (k : A → io B) c : bind (ret a) k c = k a c.
Proof. done. Qed.

Lemma light_status_entry_run data old_lights i new_lights c :
  length (entry data i) = 50%nat →
  let d := decode_entry (entry data i) in
  light_status_entry data old_lights i new_lights c =
    match old_lights !! Light_addr d with
    | Some l =>
        match store c !! l with
        | Some o => (Ret (<[Light_addr d := l]> new_lights),
                     with_store (<[l := refresh d o]> (store c)) c)
        | None => (Raise NoObject, c)
        end
    | None => (Ret (<[Light_addr d := length (store c)]> new_lights),
               with_store (store c ++ [d]) c)
    end.
Proof.
  intros Hlen d. unfold light_status_entry. fold (entry data i).
  repeat (rewrite bind_run, struct_call_unpack
            by (rewrite length_slice; [done | lia | rewrite Hlen; lia]);
          cbn [ret]).
  cbn [fields unpack1 size].
  subst d. unfold decode_entry. cbn [Light_addr].
  set (mac := bytes_int LE (take 8 (slice 2 10 (entry data i)))).
  rewrite bind_run. destruct (old_lights !! mac) as [l|].
  - cbn [ret]. rewrite bind_run. unfold Light_update_status.
    destruct (store c !! l) as [o|] eqn:Ho.
    + by rewrite (write_run _ _ _ _ Ho).
    + unfold write, read. by rewrite bind_run, Ho.
  - unfold new. rewrite bind_run. unfold Light_update_status.
    erewrite write_run;
      [| rewrite store_with_store; by apply list_lookup_middle].
    rewrite store_with_store, with_store_twice.
    rewrite insert_app_r_alt, Nat.sub_diag by done. done.
Qed.

(** ** The bytes of a status entry *)

Lemma length_pad16 name : (length name ≤ 16)%nat → length (pad16 name) = 16%nat.
Proof. intros H. unfold pad16. rewrite length_app, length_replicate. lia. Qed.

Lemma strip_nul_pad16 name : x00 ∉ name → strip_nul (pad16 name) = name.
Proof.
  intros Hn. unfold strip_nul, pad16. rewrite filter_app.
  assert (Hz : ∀ k, filter (λ c, c ≠ x00) (replicate k x00) = []).
  { induction k as [|k IH]; [done |]. simpl. by rewrite filter_cons_False by auto. }
  rewrite Hz, app_nil_r.
  induction name as [|b name IH]; [done |].
  apply not_elem_of_cons in Hn as [Hb Hn].
  rewrite filter_cons_True by done. by rewrite IH.
Qed.

Lemma length_status_record o reserved :
  (length (Light_name o) ≤ 16)%nat → length reserved = 8%nat →
  length (status_record o reserved) = 50%nat.
Proof.
  intros Hn Hr. unfold status_record.
  rewrite !length_app, !length_int_bytes, length_pad16, Hr; done.
Qed.

Lemma decode_status_record o reserved :
  reportable o → length reserved = 8%nat →
  decode_entry (status_record o reserved) = o.
Proof.
  intros [] Hr.
  destruct o as [lname id addr type fw online grp on lum temp r g b alpha name].
  simpl in *. subst.
  unfold decode_entry.
  change (slice 26 42 (status_record ?o reserved))
    with (take 16 (pad16 (Light_name o) ++ reserved)).
  cbn [Light_name].
  rewrite take_app_length' by by rewrite length_pad16.
  rewrite strip_nul_pad16 by done.
  f_equal.
  all: match goal with
       | |- bytes_int ?e (take ?n ?x) = ?v =>
           transitivity (bytes_int e (int_bytes e n v));
             [reflexivity | apply bytes_int_int_bytes; simpl; lia]
       end.
Qed.

(** ** The response to an all-light-status request *)

Lemma drop_concat_uniform {A} (n i : nat) (ls : list (list A)) :
  Forall (λ l, length l = n) ls → drop (i * n) (concat ls) = concat (drop i ls).
Proof.
  intros H. revert i. induction H as [|l ls Hl _ IH]; intros i.
  - rewrite (drop_nil i). cbn [concat]. apply drop_nil.
  - destruct i as [|i]; [done |]. cbn [concat drop Nat.mul].
    rewrite <- drop_drop, drop_app_length' by done. apply IH.
Qed.

Lemma length_concat_uniform {A} (n : nat) (ls : list (list A)) :
  Forall (λ l, length l = n) ls → length (concat ls) = (length ls * n)%nat.
Proof.
  induction 1 as [|l ls Hl _ IH]; [done |].
  cbn [concat length Nat.mul]. rewrite length_app. lia.
Qed.

Lemma length_status_response head entries :
  length head = 7%nat → Forall (λ p, length p = 50%nat) entries →
  length (status_response head entries) = (9 + length entries * 50)%nat.
Proof.
  intros Hh He. unfold status_response.
  rewrite !length_app, length_int_bytes, (length_concat_uniform 50), Hh by done.
  lia.
Qed.

Lemma status_response_count head entries :
  length head = 7%nat →
  slice 7 9 (status_response head entries) =
    int_bytes LE 2 (Z.of_nat (length entries)).
Proof.
  intros Hh. unfold slice, status_response.
  rewrite drop_app_length' by done.
  by rewrite take_app_length' by by rewrite length_int_bytes.
Qed.

Lemma status_response_entry head entries i p :
  length head = 7%nat → Forall (λ p, length p = 50%nat) entries →
  entries !! i = Some p →
  entry (status_response head entries) i = p.
Proof.
  intros Hh He Hi. unfold entry, slice, status_response.
  replace (9 + i * 50 + 50 - (9 + i * 50))%nat with 50%nat by lia.
  rewrite app_assoc, <- drop_drop.
  rewrite drop_app_length' by (rewrite length_app, length_int_bytes; lia).
  rewrite (drop_concat_uniform 50) by done.
  rewrite (drop_S _ _ _ Hi). cbn [concat].
  apply take_app_length'. symmetry.
  exact (Forall_lookup_1 (λ p : bytes, length p = 50%nat) entries i p He Hi).
Qed.

(** ** The loop over the entries *)

Section entries.
Context (data : bytes) (old_lights : gmap Z loc) (n0 : nat).
Context (Hold : ∀ a l, old_lights !! a = Some l → (l < n0)%nat).

(** The loop returns on entries of full length; a light made by an
    earlier pass stays in the new registry, as it is, unless a later
    entry has its address. *)
Lemma entries_run (js : list nat) new_lights c :
  (∀ j, j ∈ js → length (entry data j) = 50%nat) →
  (n0 ≤ length (store c))%nat →
  ∃ new_lights' c',
    for_each js (light_status_entry data old_lights) new_lights c
      = (Ret new_lights', c') ∧
    (length (store c) ≤ length (store c'))%nat ∧
    ∀ a l o,
      new_lights !! a = Some l → (n0 ≤ l)%nat → store c !! l = Some o →
      (∀ j, j ∈ js → Light_addr (decode_entry (entry data j)) ≠ a) →
      new_lights' !! a = Some l ∧ store c' !! l = Some o.
Proof.
  revert new_lights c.
  induction js as [|j js IH]; intros new_lights c Hlen Hn0.
  { exists new_lights, c. by split_and!. }
  cbn [for_each]. rewrite bind_run.
  rewrite light_status_entry_run by (apply Hlen; left).
  set (d := decode_entry (entry data j)).
  assert (Hjs : ∀ j', j' ∈ js → length (entry data j') = 50%nat).
  { intros j' Hj'. apply Hlen. by right. }
  destruct (old_lights !! Light_addr d) as [l'|] eqn:Eold.
  - pose proof (Hold _ _ Eold) as Hl'.
    destruct (lookup_lt_is_Some_2 (store c) l') as [o' Ho']; [lia |].
    rewrite Ho'.
    destruct (IH (<[Light_addr d := l']> new_lights)
                 (with_store (<[l' := refresh d o']> (store c)) c) Hjs)
      as (new' & c' & Hrun & Hle & Hkeep).
    { rewrite store_with_store, length_insert. done. }
    exists new', c'. split_and!; [done | |].
    { rewrite store_with_store, length_insert in Hle. done. }
    intros a l o Ha Hl Ho Hne. apply Hkeep; [| done | |].
    + rewrite lookup_insert_ne; [done |]. apply Hne. left.
    + rewrite store_with_store, list_lookup_insert_ne by lia. done.
    + intros j' Hj'. apply Hne. by right.
  - destruct (IH (<[Light_addr d := length (store c)]> new_lights)
                 (with_store (store c ++ [d]) c) Hjs)
      as (new' & c' & Hrun & Hle & Hkeep).
    { rewrite store_with_store, length_app. lia. }
    exists new', c'. split_and!; [done | |].
    { rewrite store_with_store, length_app in Hle. lia. }
    intros a l o Ha Hl Ho Hne. apply Hkeep; [| done | |].
    + rewrite lookup_insert_ne; [done |]. apply Hne. left.
    + rewrite store_with_store. by apply lookup_app_l_Some.
    + intros j' Hj'. apply Hne. by right.
Qed.

(** The pass over an entry whose address the old registry does not
    have makes the light the entry describes. *)
Lemma entry_new_light j new_lights c :
  length (entry data j) = 50%nat →
  old_lights !! Light_addr (decode_entry (entry data j)) = None →
  light_status_entry data old_lights j new_lights c =
    (Ret (<[Light_addr (decode_entry (entry data j)) := length (store c)]> new_lights),
     with_store (store c ++ [decode_entry (entry data j)]) c).
Proof.
  intros Hlen Hnew. rewrite light_status_entry_run by done. cbv zeta.
  by rewrite Hnew.
Qed.
End entries.

(** ** A full poll *)

Lemma build_all_light_status_run c :
  0 ≤ Lightify_seq c + 1 < 256 →
  ∃ frame, build_all_light_status 1 c =
             (Ret frame, with_seq (Lightify_seq c + 1) c).
Proof.
  intros Hseq. unfold build_all_light_status.
  change (struct_call (pack LE [B] [1])) with (ret (A:=bytes) [x01]).
  rewrite bind_run. cbn [ret]. rewrite build_global_command_run. cbv zeta.
  rewrite frame_head_Some by (done || simpl; lia). by eexists.
Qed.

Lemma send_run data c n :
  sendable (Lightify_sock c) = S n →
  send data c =
    (Ret tt, with_sock (mkSocket (inbox (Lightify_sock c))
                          (outbox (Lightify_sock c) ++ [data]) n) c).
Proof. intros H. unfold send, sock_sendall. by rewrite H. Qed.

Lemma range_of_nat n : range (Z.of_nat n) = seq 0 n.
Proof. unfold range. by rewrite Nat2Z.id. Qed.

Lemma seq_split_at i n :
  (i < n)%nat → seq 0 n = seq 0 i ++ i :: seq (S i) (n - S i).
Proof.
  intros H. replace n with (i + S (n - S i))%nat at 1 by lia.
  by rewrite seq_app.
Qed.

(** A light that the registry does not know yet: let a response of
    full-length entries arrive in one read, one of its entries being the
    50-byte record of the attributes [o], and let no later entry be for
    the same address. Then [update_all_light_status] returns, and the
    registry has under that address a light with exactly the attributes
    [o]. *)
Lemma poll_new_light c head entries i o reserved rest :
  length head = 7%nat →
  Forall (λ p, length p = 50%nat) entries →
  Z.of_nat (length (status_response head entries)) < 65536 →
  entries !! i = Some (status_record o reserved) →
  reportable o → length reserved = 8%nat →
  (∀ j p, (i < j)%nat → entries !! j = Some p →
          Light_addr (decode_entry p) ≠ Light_addr o) →
  Lightify_lights c !! Light_addr o = None →
  (∀ a l, Lightify_lights c !! a = Some l → is_Some (store c !! l)) →
  0 ≤ Lightify_seq c + 1 < 256 →
  sendable (Lightify_sock c) ≠ 0%nat →
  inbox (Lightify_sock c) =
    RxData (length_prefix (length (status_response head entries)))
    :: RxData (status_response head entries) :: rest →
  ∃ c' l,
    update_all_light_status c = (Ret tt, c') ∧
    Lightify_lights c' !! Light_addr o = Some l ∧
    store c' !! l = Some o.
Proof.
  intros Hhead Hentries Hsize Hi Ho Hres Hlater Hnew Hrefs Hseq Hsend Hin.
  set (data := status_response head entries) in *.
  assert (Hdata : length data = (9 + length entries * 50)%nat)
    by by apply length_status_response.
  assert (Hentry : ∀ j p, entries !! j = Some p → entry data j = p).
  { intros j p. by apply status_response_entry. }
  assert (Hfull : ∀ j, (j < length entries)%nat → length (entry data j) = 50%nat).
  { intros j [p Hp]%lookup_lt_is_Some_2. rewrite (Hentry _ _ Hp).
    exact (Forall_lookup_1 (λ p : bytes, length p = 50%nat) _ _ _ Hentries Hp). }
  pose proof (lookup_lt_Some _ _ _ Hi) as Hlt.
  unfold update_all_light_status.
  (* the request goes out, the response comes in *)
  destruct (build_all_light_status_run c Hseq) as [frame Hbuild].
  rewrite (bind_returned _ _ _ _ _ Hbuild).
  destruct (sendable (Lightify_sock c)) as [|n] eqn:Hn; [done |].
  rewrite (bind_returned _ _ _ _ _ (send_run frame (with_seq _ c) n Hn)).
  erewrite bind_returned; cycle 1.
  { apply (recv_one_read _ data rest); [exact Hin | | done].
    intros E. rewrite E in Hdata. done. }
  rewrite (status_response_count head entries Hhead : slice 7 9 data = _).
  rewrite unpack_H by (rewrite Hdata in Hsize; lia).
  cbn [struct_call]. rewrite bind_run. cbn [ret].
  rewrite (bind_returned get _ _ _ _ eq_refl).
  cbn [Lightify_lights with_inbox with_sock with_seq].
  match goal with |- context [bind _ _ ?c0] => set (c3 := c0) end.
  (* the loop: the entries before, the entry of the light, the entries after *)
  rewrite range_of_nat, (seq_split_at i) by done.
  set (old := Lightify_lights c).
  assert (Hold : ∀ a l, old !! a = Some l → (l < length (store c))%nat).
  { intros a l Hl. apply lookup_lt_is_Some. by eapply Hrefs. }
  destruct (entries_run data old (length (store c)) Hold (seq 0 i) ∅ c3)
    as (new1 & c4 & Hrun1 & Hle1 & _).
  { intros j Hj%elem_of_seq. apply Hfull. lia. }
  { done. }
  pose proof (entry_new_light data old i new1 c4) as Hrun2.
  rewrite (Hentry _ _ Hi), decode_status_record in Hrun2 by done.
  specialize (Hrun2 (length_status_record _ _ (reportable_name_length _ Ho) Hres) Hnew).
  destruct (entries_run data old (length (store c)) Hold
              (seq (S i) (length entries - S i))
              (<[Light_addr o := length (store c4)]> new1)
              (with_store (store c4 ++ [o]) c4))
    as (new3 & c5 & Hrun3 & Hle3 & Hkeep).
  { intros j Hj%elem_of_seq. apply Hfull. lia. }
  { rewrite store_with_store, length_app. change (store c3) with (store c) in Hle1. lia. }
  destruct (Hkeep (Light_addr o) (length (store c4)) o) as [Hreg Hobj].
  { apply lookup_insert_eq. }
  { done. }
  { rewrite store_with_store. by apply list_lookup_middle. }
  { intros j Hj%elem_of_seq.
    destruct (lookup_lt_is_Some_2 entries j) as [p Hp]; [lia |].
    rewrite (Hentry _ _ Hp). apply (Hlater j p); [lia | done]. }
  exists (with_lights new3 c5), (length (store c4)). split_and!; [| done | done].
  rewrite bind_run, for_each_app, bind_run, Hrun1. cbn [for_each].
  by rewrite bind_run, Hrun2, Hrun3.
Qed.

Example bulb_record :
  status_record bulb no_reserved =
    [x01; x00;
     x11; x00; xff; xee; xdd; xcc; xbb; xaa;
     x02;
     x01; x02; x03; x04;
     x01;
     x03; x00;
     x01;
     x80;
     x8c; x0a;
     xff; xc8; x96; xff;
     x54; x65; x73; x74; x00; x00; x00; x00; x00; x00; x00; x00; x00; x00; x00; x00;
     x00; x00; x00; x00; x00; x00; x00; x00].
Proof. reflexivity. Qed.

Lemma reportable_bulb : reportable bulb.
Proof.
  split; try (simpl; lia); try done.
  intros H. repeat (apply elem_of_cons in H as [H|H]; [done |]).
  by apply elem_of_nil in H.
Defined.

Example bulb_poll :
  (update_all_light_status fresh_session).1 = Ret tt ∧
  store (update_all_light_status fresh_session).2 = [bulb].
Proof. split; vm_compute; reflexivity. Qed.


(** ** Commands that go through *)

Lemma wire_part_unfold self m c :
  wire_part self m c =
    (data <- struct_call (payload m) ;;
     frame <- build_light_command (command_code m) self data ;;
     send frame ;;;
     _ <- recv ;; ret tt) c.
Proof.
  destruct m; simpl;
    unfold Luminary_set_onoff, Luminary_set_luminance,
      Luminary_set_temperature, Luminary_set_rgb,
      build_onoff, build_luminance, build_temp, build_colour;
    rewrite !bind_run; cbn [item_build_command];
    by destruct (struct_call _ c) as [[?|?|] ?].
Qed.

Lemma pack_in_range o fmt vals :
  Forall2 (λ c v, (∀ n, c ≠ s n) ∧ 0 ≤ v < 256 ^ Z.of_nat (size c)) fmt vals →
  ∃ bs, pack o fmt vals = Some bs ∧ length bs = calcsize fmt.
Proof.
  induction 1 as [|c v fmt vals [Hc Hv] _ (bs & Hbs & Hlen)].
  - by exists [].
  - cbn [pack]. rewrite pack1_in_range, Hbs by done.
    eexists. split; [done |].
    rewrite length_app, length_int_bytes. simpl. by rewrite Hlen.
Qed.

Lemma payload_packable m :
  packable m → ∃ data, payload m = Some data ∧ (length data ≤ 6)%nat.
Proof.
  intros Hm.
  destruct m; cbn [packable payload] in *; destruct_and?;
    (edestruct pack_in_range as (bs & -> & Hlen);
     [ repeat (constructor; [split; [done | simpl; lia] |]); constructor
     | eexists; split; [done | rewrite Hlen; simpl; lia] ]).
Qed.

Lemma build_light_command_run command self data c o :
  store c !! self = Some o →
  0 ≤ Light_addr o < 2 ^ 64 → 0 ≤ command < 256 →
  0 ≤ Lightify_seq c + 1 < 256 → 14 + Z.of_nat (length data) < 65536 →
  ∃ frame, build_light_command command self data c =
             (Ret frame, with_seq (Lightify_seq c + 1) c).
Proof.
  intros Ho Haddr Hcmd Hseq Hlen. unfold build_light_command.
  rewrite (bind_returned _ _ _ _ _ (read_run _ _ _ Ho)).
  destruct (pack_in_range LE [Q] [Light_addr o]) as (target & -> & _).
  { constructor; [split; [done | simpl; lia] | constructor]. }
  cbn [struct_call]. rewrite bind_run. cbn [ret].
  rewrite build_basic_command_run. cbv zeta.
  rewrite frame_head_Some by lia. by eexists.
Qed.

(** A command to a light goes through when its arguments fit the payload,
    the counter has not run out, the connection takes the frame and an
    acknowledgement arrives in one read. *)
Lemma call_completes self m c o body rest :
  store c !! self = Some o →
  0 ≤ Light_addr o < 2 ^ 64 →
  packable m →
  0 ≤ Lightify_seq c + 1 < 256 →
  sendable (Lightify_sock c) ≠ 0%nat →
  inbox (Lightify_sock c) =
    RxData (length_prefix (length body)) :: RxData body :: rest →
  body ≠ [] → Z.of_nat (length body) < 65536 →
  ∃ c', call self m c = (Ret tt, c') ∧
        store c' !! self = Some (after m o) ∧
        inbox (Lightify_sock c') = rest ∧
        Lightify_seq c' = Lightify_seq c + 1 ∧
        S (sendable (Lightify_sock c')) = sendable (Lightify_sock c).
Proof.
  intros Ho Haddr Hm Hseq Hsend Hin Hne Hlen.
  rewrite (call_run _ _ _ _ Ho). cbv zeta.
  set (c1 := with_store _ c).
  assert (Ho1 : store c1 !! self = Some (first_write m o)).
  { apply store_written. by rewrite Ho. }
  assert (Haddr1 : Light_addr (first_write m o) = Light_addr o) by by destruct m.
  rewrite wire_part_unfold.
  destruct (payload_packable m Hm) as (data & -> & Hdata).
  cbn [struct_call]. rewrite bind_run. cbn [ret].
  destruct (build_light_command_run (command_code m) self data c1
              (first_write m o) Ho1) as [frame Hframe];
    [by rewrite Haddr1 | by destruct m | done | lia |].
  rewrite (bind_returned _ _ _ _ _ Hframe).
  destruct (sendable (Lightify_sock c)) as [|n] eqn:Hn; [done |].
  erewrite bind_returned; cycle 1.
  { by apply (send_run _ (with_seq _ c1) n). }
  erewrite bind_returned; cycle 1.
  { by apply (recv_one_read _ body rest). }
  cbn [ret]. eexists. split; [done |]. split_and!; [| done | done | done].
  rewrite store_with_store. by apply store_written.
Qed.

Lemma after_addr m o : Light_addr (after m o) = Light_addr o.
Proof. destruct m; simpl; repeat case_decide; done. Qed.

Lemma calls_cons self m ms c :
  calls self (m :: ms) c =
    match call self m c with
    | (Ret _, c1) => calls self ms c1
    | (Raise e, c1) => (Raise e, c1)
    | (Hang, c1) => (Hang, c1)
    end.
Proof.
  unfold calls. cbn [for_each]. rewrite bind_run.
  by destruct (call self m c) as [[[]|e|] c1].
Qed.

(** In a cooperative session every call of the sequence returns. *)
Lemma calls_complete self ms c :
  cooperative self ms c → ∃ c', calls self ms c = (Ret tt, c').
Proof.
  revert c. induction ms as [|m ms IH]; intros c; [by eexists |].
  intros (o & bodies & rest & Ho & Haddr & Hms & Hseq0 & Hseq & Hsend & Hlen
            & Hbodies & Hin).
  destruct bodies as [|body bodies]; [done |].
  apply Forall_cons in Hms as [Hm Hms].
  apply Forall_cons in Hbodies as [[Hne Hshort] Hbodies].
  cbn [length] in *. cbn [deliveries] in Hin.
  destruct (call_completes self m c o body (deliveries bodies rest))
    as (c1 & Hcall & Ho1 & Hin1 & Hseq1 & Hsend1); try done; [lia | lia |].
  rewrite calls_cons, Hcall. apply IH.
  exists (after m o), bodies, rest.
  rewrite after_addr. split_and!; try done; lia.
Qed.

(** ** On/off and luminance, call after call *)

Lemma cooperative_alive self ms c : cooperative self ms c → is_Some (store c !! self).
Proof. intros (o & _ & _ & Ho & _). by exists o. Qed.

(** C6, as amended: after every non-empty sequence of [set_onoff] and
    [set_luminance] calls, luminance 0 implies off: in a session where the
    calls go through they all return and leave the light so, and in any
    session they leave it so if they return. A [set_luminance] that
    returned has stored the luminance; above 0 it leaves the light on (on
    = 1 if it was off), at 0 it leaves the light off. A [set_onoff] that
    returned has stored the flag; switching on a light of luminance 0 sets
    the luminance to 1, switching off leaves the luminance as it was. *)
Theorem C6_dark_is_off :
  (∀ c self ms,
     ms ≠ [] → Forall couples ms → cooperative self ms c →
     ∃ c' o', calls self ms c = (Ret tt, c') ∧
              store c' !! self = Some o' ∧ dark_is_off o') ∧
  (∀ c self ms c',
     is_Some (store c !! self) → ms ≠ [] → Forall couples ms →
     calls self ms c = (Ret tt, c') →
     ∃ o', store c' !! self = Some o' ∧ dark_is_off o') ∧
  (∀ c self o m c',
     store c !! self = Some o → call self m c = (Ret tt, c') →
     ∃ o', store c' !! self = Some o' ∧ coupling_effect m o o').
Proof.
  assert (Hret : ∀ c self ms c',
     is_Some (store c !! self) → ms ≠ [] → Forall couples ms →
     calls self ms c = (Ret tt, c') →
     ∃ o', store c' !! self = Some o' ∧ dark_is_off o').
  { intros c self ms c' Hs Hne Hms.
    destruct ms as [|m ms _] using rev_ind; [done |].
    apply Forall_app in Hms as [_ Hm%Forall_inv].
    rewrite calls_snoc.
    destruct (calls self ms c) as [[[]|e|] c1] eqn:E; [| done | done].
    destruct (calls_alive _ _ _ _ Hs E) as [o Ho]. intros Hc.
    exists (after m o). split; [by eapply call_returns |].
    by apply after_dark_is_off. }
  split_and!; [| exact Hret |].
  - intros c self ms Hne Hms Hco.
    destruct (calls_complete _ _ _ Hco) as [c' Hc'].
    destruct (Hret c self ms c') as (o' & ? & ?);
      eauto using cooperative_alive.
  - intros c self o m c' Ho Hc. exists (after m o).
    split; [by eapply call_returns | apply after_coupling_effect].
Qed.

Lemma cooperative_lamp :
  cooperative 0 [SetLuminance 0 0; SetOnOff 1] (session lamp (ack ++ ack) 2).
Proof.
  exists lamp, [[x00]; [x00]], [].
  split_and!; try done; try (simpl; lia).
  - repeat constructor; simpl; lia.
  - repeat constructor; try done; simpl; lia.
Defined.

(** C6, as amended, on a lamp: luminance 0 and then on; off. *)
Lemma C6_dark_is_off_witness :
  (∃ c' o',
     calls 0 [SetLuminance 0 0; SetOnOff 1] (session lamp (ack ++ ack) 2)
       = (Ret tt, c') ∧
     store c' !! 0%nat = Some o' ∧ dark_is_off o') ∧
  (∃ o', store (calls 0 [SetLuminance 0 0; SetOnOff 1]
                  (session lamp (ack ++ ack) 2)).2 !! 0%nat
         = Some o' ∧ dark_is_off o') ∧
  (∃ o', store (call 0 (SetOnOff 0) (session lamp ack 1)).2 !! 0%nat = Some o' ∧
         coupling_effect (SetOnOff 0) lamp o').
Proof.
  split_and!.
  - apply (proj1 C6_dark_is_off (session lamp (ack ++ ack) 2) 0%nat
             [SetLuminance 0 0; SetOnOff 1]).
    + done.
    + repeat constructor.
    + exact cooperative_lamp.
  - apply (proj1 (proj2 C6_dark_is_off) (session lamp (ack ++ ack) 2) 0%nat
             [SetLuminance 0 0; SetOnOff 1]).
    + by eexists.
    + done.
    + repeat constructor.
    + vm_compute. reflexivity.
  - apply (proj2 (proj2 C6_dark_is_off) (session lamp ack 1) 0%nat lamp
             (SetOnOff 0)).
    + reflexivity.
    + vm_compute. reflexivity.
Defined.

(** C6 as it stands fails: a lamp at luminance 128 that is switched off
    keeps luminance 128, so it is off without its luminance being 0. *)
Lemma C6_counterexample :
  (calls 0 [SetOnOff 0] (session lamp ack 1)).1 = Ret tt ∧
  store (calls 0 [SetOnOff 0] (session lamp ack 1)).2 !! 0%nat = Some (set_on 0 lamp) ∧
  ¬ coupled (set_on 0 lamp).
Proof.
  split_and!; [by vm_compute | by vm_compute |].
  unfold coupled. simpl. intros [_ H]. by specialize (H eq_refl).
Qed.

(** C7: [set_luminance(0)] and then [set_onoff(1)] leave the light with
    luminance 1 and on, and [set_luminance(50)] on a light that was off
    leaves it on: in a session where the calls go through they return and
    leave the light so, and in any session they leave it so if they
    return. *)
Theorem C7_snap_and_force :
  (∀ c self time,
     cooperative self [SetLuminance 0 time; SetOnOff 1] c →
     ∃ c1 c2 o,
       Light_set_luminance self 0 time c = (Ret tt, c1) ∧
       Light_set_onoff self 1 c1 = (Ret tt, c2) ∧
       store c2 !! self = Some o ∧ Light_lum o = 1 ∧ Light_on o = 1) ∧
  (∀ c self o time,
     cooperative self [SetLuminance 50 time] c →
     store c !! self = Some o → Light_on o = 0 →
     ∃ c' o', Light_set_luminance self 50 time c = (Ret tt, c') ∧
              store c' !! self = Some o' ∧ Light_on o' = 1) ∧
  (∀ c self time c1 c2,
     is_Some (store c !! self) →
     Light_set_luminance self 0 time c = (Ret tt, c1) →
     Light_set_onoff self 1 c1 = (Ret tt, c2) →
     ∃ o, store c2 !! self = Some o ∧ Light_lum o = 1 ∧ Light_on o = 1) ∧
  (∀ c self o time c',
     store c !! self = Some o → Light_on o = 0 →
     Light_set_luminance self 50 time c = (Ret tt, c') →
     ∃ o', store c' !! self = Some o' ∧ Light_on o' = 1).
Proof.
  assert (Hsnap : ∀ c self time c1 c2,
     is_Some (store c !! self) →
     Light_set_luminance self 0 time c = (Ret tt, c1) →
     Light_set_onoff self 1 c1 = (Ret tt, c2) →
     ∃ o, store c2 !! self = Some o ∧ Light_lum o = 1 ∧ Light_on o = 1).
  { intros c self time c1 c2 [o Ho] H1 H2.
    pose proof (call_returns self (SetLuminance 0 time) _ _ _ Ho H1) as Ho1.
    pose proof (call_returns self (SetOnOff 1) _ _ _ Ho1 H2) as Ho2.
    eexists. split; [exact Ho2 |].
    simpl. repeat case_decide; simpl in *; try lia; tauto. }
  assert (Hforce : ∀ c self o time c',
     store c !! self = Some o → Light_on o = 0 →
     Light_set_luminance self 50 time c = (Ret tt, c') →
     ∃ o', store c' !! self = Some o' ∧ Light_on o' = 1).
  { intros c self o time c' Ho Hoff H.
    pose proof (call_returns self (SetLuminance 50 time) _ _ _ Ho H) as Ho'.
    eexists. split; [exact Ho' |].
    simpl. repeat case_decide; simpl in *; try lia. }
  split_and!; [| | exact Hsnap | exact Hforce].
  - intros c self time Hco.
    destruct (calls_complete _ _ _ Hco) as [c2 Hc2].
    rewrite calls_cons in Hc2. cbn [call] in Hc2.
    destruct (Light_set_luminance self 0 time c) as [[[]|e|] c1] eqn:E1;
      [| done | done].
    rewrite calls_cons in Hc2. cbn [call] in Hc2.
    destruct (Light_set_onoff self 1 c1) as [[[]|e|] c2'] eqn:E2;
      [| done | done].
    destruct (Hsnap c self time c1 c2') as (o & ? & ? & ?);
      eauto using cooperative_alive.
    exists c1, c2', o. done.
  - intros c self o time Hco Ho Hoff.
    destruct (calls_complete _ _ _ Hco) as [c2 Hc2].
    rewrite calls_cons in Hc2. cbn [call] in Hc2.
    destruct (Light_set_luminance self 50 time c) as [[[]|e|] c1] eqn:E1;
      [| done | done].
    destruct (Hforce c self o time c1) as (o' & ? & ?); eauto.
Qed.

Lemma cooperative_dark_lamp :
  cooperative 0 [SetLuminance 50 0] (session (set_on 0 lamp) ack 1).
Proof.
  exists (set_on 0 lamp), [[x00]], [].
  split_and!; try done; try (simpl; lia).
  - repeat constructor; simpl; lia.
  - repeat constructor; try done; simpl; lia.
Defined.

(** C7 on a lamp whose gateway acknowledges each command. *)
Lemma C7_snap_and_force_witness :
  (∃ c1 c2 o,
     Light_set_luminance 0 0 0 (session lamp (ack ++ ack) 2) = (Ret tt, c1) ∧
     Light_set_onoff 0 1 c1 = (Ret tt, c2) ∧
     store c2 !! 0%nat = Some o ∧ Light_lum o = 1 ∧ Light_on o = 1) ∧
  (∃ c' o',
     Light_set_luminance 0 50 0 (session (set_on 0 lamp) ack 1) = (Ret tt, c') ∧
     store c' !! 0%nat = Some o' ∧ Light_on o' = 1).
Proof.
  split.
  - apply (proj1 C7_snap_and_force (session lamp (ack ++ ack) 2) 0%nat 0).
    exact cooperative_lamp.
  - apply (proj1 (proj2 C7_snap_and_force) (session (set_on 0 lamp) ack 1)
             0%nat (set_on 0 lamp) 0).
    + exact cooperative_dark_lamp.
    + reflexivity.
    + reflexivity.
Defined.

(** ** A light that is polled again *)

(** A later poll reports the lamp under another id and another name: the
    object in the registry keeps the id and the name [name()] returns, and
    takes the reported name in the attribute [update_status] writes. *)
Example repoll_keeps_identity :
  let renamed :=
    mkLight [x4c; x61; x6d; x70] 9 (Light_addr lamp) 2 0x01020304 1 3 1 128
      2700 255 200 150 255 [x4c; x61; x6d; x70] in
  let data := status_response some_head [status_record renamed no_reserved] in
  let c := session lamp [RxData (length_prefix (length data)); RxData data] 1 in
  (update_all_light_status c).1 = Ret tt ∧
  registered (update_all_light_status c).2 (Light_addr lamp)
    = Some (refresh renamed lamp) ∧
  Light_id (refresh renamed lamp) = 1 ∧
  Luminary_name (refresh renamed lamp) = name_Test ∧
  Light_name (refresh renamed lamp) = [x4c; x61; x6d; x70].
Proof. cbv zeta. split_and!; by vm_compute. Qed.

(** * Further properties of the code *)

(** ** Packing and unpacking *)

Lemma pack_Some_cons o c fmt v vals bs :
  pack o (c :: fmt) (v :: vals) = Some bs →
  ∃ r, bs = int_bytes o (size c) v ++ r ∧
       0 ≤ v < 256 ^ Z.of_nat (size c) ∧ (∀ n, c ≠ s n) ∧
       pack o fmt vals = Some r.
Proof.
  rewrite pack_cons.
  destruct (pack1 o c v) as [b|] eqn:E1; [| done].
  destruct (pack o fmt vals) as [r|] eqn:E2; [| done]. intros [= <-].
  assert (Hc : ∀ n, c ≠ s n) by (intros n ->; done).
  apply pack1_Some in E1 as [? ->]. by exists r.
Qed.

(** What was packed is what unpacking gives back. *)
Lemma pack_unpack o fmt vals bs :
  pack o fmt vals = Some bs → unpack o fmt bs = Some (Int <$> vals).
Proof.
  intros Hp. rewrite unpack_sized by by eapply pack_length. f_equal.
  revert vals bs Hp.
  induction fmt as [|c fmt IH]; intros [|v vals] bs; try done.
  intros (r & -> & Hv & Hc & Hr)%pack_Some_cons.
    cbn [fields fmap list_fmap].
    rewrite take_app_length', drop_app_length' by by rewrite length_int_bytes.
    rewrite (IH _ _ Hr). f_equal.
    destruct c; cbn [unpack1]; try (by rewrite bytes_int_int_bytes).
    by destruct (Hc n).
Qed.

Lemma unpack_prefix o fmt bs rest vals :
  pack o fmt vals = Some bs →
  unpack o fmt (take (calcsize fmt) (bs ++ rest)) = Some (Int <$> vals).
Proof.
  intros Hp. rewrite take_app_length' by by erewrite pack_length.
  by apply pack_unpack.
Qed.

(** ** The layout of the frames *)

Lemma frame_head_length length_ flag command sq head :
  frame_head length_ flag command sq = Some head → length head = 8%nat.
Proof. intros H. by apply frame_head_byte in H as (? & _). Qed.

(** Whatever frame [build_global_command] returns decodes to its fields. *)
Lemma global_frame_fields command data c frame c' :
  build_global_command command data c = (Ret frame, c') →
  unpack LE [H; B; B; B; B; B; B] (take 8 frame) =
    Some [Int (6 + Z.of_nat (length data)); Int 0x02; Int command;
          Int 0; Int 0; Int 0x7; Int (Lightify_seq c + 1)] ∧
  drop 8 frame = data ∧
  bytes_int LE (take 2 frame) = Z.of_nat (length frame) - 2 ∧
  c' = with_seq (Lightify_seq c + 1) c.
Proof.
  rewrite build_global_command_run. cbv zeta.
  destruct (frame_head _ _ _ _) as [head|] eqn:E; [| done]. intros [= <- <-].
  pose proof (frame_head_length _ _ _ _ _ E) as Hlen.
  split_and!; [| by rewrite drop_app_length' | | done].
  - exact (unpack_prefix LE [H; B; B; B; B; B; B] head data _ E).
  - unfold frame_head in E.
    apply pack_Some_cons in E as (r & -> & Hv & _ & _).
    rewrite <- app_assoc, take_app_length' by by rewrite length_int_bytes.
    rewrite bytes_int_int_bytes by done.
    rewrite length_app, length_int_bytes in Hlen.
    rewrite !length_app, length_int_bytes. lia.
Qed.

(** X1: for a command code, a counter and a payload length in range,
    [build_global_command] returns a frame and advances the counter by one;
    the first eight bytes of the frame unpack with ["<H6B"] to the length
    of what follows the length field, the flag 0x02, the command, 0, 0, 7
    and the new counter; the payload follows them unchanged. *)
Theorem global_frame_layout command data c :
  0 ≤ command < 256 → 0 ≤ Lightify_seq c + 1 < 256 →
  6 + Z.of_nat (length data) < 65536 →
  ∃ frame,
    build_global_command command data c
      = (Ret frame, with_seq (Lightify_seq c + 1) c) ∧
    unpack LE [H; B; B; B; B; B; B] (take 8 frame) =
      Some [Int (6 + Z.of_nat (length data)); Int 0x02; Int command;
            Int 0; Int 0; Int 0x7; Int (Lightify_seq c + 1)] ∧
    drop 8 frame = data ∧
    bytes_int LE (take 2 frame) = Z.of_nat (length frame) - 2.
Proof.
  intros Hcmd Hseq Hlen.
  assert (∃ frame, build_global_command command data c
                   = (Ret frame, with_seq (Lightify_seq c + 1) c))
    as [frame Hrun].
  { rewrite build_global_command_run. cbv zeta.
    rewrite frame_head_Some by (done || lia). by eexists. }
  exists frame. split; [done |].
  by destruct (global_frame_fields _ _ _ _ _ Hrun) as (? & ? & ? & _).
Qed.

(** X1 on the group-list request of a session whose counter stands at 1. *)
Lemma global_frame_layout_witness :
  ∃ frame,
    build_global_command COMMAND_GROUP_LIST [] idle
      = (Ret frame, with_seq (Lightify_seq idle + 1) idle) ∧
    unpack LE [H; B; B; B; B; B; B] (take 8 frame) =
      Some [Int (6 + Z.of_nat (length ([] : bytes))); Int 0x02;
            Int COMMAND_GROUP_LIST; Int 0; Int 0; Int 0x7;
            Int (Lightify_seq idle + 1)] ∧
    drop 8 frame = [] ∧
    bytes_int LE (take 2 frame) = Z.of_nat (length frame) - 2.
Proof.
  apply (global_frame_layout COMMAND_GROUP_LIST [] idle);
    unfold COMMAND_GROUP_LIST; simpl; lia.
Defined.

Lemma pack_app o f1 f2 v1 v2 b1 b2 :
  pack o f1 v1 = Some b1 → pack o f2 v2 = Some b2 →
  pack o (f1 ++ f2) (v1 ++ v2) = Some (b1 ++ b2).
Proof.
  revert v1 b1. induction f1 as [|c f1 IH]; intros [|v v1] b1; try done.
  - by intros [= <-].
  - intros (r & -> & Hv & Hc & Hr)%pack_Some_cons H2.
    cbn [app]. rewrite pack_cons, pack1_in_range, (IH _ _ Hr H2) by done.
    by rewrite app_assoc.
Qed.

Lemma frame_head_inv length_ flag command sq head :
  frame_head length_ flag command sq = Some head →
  0 ≤ length_ < 65536 ∧ 0 ≤ flag < 256 ∧ 0 ≤ command < 256 ∧ 0 ≤ sq < 256 ∧
  head = int_bytes LE 2 length_ ++
         [byte_of_Z flag; byte_of_Z command; x00; x00; x07; byte_of_Z sq].
Proof.
  unfold frame_head. intros E.
  repeat match type of E with
         | pack _ (_ :: _) (_ :: _) = Some _ =>
             let r := fresh "r" in
             apply pack_Some_cons in E as (r & -> & ? & _ & E)
         end.
  injection E as <-. simpl in *. split_and!; try lia. done.
Qed.

(** The frame that [build_basic_command] puts together. *)
Lemma basic_frame_inv flag command target data c frame c' :
  build_basic_command flag command target data c = (Ret frame, c') →
  ∃ head,
    frame_head (14 + Z.of_nat (length data)) flag command (Lightify_seq c + 1)
      = Some head ∧
    frame = head ++ target ++ data ∧
    c' = with_seq (Lightify_seq c + 1) c.
Proof.
  rewrite build_basic_command_run. cbv zeta.
  destruct (frame_head _ _ _ _) as [head|] eqn:E; [| done]. intros [= <- <-].
  by exists head.
Qed.

Lemma targeted_frame_fields flag command addr target data sq head :
  frame_head (14 + Z.of_nat (length data)) flag command sq = Some head →
  pack LE [Q] [addr] = Some target →
  let frame := head ++ target ++ data in
  unpack LE [H; B; B; B; B; B; B; Q] (take 16 frame) =
    Some [Int (14 + Z.of_nat (length data)); Int flag; Int command;
          Int 0; Int 0; Int 0x7; Int sq; Int addr] ∧
  drop 16 frame = data ∧
  bytes_int LE (take 2 frame) = Z.of_nat (length frame) - 2.
Proof.
  intros Hh Ht frame.
  pose proof (pack_app LE _ _ _ _ _ _ Hh Ht) as Hp. cbn [app] in Hp.
  pose proof (pack_length _ _ _ _ Hp) as Hlen.
  pose proof (frame_head_length _ _ _ _ _ Hh) as Hlenh.
  subst frame. rewrite app_assoc. split_and!.
  - exact (unpack_prefix LE _ _ data _ Hp).
  - by rewrite drop_app_length'.
  - apply frame_head_inv in Hh as (Hl & _ & _ & _ & ->).
    rewrite <- !app_assoc, take_app_length' by by rewrite length_int_bytes.
    rewrite bytes_int_int_bytes by done.
    rewrite !app_assoc, length_app, Hlen. simpl. lia.
Qed.

(** Whatever frame [build_light_command] returns decodes to its fields. *)
Lemma light_frame_fields command light data c frame c' :
  build_light_command command light data c = (Ret frame, c') →
  ∃ o, store c !! light = Some o ∧
    unpack LE [H; B; B; B; B; B; B; Q] (take 16 frame) =
      Some [Int (14 + Z.of_nat (length data)); Int 0x00; Int command;
            Int 0; Int 0; Int 0x7; Int (Lightify_seq c + 1);
            Int (Light_addr o)] ∧
    drop 16 frame = data ∧
    bytes_int LE (take 2 frame) = Z.of_nat (length frame) - 2 ∧
    c' = with_seq (Lightify_seq c + 1) c.
Proof.
  unfold build_light_command. rewrite bind_run. unfold read.
  destruct (store c !! light) as [o|] eqn:Ho; [| done].
  rewrite bind_run.
  destruct (pack LE [Q] [Light_addr o]) as [target|] eqn:Et; [| done].
  cbn [struct_call ret].
  intros (head & Hh & -> & ->)%basic_frame_inv.
  exists o. split; [done |].
  destruct (targeted_frame_fields _ _ _ _ _ _ _ Hh Et) as (? & ? & ?).
  done.
Qed.

(** X2: for a light whose address fits eight bytes, and a command code, a
    counter and a payload length in range, [build_light_command] returns a
    frame and advances the counter by one; the first sixteen bytes of the
    frame unpack with ["<H6BQ"] to the length of what follows the length
    field, the flag 0x00, the command, 0, 0, 7, the new counter and the
    address of the light; the payload follows them unchanged. *)
Theorem light_frame_layout command light data c o :
  store c !! light = Some o → 0 ≤ Light_addr o < 2 ^ 64 →
  0 ≤ command < 256 → 0 ≤ Lightify_seq c + 1 < 256 →
  14 + Z.of_nat (length data) < 65536 →
  ∃ frame,
    build_light_command command light data c
      = (Ret frame, with_seq (Lightify_seq c + 1) c) ∧
    unpack LE [H; B; B; B; B; B; B; Q] (take 16 frame) =
      Some [Int (14 + Z.of_nat (length data)); Int 0x00; Int command;
            Int 0; Int 0; Int 0x7; Int (Lightify_seq c + 1);
            Int (Light_addr o)] ∧
    drop 16 frame = data ∧
    bytes_int LE (take 2 frame) = Z.of_nat (length frame) - 2.
Proof.
  intros Ho Haddr Hcmd Hseq Hlen.
  destruct (build_light_command_run command light data c o)
    as [frame Hrun]; [done.. |].
  exists frame. split; [done |].
  destruct (light_frame_fields _ _ _ _ _ _ Hrun) as (o' & Ho' & ? & ? & ? & _).
  by simplify_eq.
Qed.

(** X2 on the status request for the lamp. *)
Lemma light_frame_layout_witness :
  ∃ frame,
    build_light_command COMMAND_LIGHT_STATUS 0%nat [] idle
      = (Ret frame, with_seq (Lightify_seq idle + 1) idle) ∧
    unpack LE [H; B; B; B; B; B; B; Q] (take 16 frame) =
      Some [Int (14 + Z.of_nat (length ([] : bytes))); Int 0x00;
            Int COMMAND_LIGHT_STATUS; Int 0; Int 0; Int 0x7;
            Int (Lightify_seq idle + 1); Int (Light_addr lamp)] ∧
    drop 16 frame = [] ∧
    bytes_int LE (take 2 frame) = Z.of_nat (length frame) - 2.
Proof.
  apply (light_frame_layout COMMAND_LIGHT_STATUS 0%nat [] idle lamp);
    [reflexivity | simpl; lia | unfold COMMAND_LIGHT_STATUS; lia
    | simpl; lia | simpl; lia].
Defined.

(** Whatever frame [build_command] returns decodes to its fields. *)
Lemma group_frame_fields command group data c frame c' :
  build_command command group data c = (Ret frame, c') →
  unpack LE [H; B; B; B; B; B; B; Q] (take 16 frame) =
    Some [Int (14 + Z.of_nat (length data)); Int 0x02; Int command;
          Int 0; Int 0; Int 0x7; Int (Lightify_seq c + 1);
          Int (Group_idx group)] ∧
  drop 16 frame = data ∧
  bytes_int LE (take 2 frame) = Z.of_nat (length frame) - 2 ∧
  c' = with_seq (Lightify_seq c + 1) c.
Proof.
  unfold build_command. rewrite bind_run.
  fold (group_target (Group_idx group)).
  destruct (group_target (Group_idx group)) as [target|] eqn:Et; [| done].
  apply group_target_Some in Et as [Hidx ->].
  cbn [struct_call ret].
  intros (head & Hh & -> & ->)%basic_frame_inv.
  assert (Et : pack LE [Q] [Group_idx group]
               = Some (byte_of_Z (Group_idx group) :: replicate 7 x00)).
  { rewrite pack_cons, pack1_in_range by (done || simpl; lia).
    cbn [pack size]. by rewrite int_bytes_byte, app_nil_r. }
  destruct (targeted_frame_fields _ _ _ _ _ _ _ Hh Et) as (? & ? & ?).
  done.
Qed.

(** X3: for a group whose index fits one byte, and a command code, a
    counter and a payload length in range, [build_command] returns a frame
    and advances the counter by one; the first sixteen bytes of the frame
    unpack with ["<H6BQ"] to the length of what follows the length field,
    the flag 0x02, the command, 0, 0, 7, the new counter and the index of
    the group; the payload follows them unchanged. *)
Theorem group_frame_layout command group data c :
  0 ≤ Group_idx group < 256 →
  0 ≤ command < 256 → 0 ≤ Lightify_seq c + 1 < 256 →
  14 + Z.of_nat (length data) < 65536 →
  ∃ frame,
    build_command command group data c
      = (Ret frame, with_seq (Lightify_seq c + 1) c) ∧
    unpack LE [H; B; B; B; B; B; B; Q] (take 16 frame) =
      Some [Int (14 + Z.of_nat (length data)); Int 0x02; Int command;
            Int 0; Int 0; Int 0x7; Int (Lightify_seq c + 1);
            Int (Group_idx group)] ∧
    drop 16 frame = data ∧
    bytes_int LE (take 2 frame) = Z.of_nat (length frame) - 2.
Proof.
  intros Hidx Hcmd Hseq Hlen.
  destruct (build_command_narrow_index command group data c)
    as [frame Hrun]; [done.. |].
  destruct (build_command command group data c) as [r c'] eqn:E.
  cbn [fst] in Hrun. subst r. exists frame.
  destruct (group_frame_fields _ _ _ _ _ _ E) as (? & ? & ? & ->).
  done.
Qed.

(** X3 on the group-info request for group 3. *)
Lemma group_frame_layout_witness :
  ∃ frame,
    build_command COMMAND_GROUP_INFO den [] idle
      = (Ret frame, with_seq (Lightify_seq idle + 1) idle) ∧
    unpack LE [H; B; B; B; B; B; B; Q] (take 16 frame) =
      Some [Int (14 + Z.of_nat (length ([] : bytes))); Int 0x02;
            Int COMMAND_GROUP_INFO; Int 0; Int 0; Int 0x7;
            Int (Lightify_seq idle + 1); Int (Group_idx den)] ∧
    drop 16 frame = [] ∧
    bytes_int LE (take 2 frame) = Z.of_nat (length frame) - 2.
Proof.
  apply (group_frame_layout COMMAND_GROUP_INFO den [] idle);
    [simpl; lia | unfold COMMAND_GROUP_INFO; lia | simpl; lia | simpl; lia].
Defined.

(** ** The payloads of the commands *)

Lemma item_frame_inv item command data c frame c' :
  item_build_command item command data c = (Ret frame, c') →
  ∃ flag head target,
    frame_head (14 + Z.of_nat (length data)) flag command (Lightify_seq c + 1)
      = Some head ∧
    length target = 8%nat ∧
    frame = head ++ target ++ data ∧
    c' = with_seq (Lightify_seq c + 1) c.
Proof.
  destruct item as [l|g]; cbn [item_build_command].
  - unfold build_light_command. rewrite bind_run. unfold read.
    destruct (store c !! l) as [o|]; [| done]. rewrite bind_run.
    destruct (pack LE [Q] [Light_addr o]) as [target|] eqn:Et; [| done].
    cbn [struct_call ret].
    intros (head & Hh & -> & ->)%basic_frame_inv.
    exists 0, head, target. split_and!; try done.
    by apply pack_length in Et.
  - unfold build_command. rewrite bind_run.
    destruct (pack LE _ _) as [target|] eqn:Et; [| done].
    cbn [struct_call ret].
    intros (head & Hh & -> & ->)%basic_frame_inv.
    exists 2, head, target. split_and!; try done.
    by apply pack_length in Et.
Qed.

Lemma built_payload item command fmt vals c frame c' :
  (data <- struct_call (pack LE fmt vals) ;;
   item_build_command item command data) c = (Ret frame, c') →
  unpack LE [B] (slice 3 4 frame) = Some [Int command] ∧
  unpack LE fmt (drop 16 frame) = Some (Int <$> vals) ∧
  length frame = (16 + calcsize fmt)%nat.
Proof.
  rewrite bind_run.
  destruct (pack LE fmt vals) as [data|] eqn:Ed; [| done].
  cbn [struct_call ret].
  intros (flag & head & target & Hh & Ht & -> & _)%item_frame_inv.
  pose proof (frame_head_length _ _ _ _ _ Hh) as Hlen.
  split_and!.
  - apply frame_head_inv in Hh as (_ & _ & Hc & _ & ->).
    change (slice 3 4 (_ ++ target ++ data)) with (int_bytes LE 1 command).
    apply (pack_unpack LE [B] [command]). cbn [pack].
    by rewrite pack1_in_range, app_nil_r.
  - rewrite app_assoc, drop_app_length' by (rewrite length_app; lia).
    by apply pack_unpack.
  - rewrite !length_app, Hlen, Ht, (pack_length _ _ _ _ Ed). lia.
Qed.

Lemma call_frame_run item m c :
  addressable item c → packable m →
  0 ≤ Lightify_seq c + 1 < 256 →
  ∃ frame, call_frame item m c = (Ret frame, with_seq (Lightify_seq c + 1) c).
Proof.
  intros Hitem Hm Hseq. unfold call_frame.
  destruct (payload_packable m Hm) as (data & -> & Hdata).
  cbn [struct_call]. rewrite bind_run. cbn [ret].
  destruct item as [l|g]; cbn [item_build_command addressable] in *.
  - destruct Hitem as (o & Ho & Haddr).
    apply (build_light_command_run _ _ _ _ o); try done; [by destruct m | lia].
  - unfold build_command. rewrite bind_run.
    fold (group_target (Group_idx g)). rewrite group_target_in_range by done.
    cbn [struct_call ret]. rewrite build_basic_command_run. cbv zeta.
    rewrite frame_head_Some by (done || (by destruct m) || lia). by eexists.
Qed.

(** X4: for a light or a group that can be addressed and a counter in
    range, each of the four builders returns a frame when its arguments fit
    their fields: byte 3 of the frame is the command code (0x32, 0x31,
    0x33, 0x36), the bytes from 16 on unpack to the arguments in the
    builder's format (the colour with alpha 0xff), and the frame is 17, 19,
    20 or 22 bytes long. *)
Theorem command_payloads item c :
  addressable item c → 0 ≤ Lightify_seq c + 1 < 256 →
  (∀ on, 0 ≤ on < 256 →
     ∃ frame,
       build_onoff item on c = (Ret frame, with_seq (Lightify_seq c + 1) c) ∧
       unpack LE [B] (slice 3 4 frame) = Some [Int COMMAND_ONOFF] ∧
       unpack LE [B] (drop 16 frame) = Some [Int on] ∧
       length frame = 17%nat) ∧
  (∀ luminance time, 0 ≤ luminance < 256 → 0 ≤ time < 65536 →
     ∃ frame,
       build_luminance item luminance time c
         = (Ret frame, with_seq (Lightify_seq c + 1) c) ∧
       unpack LE [B] (slice 3 4 frame) = Some [Int COMMAND_LUMINANCE] ∧
       unpack LE [B; H] (drop 16 frame) = Some [Int luminance; Int time] ∧
       length frame = 19%nat) ∧
  (∀ temp time, 0 ≤ temp < 65536 → 0 ≤ time < 65536 →
     ∃ frame,
       build_temp item temp time c
         = (Ret frame, with_seq (Lightify_seq c + 1) c) ∧
       unpack LE [B] (slice 3 4 frame) = Some [Int COMMAND_TEMP] ∧
       unpack LE [H; H] (drop 16 frame) = Some [Int temp; Int time] ∧
       length frame = 20%nat) ∧
  (∀ red green blue time,
     0 ≤ red < 256 → 0 ≤ green < 256 → 0 ≤ blue < 256 → 0 ≤ time < 65536 →
     ∃ frame,
       build_colour item red green blue time c
         = (Ret frame, with_seq (Lightify_seq c + 1) c) ∧
       unpack LE [B] (slice 3 4 frame) = Some [Int COMMAND_COLOUR] ∧
       unpack LE [B; B; B; B; H] (drop 16 frame) =
         Some [Int red; Int green; Int blue; Int 0xff; Int time] ∧
       length frame = 22%nat).
Proof.
  intros Hitem Hseq. split; [| split; [| split]].
  - intros on Hon.
    destruct (call_frame_run item (SetOnOff on) c) as [frame Hrun]; [done.. |].
    exists frame. split; [exact Hrun |].
    exact (built_payload item COMMAND_ONOFF [B] [on] c frame _ Hrun).
  - intros luminance time Hlum Htime.
    destruct (call_frame_run item (SetLuminance luminance time) c)
      as [frame Hrun]; [done.. |].
    exists frame. split; [exact Hrun |].
    exact (built_payload item COMMAND_LUMINANCE [B; H] [luminance; time]
             c frame _ Hrun).
  - intros temp time Htemp Htime.
    destruct (call_frame_run item (SetTemperature temp time) c)
      as [frame Hrun]; [done.. |].
    exists frame. split; [exact Hrun |].
    exact (built_payload item COMMAND_TEMP [H; H] [temp; time] c frame _ Hrun).
  - intros red green blue time Hr Hg Hb Htime.
    destruct (call_frame_run item (SetRgb red green blue time) c)
      as [frame Hrun]; [done.. |].
    exists frame. split; [exact Hrun |].
    exact (built_payload item COMMAND_COLOUR [B; B; B; B; H]
             [red; green; blue; 0xff; time] c frame _ Hrun).
Qed.

(** X4 on the colour command for group 3: red 255, green 128, blue 0, over
    ten time units. *)
Lemma command_payloads_witness :
  ∃ frame,
    build_colour (AGroup den) 255 128 0 10 idle
      = (Ret frame, with_seq (Lightify_seq idle + 1) idle) ∧
    unpack LE [B] (slice 3 4 frame) = Some [Int COMMAND_COLOUR] ∧
    unpack LE [B; B; B; B; H] (drop 16 frame) =
      Some [Int 255; Int 128; Int 0; Int 0xff; Int 10] ∧
    length frame = 22%nat.
Proof.
  apply (proj2 (proj2 (proj2 (command_payloads (AGroup den) idle
                                ltac:(simpl; lia) ltac:(simpl; lia)))));
    lia.
Defined.

(** ** Sequence numbers before the counter runs out *)

Lemma with_seq_twice v w c : with_seq v (with_seq w c) = with_seq v c.
Proof. done. Qed.

Lemma with_seq_id c : with_seq (Lightify_seq c) c = c.
Proof. by destruct c. Qed.

Lemma issue_loop {A} (xs : list A) acc c :
  0 ≤ Lightify_seq c + 1 → Lightify_seq c + Z.of_nat (length xs) < 256 →
  ∃ frames,
    for_each xs (λ _ frames,
      frame <- build_group_list ;; ret (frames ++ [frame])) acc c
      = (Ret (acc ++ frames), with_seq (Lightify_seq c + Z.of_nat (length xs)) c) ∧
    length frames = length xs ∧
    ∀ k frame, frames !! k = Some frame →
      Z_of_byte <$> frame !! 7%nat = Some (Lightify_seq c + 1 + Z.of_nat k).
Proof.
  revert acc c. induction xs as [|x xs IH]; intros acc c Hlo Hhi.
  - exists []. cbn [for_each length]. rewrite app_nil_r, Z.add_0_r, with_seq_id.
    split_and!; [done | done |]. by intros k frame.
  - cbn [for_each length] in *. rewrite bind_run. unfold build_group_list.
    rewrite bind_run, build_global_command_run. cbv zeta.
    rewrite frame_head_Some by (done || simpl; lia). cbn [ret].
    match goal with |- context [for_each xs _ (acc ++ [?f]) ?c1] =>
      destruct (IH (acc ++ [f]) c1) as (frames & Hrun & Hlen & Hk);
        [simpl; lia | simpl; lia |]; exists (f :: frames)
    end.
    split_and!.
    + unfold build_group_list in Hrun.
      rewrite Hrun, <- app_assoc, with_seq_twice. cbn [app Lightify_seq with_seq].
      do 2 f_equal. lia.
    + simpl. by rewrite Hlen.
    + intros [|k] frame; cbn [lookup list_lookup].
      * intros [= <-]. cbn. rewrite Z_of_byte_of_Z, Z.mod_small by lia.
        f_equal. lia.
      * intros Hf. rewrite (Hk _ _ Hf). f_equal. simpl. lia.
Qed.

(** X5: as long as the counter stays below 256, [n] commands issued one
    after the other are all built, advance the counter by [n], and carry
    consecutive sequence numbers in byte 7: the [k]-th frame (from 0)
    carries the counter it started from plus [k + 1]. *)
Theorem sequence_numbers n c :
  0 ≤ Lightify_seq c + 1 → Lightify_seq c + Z.of_nat n < 256 →
  ∃ frames,
    issue n c = (Ret frames, with_seq (Lightify_seq c + Z.of_nat n) c) ∧
    length frames = n ∧
    ∀ k frame, frames !! k = Some frame →
      Z_of_byte <$> frame !! 7%nat = Some (Lightify_seq c + 1 + Z.of_nat k).
Proof.
  intros Hlo Hhi. unfold issue.
  destruct (issue_loop (seq 0 n) [] c) as (frames & Hrun & Hlen & Hk);
    rewrite ?length_seq; try done.
  rewrite length_seq in *. by exists frames.
Qed.

(** X5 on three commands of a session whose counter stands at 1. *)
Lemma sequence_numbers_witness :
  ∃ frames,
    issue 3 idle = (Ret frames, with_seq (Lightify_seq idle + Z.of_nat 3) idle) ∧
    length frames = 3%nat ∧
    ∀ k frame, frames !! k = Some frame →
      Z_of_byte <$> frame !! 7%nat
        = Some (Lightify_seq idle + 1 + Z.of_nat k).
Proof. apply (sequence_numbers 3 idle); simpl; lia. Defined.

(** ** Arguments that do not fit *)

Lemma payload_Some_packable m data : payload m = Some data → packable m.
Proof.
  destruct m; cbn [payload packable]; intros E;
    repeat match type of E with
           | pack _ (_ :: _) (_ :: _) = Some _ =>
               let r := fresh "r" in
               apply pack_Some_cons in E as (r & _ & ? & _ & E)
           end; simpl in *; split_and?; lia.
Qed.

(** X6: a mutator of [Light] called with an argument that does not fit
    its field in the payload raises [struct.error] before anything is
    sent: the counter and the socket are as they were, and the object
    holds the value that did not fit. *)
Theorem unfit_argument self m c o :
  store c !! self = Some o → ¬ packable m →
  call self m c =
    (Raise StructError,
     with_store (<[self := first_write m o]> (store c)) c).
Proof.
  intros Ho Hm. rewrite (call_run _ _ _ _ Ho). cbv zeta.
  rewrite wire_part_unfold, bind_run.
  destruct (payload m) as [data|] eqn:E; [| done].
  by apply payload_Some_packable in E.
Qed.

(** X6 on the lamp switched "on" with 256. *)
Lemma unfit_argument_witness :
  call 0 (SetOnOff 256) (session lamp ack 1) =
    (Raise StructError,
     with_store (<[0%nat := first_write (SetOnOff 256) lamp]>
                   (store (session lamp ack 1)))
       (session lamp ack 1)).
Proof.
  apply (unfit_argument 0%nat (SetOnOff 256) (session lamp ack 1) lamp);
    [reflexivity | simpl; lia].
Defined.

(** ** What [recv] does with the stream *)

Lemma recv_loop_chunks chunks fuel expected data string c q :
  inbox (Lightify_sock c) = (RxData <$> chunks) ++ q →
  Forall (λ chunk, chunk ≠ []) chunks →
  Z.of_nat (length (concat chunks)) ≤ expected →
  (Z.to_nat expected ≤ fuel)%nat →
  let left := expected - Z.of_nat (length (concat chunks)) in
  recv_loop fuel expected data string c =
  recv_loop (Z.to_nat left) left (last_read data chunks)
    (string ++ concat chunks) (with_inbox q c).
Proof.
  revert fuel expected data string c.
  induction chunks as [|chunk chunks IH];
    intros fuel expected data string c Hq Hne Hsum Hfuel left.
  - subst left. cbn [concat length last_read foldl] in *.
    rewrite Z.sub_0_r, app_nil_r. cbn [fmap list_fmap app] in Hq.
    rewrite <- Hq, with_inbox_id. by apply recv_loop_fuel.
  - apply Forall_cons in Hne as [Hc Hne].
    cbn [concat fmap list_fmap app] in *. rewrite length_app in Hsum.
    assert (0 < length chunk)%nat by (destruct chunk; [done | simpl; lia]).
    destruct fuel as [|fuel]; [lia |].
    rewrite (recv_loop_chunk _ _ _ _ _ chunk ((RxData <$> chunks) ++ q))
      by (done || lia).
    rewrite IH; [| done | done | lia | lia].
    subst left. rewrite with_inbox_twice, length_app, <- app_assoc.
    cbn [last_read foldl].
    replace (expected - Z.of_nat (length chunk) - Z.of_nat (length (concat chunks)))
      with (expected - Z.of_nat (length chunk + length (concat chunks))) by lia.
    done.
Qed.

Lemma recv_prefix c n q :
  inbox (Lightify_sock c) = RxData (length_prefix n) :: q →
  Z.of_nat n < 65536 →
  recv c = recv_loop n (Z.of_nat n) (length_prefix n) [] (with_inbox q c).
Proof.
  intros Hq Hn. unfold recv.
  rewrite bind_run, sock_recv_run, Hq, sock_recv_from_chunk by done.
  cbn [fst snd]. rewrite take_ge by done.
  unfold length_prefix. rewrite unpack_H by lia.
  cbn [struct_call]. rewrite bind_run. cbn [ret].
  rewrite length_int_bytes.
  replace (Z.of_nat n + 2 - Z.of_nat 2) with (Z.of_nat n) by lia.
  by rewrite Nat2Z.id.
Qed.

(** X7: when the body of a response arrives in any number of non-empty
    reads after its length, [recv] returns, consumes them all, and hands
    over the last read alone. *)
Theorem recv_returns_last_read c chunks final rest :
  inbox (Lightify_sock c) =
    RxData (length_prefix (length (concat (chunks ++ [final]))))
    :: (RxData <$> chunks ++ [final]) ++ rest →
  Forall (λ chunk, chunk ≠ []) (chunks ++ [final]) →
  Z.of_nat (length (concat (chunks ++ [final]))) < 65536 →
  recv c = (Ret final, with_inbox rest c).
Proof.
  intros Hq Hne Hlen. rewrite (recv_prefix _ _ _ Hq Hlen).
  rewrite (recv_loop_chunks (chunks ++ [final]) _ _ _ _ _ rest);
    [| done | done | lia | lia].
  cbv zeta. rewrite Z.sub_diag, recv_loop_unfold, decide_False by lia.
  unfold last_read. rewrite foldl_app. by rewrite with_inbox_twice.
Qed.

(** X7 on a body of three bytes that arrives as one byte and two. *)
Lemma recv_returns_last_read_witness :
  recv (session lamp two_reads 0)
    = (Ret [x62; x63], with_inbox [] (session lamp two_reads 0)).
Proof.
  apply (recv_returns_last_read (session lamp two_reads 0) [[x61]] [x62; x63] []);
    [reflexivity | by repeat constructor | simpl; lia].
Defined.

(** X8: when the peer closes the stream before the declared number of
    bytes has arrived, [recv] never returns: every further [sock.recv]
    yields the empty string and the loop goes on waiting for the rest. *)
Theorem recv_hangs_at_eof c n chunks q :
  inbox (Lightify_sock c) =
    RxData (length_prefix n) :: (RxData <$> chunks) ++ RxEof :: q →
  Forall (λ chunk, chunk ≠ []) chunks →
  (length (concat chunks) < n)%nat → Z.of_nat n < 65536 →
  recv c = (Hang, with_inbox (RxEof :: q) c).
Proof.
  intros Hq Hne Hshort Hlen. rewrite (recv_prefix _ _ _ Hq Hlen).
  rewrite (recv_loop_chunks chunks _ _ _ _ _ (RxEof :: q));
    [| done | done | lia | lia].
  cbv zeta. rewrite (recv_loop_eof _ _ _ _ _ q) by (done || lia).
  by rewrite with_inbox_twice.
Qed.

(** X8 on a body of three bytes of which one arrives before the peer
    closes. *)
Lemma recv_hangs_at_eof_witness :
  recv (session lamp [RxData (length_prefix 3); RxData [x61]; RxEof] 0)
    = (Hang,
       with_inbox [RxEof]
         (session lamp [RxData (length_prefix 3); RxData [x61]; RxEof] 0)).
Proof.
  apply (recv_hangs_at_eof
           (session lamp [RxData (length_prefix 3); RxData [x61]; RxEof] 0)
           3 [[x61]] []);
    [reflexivity | by repeat constructor | simpl; lia | lia].
Defined.

(** X9: when the first read of [recv] yields fewer than the two bytes of
    the length (one byte, or none at the end of the stream), [recv] raises
    [struct.error] instead of reading on. *)
Theorem recv_short_prefix c data c1 :
  sock_recv 2 c = (Ret data, c1) → (length data < 2)%nat →
  recv c = (Raise StructError, c1).
Proof.
  intros Hread Hshort. unfold recv.
  rewrite (bind_returned _ _ _ _ _ Hread), bind_run.
  destruct data as [|b [|b' data]]; [done | done | simpl in Hshort; lia].
Qed.

(** X9 on a first read of one byte. *)
Lemma recv_short_prefix_witness :
  recv (session lamp [RxData [x05]] 0) = (Raise StructError, idle).
Proof.
  apply (recv_short_prefix (session lamp [RxData [x05]] 0) [x05] idle);
    [reflexivity | simpl; lia].
Defined.

(** X10: for a response that declares no byte after its length, [recv]
    returns the two bytes of the length itself, the loop never running. *)
Theorem recv_empty_body c rest :
  inbox (Lightify_sock c) = RxData (length_prefix 0) :: rest →
  recv c = (Ret (length_prefix 0), with_inbox rest c).
Proof.
  intros Hq. rewrite (recv_prefix _ _ _ Hq) by done.
  by rewrite recv_loop_unfold, decide_False.
Qed.

(** X10 on a response that is its length alone. *)
Lemma recv_empty_body_witness :
  recv (session lamp [RxData (length_prefix 0)] 0)
    = (Ret (length_prefix 0),
       with_inbox [] (session lamp [RxData (length_prefix 0)] 0)).
Proof.
  apply (recv_empty_body (session lamp [RxData (length_prefix 0)] 0) []).
  reflexivity.
Defined.

(** X11: when one segment holds the length, the whole body and the start
    of what comes next, [recv] returns exactly the body and leaves what
    comes next pending. *)
Theorem recv_takes_its_frame c body extra rest :
  inbox (Lightify_sock c) =
    RxData (length_prefix (length body) ++ body ++ extra) :: rest →
  body ≠ [] → Z.of_nat (length body) < 65536 →
  recv c = (Ret body, with_inbox (leftover extra rest) c).
Proof.
  intros Hq Hne Hlen.
  assert (Hbody : (0 < length body)%nat) by (destruct body; [done | simpl; lia]).
  unfold recv. rewrite bind_run, sock_recv_run, Hq.
  assert (Hfirst : sock_recv_from 2
            (RxData (length_prefix (length body) ++ body ++ extra) :: rest)
          = (Ret (length_prefix (length body)), RxData (body ++ extra) :: rest)).
  { unfold length_prefix. cbn [int_bytes le_bytes app sock_recv_from].
    rewrite decide_False by (simpl; rewrite length_app; lia). done. }
  rewrite Hfirst. cbn [fst snd]. rewrite take_ge by done.
  unfold length_prefix. rewrite unpack_H by lia.
  cbn [struct_call]. rewrite bind_run. cbn [ret].
  rewrite length_int_bytes.
  replace (Z.of_nat (length body) + 2 - Z.of_nat 2)
    with (Z.of_nat (length body)) by lia.
  rewrite Nat2Z.id.
  destruct (length body) as [|n] eqn:En; [lia |].
  rewrite recv_loop_unfold, decide_True by lia.
  rewrite bind_run, sock_recv_run. cbn [inbox Lightify_sock with_inbox with_sock].
  rewrite Nat2Z.id.
  assert (Hsecond : sock_recv_from (S n) (RxData (body ++ extra) :: rest)
          = (Ret body, leftover extra rest)).
  { destruct extra as [|e extra].
    - rewrite app_nil_r. apply sock_recv_from_chunk; [done | lia].
    - destruct body as [|b body]; [done |].
      cbn [app sock_recv_from]. rewrite decide_False
        by (cbn [length] in *; rewrite length_app; simpl; lia).
      change (b :: body ++ e :: extra) with ((b :: body) ++ e :: extra).
      by rewrite take_app_length', drop_app_length'. }
  rewrite Hsecond. cbn [fst snd].
  rewrite recv_loop_unfold, decide_False by lia.
  by rewrite with_inbox_twice.
Qed.

(** X11 on a segment that holds an acknowledgement and the first byte of
    the next response. *)
Lemma recv_takes_its_frame_witness :
  recv (session lamp [RxData [x01; x00; x00; x09]] 0)
    = (Ret [x00],
       with_inbox (leftover [x09] [])
         (session lamp [RxData [x01; x00; x00; x09]] 0)).
Proof.
  apply (recv_takes_its_frame (session lamp [RxData [x01; x00; x00; x09]] 0)
           [x00] [x09] []);
    [reflexivity | done | simpl; lia].
Defined.

(** ** Round trips of a request *)

Lemma request_answered (build : io bytes) frame body rest c :
  build c = (Ret frame, with_seq (Lightify_seq c + 1) c) →
  answering body rest c →
  (data <- build ;; send data ;;; recv) c = (Ret body, answered frame rest c).
Proof.
  intros Hb (Hseq & Hsend & Hne & Hlen & Hin).
  rewrite (bind_returned _ _ _ _ _ Hb).
  destruct (sendable (Lightify_sock c)) as [|n] eqn:Hn; [done |].
  rewrite (bind_returned _ _ _ _ _ (send_run frame (with_seq _ c) n Hn)).
  rewrite (recv_one_read _ body rest); [| done | done | done].
  unfold answered. by rewrite Hn.
Qed.

Lemma bind_assoc {A B C} (m : io A) (k : A → io B) (h : B → io C) c :
  bind (bind m k) h c = bind m (λ a, bind (k a) h) c.
Proof. rewrite !bind_run. by destruct (m c) as [[a|e|] c1]. Qed.

(** ** Commands to lights and to groups *)

Lemma luminary_call_unfold item m c :
  luminary_call item m c =
    (frame <- call_frame item m ;; send frame ;;; _ <- recv ;; ret tt) c.
Proof.
  unfold call_frame.
  destruct m; simpl;
    unfold Luminary_set_onoff, Luminary_set_luminance,
      Luminary_set_temperature, Luminary_set_rgb,
      build_onoff, build_luminance, build_temp, build_colour;
    rewrite !bind_run;
    by destruct (struct_call _ c) as [[?|?|] ?].
Qed.

(** X12: a [Luminary] command to a light or a group that can be
    addressed, with arguments that fit, on a session that can send and
    whose acknowledgement arrives, returns; it has sent exactly the frame
    of the call, consumed the acknowledgement, advanced the counter by
    one, and changed nothing else. *)
Theorem luminary_call_goes_through item m c body rest n :
  addressable item c → packable m →
  0 ≤ Lightify_seq c + 1 < 256 →
  sendable (Lightify_sock c) = S n →
  inbox (Lightify_sock c) =
    RxData (length_prefix (length body)) :: RxData body :: rest →
  body ≠ [] → Z.of_nat (length body) < 65536 →
  ∃ frame,
    call_frame item m c = (Ret frame, with_seq (Lightify_seq c + 1) c) ∧
    luminary_call item m c =
      (Ret tt,
       with_sock (mkSocket rest (outbox (Lightify_sock c) ++ [frame]) n)
         (with_seq (Lightify_seq c + 1) c)).
Proof.
  intros Hitem Hm Hseq Hn Hin Hne Hlen.
  destruct (call_frame_run item m c Hitem Hm Hseq) as [frame Hframe].
  exists frame. split; [done |].
  rewrite luminary_call_unfold, (bind_returned _ _ _ _ _ Hframe).
  rewrite (bind_returned _ _ _ _ _ (send_run frame (with_seq _ c) n Hn)).
  erewrite bind_returned; cycle 1.
  { by apply (recv_one_read _ body rest). }
  done.
Qed.

(** X12 on group 3 switched on. *)
Lemma luminary_call_goes_through_witness :
  ∃ frame,
    call_frame (AGroup den) (SetOnOff 1) (session lamp ack 1)
      = (Ret frame,
         with_seq (Lightify_seq (session lamp ack 1) + 1) (session lamp ack 1)) ∧
    luminary_call (AGroup den) (SetOnOff 1) (session lamp ack 1) =
      (Ret tt,
       with_sock
         (mkSocket [] (outbox (Lightify_sock (session lamp ack 1)) ++ [frame]) 0)
         (with_seq (Lightify_seq (session lamp ack 1) + 1)
            (session lamp ack 1))).
Proof.
  apply (luminary_call_goes_through (AGroup den) (SetOnOff 1)
           (session lamp ack 1) [x00] [] 0);
    [simpl; lia | simpl; lia | simpl; lia | reflexivity | reflexivity
    | done | simpl; lia].
Defined.

Lemma keeps_luminary_call item m : keeps wire_only (luminary_call item m).
Proof.
  destruct m; simpl;
    [ apply keeps_Luminary_set_onoff | apply keeps_Luminary_set_luminance
    | apply keeps_Luminary_set_temperature | apply keeps_Luminary_set_rgb ];
    first [ exact _ | exact wire_only_seq | exact wire_only_sock ].
Qed.

(** X13: a command to a group, whatever its outcome, changes neither
    the registries nor any light object: the lights of the group keep the
    attributes they had. *)
Theorem group_call_leaves_lights group m c :
  Lightify_groups (luminary_call (AGroup group) m c).2 = Lightify_groups c ∧
  Lightify_lights (luminary_call (AGroup group) m c).2 = Lightify_lights c ∧
  store (luminary_call (AGroup group) m c).2 = store c.
Proof. exact (keeps_luminary_call (AGroup group) m c). Qed.

Lemma keeps_update_light_status light :
  keeps wire_only (update_light_status light).
Proof.
  unfold update_light_status, build_light_status, build_light_command.
  repeat keeps_step;
    first [ apply keeps_read | apply keeps_send | apply keeps_recv
          | apply keeps_build_basic_command ];
    first [ exact _ | exact wire_only_seq | exact wire_only_sock ].
Qed.

(** X14: [update_light_status] makes the round trip and drops the
    response: whatever its outcome, the registries and the light objects
    are as they were; for a light whose address fits, on a session whose
    request is answered, it returns. *)
Theorem update_light_status_updates_nothing light c :
  (Lightify_groups (update_light_status light c).2 = Lightify_groups c ∧
   Lightify_lights (update_light_status light c).2 = Lightify_lights c ∧
   store (update_light_status light c).2 = store c) ∧
  (∀ o body rest,
     store c !! light = Some o → 0 ≤ Light_addr o < 2 ^ 64 →
     answering body rest c →
     ∃ frame,
       build_light_status light c
         = (Ret frame, with_seq (Lightify_seq c + 1) c) ∧
       update_light_status light c = (Ret tt, answered frame rest c)).
Proof.
  split; [exact (keeps_update_light_status light c) |].
  intros o body rest Ho Haddr Hans.
  destruct (build_light_command_run COMMAND_LIGHT_STATUS light [] c o)
    as [frame Hframe]; [done | done | done | apply Hans | simpl; lia |].
  exists frame. split; [done |].
  unfold update_light_status.
  rewrite <- bind_assoc, <- bind_assoc.
  erewrite bind_returned; cycle 1.
  { rewrite bind_assoc.
    by apply (request_answered (build_light_status light) frame body). }
  done.
Qed.

(** X14 on the lamp, its status request acknowledged. *)
Lemma update_light_status_updates_nothing_witness :
  ∃ frame,
    build_light_status 0%nat (session lamp ack 1)
      = (Ret frame,
         with_seq (Lightify_seq (session lamp ack 1) + 1) (session lamp ack 1)) ∧
    update_light_status 0%nat (session lamp ack 1)
      = (Ret tt, answered frame [] (session lamp ack 1)).
Proof.
  apply (proj2 (update_light_status_updates_nothing 0%nat (session lamp ack 1))
           lamp [x00] []);
    [reflexivity | simpl; lia |].
  split_and!; [simpl; lia | simpl; lia | done | done | simpl; lia | reflexivity].
Defined.

Lemma build_group_list_run c :
  0 ≤ Lightify_seq c + 1 < 256 →
  ∃ frame, build_group_list c = (Ret frame, with_seq (Lightify_seq c + 1) c).
Proof.
  intros Hseq. unfold build_group_list.
  rewrite build_global_command_run. cbv zeta.
  rewrite frame_head_Some by (done || simpl; lia). by eexists.
Qed.

(** X21: [set_temperature] and [set_rgb] on a light whose address fits,
    with arguments that fit, on a session whose request is acknowledged,
    return; the object then holds the temperature, or the three colour
    components, that were asked for, every other attribute being as it
    was (the transition time and the alpha 0xff are sent, not stored). *)
Theorem temperature_and_colour_stored c self o body rest :
  store c !! self = Some o → 0 ≤ Light_addr o < 2 ^ 64 →
  answering body rest c →
  (∀ temp time, 0 ≤ temp < 65536 → 0 ≤ time < 65536 →
     ∃ c', Light_set_temperature self temp time c = (Ret tt, c') ∧
           store c' !! self = Some (set_temp temp o) ∧
           inbox (Lightify_sock c') = rest ∧
           Lightify_seq c' = Lightify_seq c + 1) ∧
  (∀ r g b time,
     0 ≤ r < 256 → 0 ≤ g < 256 → 0 ≤ b < 256 → 0 ≤ time < 65536 →
     ∃ c', Light_set_rgb self r g b time c = (Ret tt, c') ∧
           store c' !! self = Some (set_b b (set_g g (set_r r o))) ∧
           inbox (Lightify_sock c') = rest ∧
           Lightify_seq c' = Lightify_seq c + 1).
Proof.
  intros Ho Haddr (Hseq & Hsend & Hne & Hlen & Hin). split.
  - intros temp time Htemp Htime.
    destruct (call_completes self (SetTemperature temp time) c o body rest)
      as (c' & Hrun & Hobj & Hrest & Hseq' & _); [done.. |].
    by exists c'.
  - intros r g b time Hr Hg Hb Htime.
    destruct (call_completes self (SetRgb r g b time) c o body rest)
      as (c' & Hrun & Hobj & Hrest & Hseq' & _); [done.. |].
    by exists c'.
Qed.

(** X21 on the lamp set to 4000 K. *)
Lemma temperature_and_colour_stored_witness :
  ∃ c', Light_set_temperature 0 4000 10 (session lamp ack 1) = (Ret tt, c') ∧
        store c' !! 0%nat = Some (set_temp 4000 lamp) ∧
        inbox (Lightify_sock c') = [] ∧
        Lightify_seq c' = Lightify_seq (session lamp ack 1) + 1.
Proof.
  apply (proj1 (temperature_and_colour_stored (session lamp ack 1) 0%nat lamp
                  [x00] [] eq_refl ltac:(simpl; lia)
                  ltac:(split_and!; [simpl; lia | simpl; lia | done | done
                                    | simpl; lia | reflexivity])));
    lia.
Defined.

(** ** The group list *)

Lemma length_group_entry e : (length e.2 ≤ 16)%nat → length (group_entry e) = 18%nat.
Proof.
  intros H. unfold group_entry.
  rewrite length_app, length_int_bytes, length_pad16 by done. done.
Qed.

Lemma group_entries_uniform entries :
  Forall listable entries →
  Forall (λ p, length p = 18%nat) (group_entry <$> entries).
Proof.
  intros H. apply Forall_fmap. eapply Forall_impl; [exact H |].
  intros e (_ & ? & _). by apply length_group_entry.
Qed.

Lemma group_list_body_entry head (entries : list (Z * bytes)) i e :
  length head = 7%nat → Forall listable entries → entries !! i = Some e →
  slice (9 + i * 18) (9 + i * 18 + 18) (group_list_body head entries)
    = group_entry e.
Proof.
  intros Hh He Hi. unfold slice, group_list_body.
  replace (9 + i * 18 + 18 - (9 + i * 18))%nat with 18%nat by lia.
  rewrite app_assoc, <- drop_drop.
  rewrite drop_app_length' by (rewrite length_app, length_int_bytes; lia).
  rewrite (drop_concat_uniform 18) by by apply group_entries_uniform.
  assert (Hi' : (group_entry <$> entries) !! i = Some (group_entry e))
    by by rewrite list_lookup_fmap, Hi.
  rewrite (drop_S _ _ _ Hi'). cbn [concat].
  apply take_app_length'. symmetry. apply length_group_entry.
  by destruct (Forall_lookup_1 _ _ _ _ He Hi) as (_ & ? & _).
Qed.

Lemma group_list_body_count head (entries : list (Z * bytes)) :
  length head = 7%nat →
  slice 7 9 (group_list_body head entries) =
    int_bytes LE 2 (Z.of_nat (length entries)).
Proof.
  intros Hh. unfold slice, group_list_body.
  rewrite drop_app_length' by done.
  by rewrite take_app_length' by by rewrite length_int_bytes.
Qed.

Lemma unpack_group_entry e :
  listable e →
  unpack LE [H; s 16] (group_entry e) = Some [Int e.1; Str (pad16 e.2)].
Proof.
  intros (Hidx & Hlen & _).
  rewrite unpack_sized by by rewrite length_group_entry.
  unfold group_entry. cbn [fields unpack1 size].
  rewrite take_app_length', drop_app_length' by by rewrite length_int_bytes.
  rewrite take_ge by by rewrite length_pad16.
  by rewrite bytes_int_int_bytes.
Qed.

Lemma group_list_loop data (pre es : list (Z * bytes)) groups c :
  (∀ j e, (pre ++ es) !! j = Some e →
     listable e ∧
     slice (9 + j * 18) (9 + j * 18 + 18) data = group_entry e) →
  for_each (seq (length pre) (length es)) (λ i groups,
      let pos := (9 + i * 18)%nat in
      let payload := slice pos (pos + 18) data in
      vals <- struct_call (unpack LE [H; s 16] payload) ;;
      match vals with
      | [Int idx; Str name] =>
          let name := strip_nul name in
          ret (<[idx := name]> groups)
      | _ => raise StructError
      end) groups c
  = (Ret (filed es groups), c).
Proof.
  revert pre groups. induction es as [|e es IH]; intros pre groups Hes; [done |].
  destruct (Hes (length pre) e) as (He & Hslice);
    [by apply list_lookup_middle |].
  cbn [length seq for_each]. rewrite bind_run. cbv zeta.
  rewrite Hslice, bind_run, unpack_group_entry by done.
  cbn [struct_call ret]. rewrite strip_nul_pad16 by apply He.
  specialize (IH (pre ++ [e]) (<[e.1 := e.2]> groups)).
  rewrite length_app, Nat.add_1_r, <- app_assoc in IH. by apply IH.
Qed.

Lemma group_list_run c head entries rest :
  length head = 7%nat → Forall listable entries →
  answering (group_list_body head entries) rest c →
  ∃ frame,
    build_group_list c = (Ret frame, with_seq (Lightify_seq c + 1) c) ∧
    group_list c = (Ret (filed entries ∅), answered frame rest c).
Proof.
  intros Hhead Hentries Hans.
  destruct (build_group_list_run c) as [frame Hframe]; [apply Hans |].
  exists frame. split; [done |].
  unfold group_list.
  rewrite <- bind_assoc, <- bind_assoc.
  erewrite bind_returned; cycle 1.
  { rewrite bind_assoc. by apply (request_answered build_group_list). }
  rewrite group_list_body_count, unpack_H; [| | done].
  2:{ destruct Hans as (_ & _ & _ & Hlen & _).
      unfold group_list_body in Hlen. rewrite !length_app in Hlen.
      assert (length entries ≤ length (concat (group_entry <$> entries)))%nat.
      { rewrite (length_concat_uniform 18) by by apply group_entries_uniform.
        rewrite length_fmap. lia. }
      lia. }
  cbn [struct_call]. rewrite bind_run. cbn [ret].
  rewrite range_of_nat.
  apply (group_list_loop _ [] entries).
  intros j e Hj. split.
  - exact (Forall_lookup_1 _ _ _ _ Hentries Hj).
  - by apply group_list_body_entry.
Qed.

Lemma answered_facts frame rest c :
  Lightify_seq (answered frame rest c) = Lightify_seq c + 1 ∧
  sendable (Lightify_sock (answered frame rest c))
    = pred (sendable (Lightify_sock c)) ∧
  inbox (Lightify_sock (answered frame rest c)) = rest ∧
  wire_only c (answered frame rest c).
Proof. done. Qed.

(** X15: when the response to the group-list request arrives, holding any
    number of entries of an index and a NUL-padded name, [group_list]
    returns the dict from index to name that the entries fill in their
    order (a later entry for an index overriding an earlier one), names
    stripped of their padding; it consumes the response, advances the
    counter by one and leaves the registries and the lights alone. *)
Theorem group_list_decodes c head entries rest :
  length head = 7%nat → Forall listable entries →
  answering (group_list_body head entries) rest c →
  ∃ c',
    group_list c = (Ret (filed entries ∅), c') ∧
    Lightify_groups c' = Lightify_groups c ∧
    Lightify_lights c' = Lightify_lights c ∧
    store c' = store c ∧
    Lightify_seq c' = Lightify_seq c + 1 ∧
    inbox (Lightify_sock c') = rest.
Proof.
  intros Hhead Hentries Hans.
  destruct (group_list_run c head entries rest) as (frame & _ & Hrun);
    [done.. |].
  exists (answered frame rest c). split; [done |].
  by destruct (answered_facts frame rest c) as (? & _ & ? & ? & ? & ?).
Qed.

Lemma name_Test_listable : listable (3, name_Test).
Proof.
  split_and!; [simpl; lia | simpl; lia | simpl; lia |].
  intros H. repeat (apply elem_of_cons in H as [H|H]; [done |]).
  by apply elem_of_nil in H.
Qed.

(** X15 on the list that holds group 3, "Test". *)
Lemma group_list_decodes_witness :
  ∃ c',
    group_list (session lamp (deliveries [group_list_body some_head den_list] []) 1)
      = (Ret (filed den_list ∅), c') ∧
    Lightify_groups c' = ∅ ∧
    Lightify_lights c' = {[Light_addr lamp := 0%nat]} ∧
    store c' = [lamp] ∧
    Lightify_seq c' = 1 + 1 ∧
    inbox (Lightify_sock c') = [].
Proof.
  apply (group_list_decodes
           (session lamp (deliveries [group_list_body some_head den_list] []) 1)
           some_head den_list []).
  - reflexivity.
  - repeat constructor; apply name_Test_listable.
  - split_and!; [simpl; lia | simpl; lia | done | done | by vm_compute
                | reflexivity].
Defined.

(** ** The lights of a group *)

Lemma build_group_info_run group c :
  0 ≤ Group_idx group < 256 → 0 ≤ Lightify_seq c + 1 < 256 →
  ∃ frame, build_group_info group c
           = (Ret frame, with_seq (Lightify_seq c + 1) c).
Proof.
  intros Hidx Hseq. unfold build_group_info, build_command. rewrite bind_run.
  fold (group_target (Group_idx group)). rewrite group_target_in_range by done.
  cbn [struct_call ret]. rewrite build_basic_command_run. cbv zeta.
  rewrite frame_head_Some by (done || simpl; lia). by eexists.
Qed.

Lemma addresses_uniform (addrs : list Z) :
  Forall (λ p, length p = 8%nat) (int_bytes LE 8 <$> addrs).
Proof. apply Forall_fmap, Forall_forall. intros a _. apply length_int_bytes. Qed.

Lemma group_info_response_head head idx name addrs :
  length head = 7%nat → (length name ≤ 16)%nat →
  take 19 (drop 7 (group_info_response head idx name addrs)) =
    int_bytes LE 2 idx ++ pad16 name ++ int_bytes LE 1 (Z.of_nat (length addrs)).
Proof.
  intros Hh Hn. unfold group_info_response.
  rewrite drop_app_length' by done.
  rewrite !app_assoc. apply take_app_length'.
  by rewrite !length_app, !length_int_bytes, length_pad16.
Qed.

Lemma group_info_response_addr head idx name (addrs : list Z) i a :
  length head = 7%nat → (length name ≤ 16)%nat → addrs !! i = Some a →
  take 8 (slice (7 + 19 + i * 8) (7 + 19 + i * 8 + 8)
            (group_info_response head idx name addrs))
    = int_bytes LE 8 a.
Proof.
  intros Hh Hn Hi. unfold slice, group_info_response.
  replace (7 + 19 + i * 8 + 8 - (7 + 19 + i * 8))%nat with 8%nat by lia.
  rewrite take_take, Nat.min_id.
  rewrite !app_assoc, <- drop_drop.
  rewrite drop_app_length'
    by (rewrite !length_app, !length_int_bytes, length_pad16 by done; lia).
  rewrite (drop_concat_uniform 8) by apply addresses_uniform.
  assert (Hi' : (int_bytes LE 8 <$> addrs) !! i = Some (int_bytes LE 8 a))
    by by rewrite list_lookup_fmap, Hi.
  rewrite (drop_S _ _ _ Hi'). cbn [concat].
  apply take_app_length'. by rewrite length_int_bytes.
Qed.

Lemma group_info_loop data (pre es : list Z) lights c :
  (∀ j a, (pre ++ es) !! j = Some a →
     0 ≤ a < 2 ^ 64 ∧
     take 8 (slice (7 + 19 + j * 8) (7 + 19 + j * 8 + 8) data)
       = int_bytes LE 8 a) →
  for_each (seq (length pre) (length es)) (λ i lights,
      let pos := (7 + 19 + i * 8)%nat in
      let payload := slice pos (pos + 8) data in
      vals <- struct_call (unpack LE [Q] (take 8 payload)) ;;
      match vals with
      | [Int addr] => ret (lights ++ [addr])
      | _ => raise StructError
      end) lights c
  = (Ret (lights ++ es), c).
Proof.
  revert pre lights. induction es as [|a es IH]; intros pre lights Hes.
  { by rewrite app_nil_r. }
  destruct (Hes (length pre) a) as (Ha & Hslice);
    [by apply list_lookup_middle |].
  cbn [length seq for_each]. rewrite bind_run. cbv zeta.
  rewrite Hslice, bind_run.
  rewrite (pack_unpack LE [Q] [a])
    by (cbn [pack]; by rewrite pack1_in_range, app_nil_r).
  cbn [struct_call ret fmap list_fmap].
  specialize (IH (pre ++ [a]) (lights ++ [a])).
  rewrite length_app, Nat.add_1_r, <- !app_assoc in IH. by apply IH.
Qed.

Lemma unpack_group_info_head idx name n :
  0 ≤ idx < 65536 → (length name ≤ 16)%nat → 0 ≤ n < 256 →
  unpack LE [H; s 16; B] (int_bytes LE 2 idx ++ pad16 name ++ int_bytes LE 1 n)
    = Some [Int idx; Str (pad16 name); Int n].
Proof.
  intros Hidx Hname Hn.
  rewrite unpack_sized
    by by rewrite !length_app, !length_int_bytes, length_pad16.
  cbn [fields unpack1 size].
  rewrite take_app_length', drop_app_length' by by rewrite length_int_bytes.
  rewrite take_app_length', drop_app_length' by by rewrite length_pad16.
  rewrite take_ge by by rewrite length_int_bytes.
  by rewrite !bytes_int_int_bytes.
Qed.

Lemma group_info_run c group head idx name addrs rest :
  0 ≤ Group_idx group < 256 →
  length head = 7%nat → 0 ≤ idx < 65536 → (length name ≤ 16)%nat →
  (length addrs < 256)%nat → Forall (λ a, 0 ≤ a < 2 ^ 64) addrs →
  answering (group_info_response head idx name addrs) rest c →
  ∃ frame,
    build_group_info group c = (Ret frame, with_seq (Lightify_seq c + 1) c) ∧
    group_info group c = (Ret addrs, answered frame rest c).
Proof.
  intros Hg Hhead Hidx Hname Hcount Haddrs Hans.
  destruct (build_group_info_run group c) as [frame Hframe];
    [done | apply Hans |].
  exists frame. split; [done |].
  unfold group_info.
  rewrite <- bind_assoc, <- bind_assoc.
  erewrite bind_returned; cycle 1.
  { rewrite bind_assoc. by apply (request_answered (build_group_info group)). }
  rewrite group_info_response_head by done.
  rewrite unpack_group_info_head by (done || lia).
  cbn [struct_call]. rewrite bind_run. cbn [ret].
  rewrite range_of_nat.
  apply (group_info_loop _ [] addrs []).
  intros j a Hj. split.
  - exact (Forall_lookup_1 _ _ _ _ Haddrs Hj).
  - by apply group_info_response_addr.
Qed.

(** X16: when the response to the group-info request of a group arrives,
    holding an index, a name and any number of addresses, [group_info]
    returns the addresses in the order of the response, whatever index and
    name the response carries; it consumes the response, advances the
    counter by one and leaves the registries and the lights alone. *)
Theorem group_info_decodes c group head idx name addrs rest :
  0 ≤ Group_idx group < 256 →
  length head = 7%nat → 0 ≤ idx < 65536 → (length name ≤ 16)%nat →
  (length addrs < 256)%nat → Forall (λ a, 0 ≤ a < 2 ^ 64) addrs →
  answering (group_info_response head idx name addrs) rest c →
  ∃ c',
    group_info group c = (Ret addrs, c') ∧
    Lightify_groups c' = Lightify_groups c ∧
    Lightify_lights c' = Lightify_lights c ∧
    store c' = store c ∧
    Lightify_seq c' = Lightify_seq c + 1 ∧
    inbox (Lightify_sock c') = rest.
Proof.
  intros Hg Hhead Hidx Hname Hcount Haddrs Hans.
  destruct (group_info_run c group head idx name addrs rest)
    as (frame & _ & Hrun); [done.. |].
  exists (answered frame rest c). split; [done |].
  by destruct (answered_facts frame rest c) as (? & _ & ? & ? & ? & ?).
Qed.

(** X16 on group 3, whose answer names the lamp. *)
Lemma group_info_decodes_witness :
  ∃ c',
    group_info den
        (session lamp (deliveries [membership_response den_membership] []) 1)
      = (Ret [Light_addr lamp], c') ∧
    Lightify_groups c' = ∅ ∧
    Lightify_lights c' = {[Light_addr lamp := 0%nat]} ∧
    store c' = [lamp] ∧
    Lightify_seq c' = 1 + 1 ∧
    inbox (Lightify_sock c') = [].
Proof.
  apply (group_info_decodes
           (session lamp (deliveries [membership_response den_membership] []) 1)
           den some_head 3 name_Test [Light_addr lamp] []).
  - simpl. lia.
  - reflexivity.
  - lia.
  - simpl. lia.
  - simpl. lia.
  - repeat constructor; simpl; lia.
  - split_and!; [simpl; lia | simpl; lia | done | done | by vm_compute
                | reflexivity].
Defined.

(** ** A refresh of the groups *)

Lemma length_membership_response i :
  well_formed_membership i →
  (26 ≤ length (membership_response i))%nat ∧
  Z.of_nat (length (membership_response i)) < 65536.
Proof.
  intros (Hh & _ & Hn & Hc & _). unfold membership_response, group_info_response.
  rewrite !length_app, !length_int_bytes, length_pad16, Hh by done.
  rewrite (length_concat_uniform 8) by apply addresses_uniform.
  rewrite length_fmap. lia.
Qed.

Lemma update_group_list_loop order infos rest groups c :
  length infos = length order →
  Forall (λ p : Z * bytes, 0 ≤ p.1 < 256) order →
  Forall well_formed_membership infos →
  0 ≤ Lightify_seq c + 1 → Lightify_seq c + Z.of_nat (length order) < 256 →
  (length order ≤ sendable (Lightify_sock c))%nat →
  inbox (Lightify_sock c) = deliveries (membership_response <$> infos) rest →
  ∃ c',
    for_each order (λ '(idx, name) groups,
      let group := mkGroup idx name [] in
      lights <- group_info group ;;
      let group := mkGroup (Group_idx group) (Group_name group) lights in
      ret (<[name := group]> groups)) groups c
    = (Ret (regrouped order infos groups), c') ∧
    wire_only c c' ∧
    Lightify_seq c' = Lightify_seq c + Z.of_nat (length order) ∧
    inbox (Lightify_sock c') = rest.
Proof.
  revert infos groups c.
  induction order as [|[idx name] order IH];
    intros [|i infos] groups c Hlen Horder Hinfos Hlo Hhi Hsend Hin; try done.
  { exists c. cbn [length] in *. split_and!; [done | done | lia | done]. }
  apply Forall_cons in Horder as [Hidx Horder].
  apply Forall_cons in Hinfos as [Hi Hinfos].
  cbn [length fmap list_fmap deliveries] in *.
  destruct (length_membership_response i Hi) as [Hlong Hshort].
  destruct Hi as (Hh & Hiidx & Hiname & Hicount & Hiaddrs).
  destruct (group_info_run c (mkGroup idx name []) (membership_head i)
              (membership_idx i) (membership_name i) (membership_addrs i)
              (deliveries (membership_response <$> infos) rest))
    as (frame & _ & Hrun); try done.
  { split_and!; try done; try lia.
    intros E. unfold membership_response in Hlong. rewrite E in Hlong.
    simpl in Hlong. lia. }
  cbn [for_each]. rewrite bind_run, (bind_returned _ _ _ _ _ Hrun).
  cbn [ret Group_idx Group_name].
  destruct (answered_facts frame (deliveries (membership_response <$> infos) rest) c)
    as (Hseq1 & Hsend1 & Hin1 & Hwire1).
  destruct (IH infos (<[name := mkGroup idx name (membership_addrs i)]> groups)
              (answered frame (deliveries (membership_response <$> infos) rest) c))
    as (c' & Hloop & Hwire & Hseq & Hrest); try done; try lia.
  exists c'. split_and!; [done | by etransitivity | lia | done].
Qed.

(** X17: let the group list arrive, and then, for each group of the dict
    taken in the order of the iteration, an answer about its lights; let
    every index fit one byte and the counter and the socket allow one
    request more than there are groups. Then [update_group_list] returns,
    and the registry of groups is replaced by one that files each listed
    group under its name with the index of the list and the addresses of
    its answer (a later group of the same name replacing an earlier one);
    the lights are untouched, the counter has advanced by the number of
    requests, and all the answers are consumed. *)
Theorem update_group_list_refreshes iteritems c head entries infos rest :
  let order := iteritems (filed entries ∅) in
  length head = 7%nat → Forall listable entries →
  Z.of_nat (length (group_list_body head entries)) < 65536 →
  length infos = length order →
  Forall (λ p : Z * bytes, 0 ≤ p.1 < 256) order →
  Forall well_formed_membership infos →
  0 ≤ Lightify_seq c + 1 →
  Lightify_seq c + 1 + Z.of_nat (length order) < 256 →
  (S (length order) ≤ sendable (Lightify_sock c))%nat →
  inbox (Lightify_sock c) =
    deliveries (group_list_body head entries
                :: (membership_response <$> infos)) rest →
  ∃ c',
    update_group_list iteritems c = (Ret tt, c') ∧
    Lightify_groups c' = regrouped order infos ∅ ∧
    Lightify_lights c' = Lightify_lights c ∧
    store c' = store c ∧
    Lightify_seq c' = Lightify_seq c + 1 + Z.of_nat (length order) ∧
    inbox (Lightify_sock c') = rest.
Proof.
  intros order Hhead Hentries Hshort Hlen Horder Hinfos Hlo Hhi Hsend Hin.
  cbn [deliveries] in Hin.
  destruct (group_list_run c head entries
              (deliveries (membership_response <$> infos) rest))
    as (frame & _ & Hlist); try done.
  { split_and!; try done; try lia.
    intros E. apply (f_equal length) in E. unfold group_list_body in E.
    rewrite !length_app, Hhead in E. simpl in E. lia. }
  unfold update_group_list. rewrite (bind_returned _ _ _ _ _ Hlist).
  destruct (answered_facts frame (deliveries (membership_response <$> infos) rest) c)
    as (Hseq1 & Hsend1 & Hin1 & Hwire1).
  destruct (update_group_list_loop order infos rest ∅
              (answered frame (deliveries (membership_response <$> infos) rest) c))
    as (c' & Hloop & Hwire & Hseq & Hrest); try done; try lia.
  fold order. rewrite (bind_returned _ _ _ _ _ Hloop).
  exists (with_groups (regrouped order infos ∅) c').
  destruct Hwire as (? & Hl & Hs). destruct Hwire1 as (? & Hl1 & Hs1).
  split_and!; try done; cbn; first [congruence | lia].
Qed.

Lemma den_membership_well_formed : well_formed_membership den_membership.
Proof.
  split_and!; [reflexivity | simpl; lia | simpl; lia | simpl; lia | simpl; lia |].
  repeat constructor; simpl; lia.
Qed.

(** X17 on a bridge that lists group 3 and names the lamp as its light. *)
Lemma update_group_list_refreshes_witness :
  ∃ c',
    update_group_list some_iteritems
        (session lamp
           (deliveries [group_list_body some_head den_list;
                        membership_response den_membership] []) 2)
      = (Ret tt, c') ∧
    Lightify_groups c'
      = regrouped (some_iteritems (filed den_list ∅)) [den_membership] ∅ ∧
    Lightify_lights c' = {[Light_addr lamp := 0%nat]} ∧
    store c' = [lamp] ∧
    Lightify_seq c'
      = 1 + 1 + Z.of_nat (length (some_iteritems (filed den_list ∅))) ∧
    inbox (Lightify_sock c') = [].
Proof.
  apply (update_group_list_refreshes some_iteritems
           (session lamp
              (deliveries [group_list_body some_head den_list;
                           membership_response den_membership] []) 2)
           some_head den_list [den_membership] []).
  - reflexivity.
  - repeat constructor; apply name_Test_listable.
  - by vm_compute.
  - by vm_compute.
  - vm_compute. repeat constructor; done.
  - repeat constructor; apply den_membership_well_formed.
  - simpl. lia.
  - vm_compute. reflexivity.
  - vm_compute. lia.
  - reflexivity.
Defined.

(** ** A poll, entry by entry *)

Lemma length_merge_entry old acc p :
  (length acc.2 ≤ length (merge_entry old acc p).2)%nat.
Proof.
  unfold merge_entry. cbv zeta.
  destruct (old !! _) as [l|]; [destruct (acc.2 !! l) |]; cbn [snd];
    rewrite ?length_insert, ?length_app; lia.
Qed.

Lemma poll_loop data old (pre es : list bytes) new c :
  (∀ j p, (pre ++ es) !! j = Some p → entry data j = p ∧ length p = 50%nat) →
  (∀ a l, old !! a = Some l → (l < length (store c))%nat) →
  for_each (seq (length pre) (length es)) (light_status_entry data old) new c
  = (Ret (foldl (merge_entry old) (new, store c) es).1,
     with_store (foldl (merge_entry old) (new, store c) es).2 c).
Proof.
  revert pre new c. induction es as [|p es IH]; intros pre new c Hes Hold.
  { cbn. by destruct c. }
  destruct (Hes (length pre) p) as (Hp & Hlen); [by apply list_lookup_middle |].
  cbn [length seq for_each foldl]. rewrite bind_run.
  rewrite light_status_entry_run by by rewrite Hp.
  cbv zeta. rewrite Hp. unfold merge_entry at 2 4. cbv zeta. cbn [fst snd].
  specialize (IH (pre ++ [p])).
  rewrite length_app, Nat.add_1_r, <- app_assoc in IH.
  destruct (old !! Light_addr (decode_entry p)) as [l|] eqn:El.
  - destruct (lookup_lt_is_Some_2 (store c) l) as [o Ho]; [by eapply Hold |].
    rewrite Ho. rewrite IH; [done | done |].
    intros a l' Hl'. rewrite store_with_store, length_insert. by eapply Hold.
  - rewrite IH; [by rewrite with_store_twice | done |].
    intros a l' Hl'. rewrite store_with_store, length_app.
    specialize (Hold _ _ Hl'). lia.
Qed.

Lemma update_all_light_status_run c head entries rest :
  length head = 7%nat →
  Forall (λ p, length p = 50%nat) entries →
  registry_refers c →
  answering (status_response head entries) rest c →
  ∃ frame,
    build_all_light_status 1 c
      = (Ret frame, with_seq (Lightify_seq c + 1) c) ∧
    update_all_light_status c =
      (Ret tt,
       with_lights (polled c entries).1
         (with_store (polled c entries).2 (answered frame rest c))).
Proof.
  intros Hhead Hentries Hrefs Hans.
  destruct (build_all_light_status_run c) as [frame Hframe]; [apply Hans |].
  exists frame. split; [done |].
  unfold update_all_light_status.
  rewrite <- bind_assoc, <- bind_assoc.
  erewrite bind_returned; cycle 1.
  { rewrite bind_assoc.
    by apply (request_answered (build_all_light_status 1)). }
  rewrite status_response_count by done.
  rewrite unpack_H; cycle 1.
  { destruct Hans as (_ & _ & _ & Hlen & _).
    rewrite length_status_response in Hlen by done. lia. }
  cbn [struct_call]. rewrite bind_run. cbn [ret].
  rewrite (bind_returned get _ _ _ _ eq_refl).
  rewrite range_of_nat.
  erewrite bind_returned; cycle 1.
  { apply (poll_loop _ _ [] entries).
    - intros j p Hj. split; [by apply status_response_entry |].
      exact (Forall_lookup_1 (λ p : bytes, length p = 50%nat) _ _ _ Hentries Hj).
    - intros a l Hl. apply lookup_lt_is_Some. by eapply Hrefs. }
  done.
Qed.

Lemma merge_entry_refers old acc p :
  (∀ a l, old !! a = Some l → (l < length acc.2)%nat) →
  ∀ a l, old !! a = Some l → (l < length (merge_entry old acc p).2)%nat.
Proof.
  intros H a l Hl. specialize (H a l Hl).
  pose proof (length_merge_entry old acc p). lia.
Qed.

Lemma merge_entry_domain old acc p a :
  (∀ a l, old !! a = Some l → (l < length acc.2)%nat) →
  is_Some ((merge_entry old acc p).1 !! a) ↔
  is_Some (acc.1 !! a) ∨ Light_addr (decode_entry p) = a.
Proof.
  intros Hrefs. unfold merge_entry. cbv zeta.
  destruct (old !! Light_addr (decode_entry p)) as [l|] eqn:El.
  - destruct (lookup_lt_is_Some_2 acc.2 l) as [o Ho]; [by eapply Hrefs |].
    rewrite Ho. cbn [fst].
    destruct (decide (Light_addr (decode_entry p) = a)) as [->|Hne].
    + rewrite lookup_insert_eq. split; [by right | by eexists].
    + rewrite lookup_insert_ne by done. split; [by left | by intros [|]].
  - cbn [fst].
    destruct (decide (Light_addr (decode_entry p) = a)) as [->|Hne].
    + rewrite lookup_insert_eq. split; [by right | by eexists].
    + rewrite lookup_insert_ne by done. split; [by left | by intros [|]].
Qed.

Lemma polled_domain old es acc a :
  (∀ a l, old !! a = Some l → (l < length acc.2)%nat) →
  is_Some ((foldl (merge_entry old) acc es).1 !! a) ↔
  is_Some (acc.1 !! a) ∨ ∃ p, p ∈ es ∧ Light_addr (decode_entry p) = a.
Proof.
  revert acc. induction es as [|p es IH]; intros acc Hrefs; cbn [foldl].
  { split; [by left |]. intros [H | (p & Hp & _)]; [done |].
    by apply elem_of_nil in Hp. }
  rewrite IH by by apply merge_entry_refers.
  rewrite merge_entry_domain by done.
  split.
  - intros [[H | H] | (q & Hq & Ha)].
    + by left.
    + right. exists p. split; [left | done].
    + right. exists q. split; [by right | done].
  - intros [H | (q & Hq & Ha)]; [by left; left |].
    apply elem_of_cons in Hq as [-> | Hq]; [by left; right |].
    right. by exists q.
Qed.

Lemma refresh_same_object d o o1 :
  same_object o o1 → refresh d o1 = refresh d o.
Proof. intros (H1 & H2 & H3 & H4). unfold refresh. by rewrite H1, H2, H3, H4. Qed.

Lemma same_object_refresh d o o1 :
  same_object o o1 → same_object o (refresh d o1).
Proof. intros (H1 & H2 & H3 & H4). by split_and!. Qed.

(** The object of a light stays where it is, with its identity, whatever
    entries are merged. *)
Lemma polled_object old es acc l o :
  (∀ a l, old !! a = Some l → (l < length acc.2)%nat) →
  (∃ o1, acc.2 !! l = Some o1 ∧ same_object o o1) →
  ∃ o1, (foldl (merge_entry old) acc es).2 !! l = Some o1 ∧ same_object o o1.
Proof.
  revert acc. induction es as [|p es IH]; intros acc Hrefs Hobj; [done |].
  cbn [foldl]. apply IH; [by apply merge_entry_refers |].
  destruct Hobj as (o1 & Ho1 & Hsame).
  unfold merge_entry. cbv zeta.
  destruct (old !! Light_addr (decode_entry p)) as [l'|] eqn:El.
  - destruct (acc.2 !! l') as [o'|] eqn:Ho'; [| by exists o1].
    cbn [snd]. destruct (decide (l' = l)) as [->|Hne].
    + exists (refresh (decode_entry p) o'). split.
      * apply list_lookup_insert_eq. by apply lookup_lt_Some in Ho1.
      * apply same_object_refresh. congruence.
    + exists o1. by rewrite list_lookup_insert_ne.
  - cbn [snd]. exists o1. split; [| done].
    by apply lookup_app_l_Some.
Qed.

(** Entries for other lights leave a light that is registered alone. *)
Lemma polled_others old es acc a l v :
  (∀ a l, old !! a = Some l → (l < length acc.2)%nat) →
  (∀ a', old !! a' = Some l → a' = a) →
  Forall (λ q, Light_addr (decode_entry q) ≠ a) es →
  acc.1 !! a = Some l → acc.2 !! l = Some v →
  (foldl (merge_entry old) acc es).1 !! a = Some l ∧
  (foldl (merge_entry old) acc es).2 !! l = Some v.
Proof.
  intros Hrefs Hinj Hes. revert acc Hrefs.
  induction Hes as [|q es Hq _ IH]; intros acc Hrefs Ha Hl; [done |].
  cbn [foldl]. apply IH; [by apply merge_entry_refers | |].
  - unfold merge_entry. cbv zeta.
    destruct (old !! Light_addr (decode_entry q)) as [l'|] eqn:El.
    + destruct (acc.2 !! l'); [| done]. cbn [fst].
      by rewrite lookup_insert_ne.
    + cbn [fst]. by rewrite lookup_insert_ne.
  - unfold merge_entry. cbv zeta.
    destruct (old !! Light_addr (decode_entry q)) as [l'|] eqn:El.
    + destruct (acc.2 !! l') eqn:Ho'; [| done]. cbn [snd].
      rewrite list_lookup_insert_ne; [done |].
      intros ->. by apply Hq, Hinj.
    + cbn [snd]. by apply lookup_app_l_Some.
Qed.

Lemma polled_known old pre p post acc a l o :
  (∀ a l, old !! a = Some l → (l < length acc.2)%nat) →
  (∀ a', old !! a' = Some l → a' = a) →
  old !! a = Some l → acc.2 !! l = Some o →
  Light_addr (decode_entry p) = a →
  Forall (λ q, Light_addr (decode_entry q) ≠ a) post →
  (foldl (merge_entry old) acc (pre ++ p :: post)).1 !! a = Some l ∧
  (foldl (merge_entry old) acc (pre ++ p :: post)).2 !! l
    = Some (refresh (decode_entry p) o).
Proof.
  intros Hrefs Hinj Hold Ho Hp Hpost.
  rewrite foldl_app. cbn [foldl].
  set (acc1 := foldl (merge_entry old) acc pre).
  assert (Hrefs1 : ∀ a l, old !! a = Some l → (l < length acc1.2)%nat).
  { subst acc1. clear -Hrefs. revert acc Hrefs.
    induction pre as [|q pre IH]; intros acc Hrefs; [done |].
    cbn [foldl]. apply IH. by apply merge_entry_refers. }
  destruct (polled_object old pre acc l o Hrefs) as (o1 & Ho1 & Hsame).
  { exists o. split; [done |]. by split_and!. }
  fold acc1 in Ho1.
  apply polled_others; [by apply merge_entry_refers | done | done | |].
  - unfold merge_entry. cbv zeta. rewrite Hp, Hold, Ho1. cbn [fst].
    by rewrite lookup_insert_eq.
  - unfold merge_entry. cbv zeta. rewrite Hp, Hold, Ho1. cbn [snd].
    rewrite <- (refresh_same_object _ o o1) by done.
    apply list_lookup_insert_eq. by apply lookup_lt_Some in Ho1.
Qed.

Lemma registry_refers_bound c :
  registry_refers c →
  ∀ a l, Lightify_lights c !! a = Some l → (l < length ((∅ : gmap Z loc), store c).2)%nat.
Proof. intros H a l Hl. apply lookup_lt_is_Some. by eapply H. Qed.

(** X18: after a poll whose response of full-length entries arrives, the
    registry of lights holds exactly the addresses that the response
    reports: a light that is not reported is dropped from it, and a
    response without entries empties it. The groups are as they were. *)
Theorem poll_replaces_registry c head entries rest :
  length head = 7%nat →
  Forall (λ p, length p = 50%nat) entries →
  registry_refers c →
  answering (status_response head entries) rest c →
  ∃ c',
    update_all_light_status c = (Ret tt, c') ∧
    Lightify_groups c' = Lightify_groups c ∧
    ∀ a, is_Some (Lightify_lights c' !! a) ↔
         ∃ p, p ∈ entries ∧ Light_addr (decode_entry p) = a.
Proof.
  intros Hhead Hentries Hrefs Hans.
  destruct (update_all_light_status_run c head entries rest)
    as (frame & _ & Hrun); [done.. |].
  eexists. split; [exact Hrun |]. split; [done |].
  intros a. cbn [Lightify_lights with_lights]. unfold polled.
  rewrite polled_domain by by apply registry_refers_bound.
  cbn [fst]. rewrite lookup_empty. split.
  - intros [H | H]; [by destruct H | done].
  - by right.
Qed.

Lemma lamp_session_refers q n : registry_refers (session lamp q n).
Proof.
  intros a l H. unfold session in H. cbn [Lightify_lights] in H.
  apply lookup_singleton_Some in H as [_ <-]. by eexists.
Qed.

(** X18 on the lamp's session, whose poll reports the lamp alone. *)
Lemma poll_replaces_registry_witness :
  ∃ c',
    update_all_light_status (session lamp (deliveries [dimmed_response] []) 1)
      = (Ret tt, c') ∧
    Lightify_groups c' = ∅ ∧
    ∀ a, is_Some (Lightify_lights c' !! a) ↔
         ∃ p, p ∈ [status_record (set_lum 10 lamp) no_reserved] ∧
              Light_addr (decode_entry p) = a.
Proof.
  apply (poll_replaces_registry
           (session lamp (deliveries [dimmed_response] []) 1)
           some_head [status_record (set_lum 10 lamp) no_reserved] []).
  - reflexivity.
  - repeat constructor.
  - apply lamp_session_refers.
  - split_and!; [simpl; lia | simpl; lia | done | done | by vm_compute
                | reflexivity].
Defined.

(** X19: a light that the registry knew before a poll, and that the
    response reports, is afterwards the same object under the same
    address: it keeps the name, id, address and type it was created with
    and takes every other attribute from the last entry reported for it,
    whatever the entries before said. *)
Theorem poll_keeps_known_light c head pre p post rest a l o :
  length head = 7%nat →
  Forall (λ p, length p = 50%nat) (pre ++ p :: post) →
  registry_refers c →
  answering (status_response head (pre ++ p :: post)) rest c →
  Lightify_lights c !! a = Some l →
  store c !! l = Some o →
  (∀ a', Lightify_lights c !! a' = Some l → a' = a) →
  Light_addr (decode_entry p) = a →
  Forall (λ q, Light_addr (decode_entry q) ≠ a) post →
  ∃ c',
    update_all_light_status c = (Ret tt, c') ∧
    Lightify_lights c' !! a = Some l ∧
    store c' !! l = Some (refresh (decode_entry p) o).
Proof.
  intros Hhead Hentries Hrefs Hans Hl Ho Hinj Hp Hpost.
  destruct (update_all_light_status_run c head (pre ++ p :: post) rest)
    as (frame & _ & Hrun); [done.. |].
  eexists. split; [exact Hrun |].
  cbn [Lightify_lights with_lights store]. unfold polled.
  by apply polled_known; [apply registry_refers_bound | ..].
Qed.

(** X19 on the lamp reported dimmed to 10. *)
Lemma poll_keeps_known_light_witness :
  ∃ c',
    update_all_light_status (session lamp (deliveries [dimmed_response] []) 1)
      = (Ret tt, c') ∧
    Lightify_lights c' !! Light_addr lamp = Some 0%nat ∧
    store c' !! 0%nat
      = Some (refresh (decode_entry (status_record (set_lum 10 lamp) no_reserved))
                lamp).
Proof.
  apply (poll_keeps_known_light
           (session lamp (deliveries [dimmed_response] []) 1)
           some_head [] (status_record (set_lum 10 lamp) no_reserved) [] []
           (Light_addr lamp) 0%nat lamp).
  - reflexivity.
  - repeat constructor.
  - apply lamp_session_refers.
  - split_and!; [simpl; lia | simpl; lia | done | done | by vm_compute
                | reflexivity].
  - reflexivity.
  - reflexivity.
  - intros a' H. unfold session in H. cbn [Lightify_lights] in H.
    by apply lookup_singleton_Some in H as [<- _].
  - reflexivity.
  - constructor.
Defined.

(** ** Looking a light up by its name *)

Lemma first_named_run name lights c :
  Forall (λ l, is_Some (store c !! l)) lights →
  ∃ r, first_named name lights c = (Ret r, c) ∧
    match r with
    | Some l => l ∈ lights ∧ ∃ o, store c !! l = Some o ∧ Luminary_name o = name
    | None => ∀ l o, l ∈ lights → store c !! l = Some o → Luminary_name o ≠ name
    end.
Proof.
  induction 1 as [|l lights [o Ho] _ (r & Hrun & Hr)]; cbn [first_named].
  { exists None. split; [done |]. intros l o Hl. by apply elem_of_nil in Hl. }
  rewrite bind_run, (read_run _ _ _ Ho).
  destruct (decide (Luminary_name o = name)) as [Hn | Hn].
  - exists (Some l). split; [done |]. split; [left |]. by exists o.
  - exists r. split; [done |]. destruct r as [l'|].
    + destruct Hr as [Hin Hobj]. split; [by right | done].
    + intros l' o' Hl' Ho'. apply elem_of_cons in Hl' as [-> | Hl'].
      * congruence.
      * by eapply Hr.
Qed.

(** X20: [light_byname] returns and changes nothing. What it returns is
    a light of the registry whose [name()] is the name asked for, or
    [None] when no light of the registry has that name, given that
    [itervalues()] yields the values of the registry. *)
Theorem light_byname_finds itervalues name c :
  registry_refers c →
  (∀ l, l ∈ itervalues (Lightify_lights c) ↔
        ∃ a, Lightify_lights c !! a = Some l) →
  ∃ r, light_byname itervalues name c = (Ret r, c) ∧
    match r with
    | Some l =>
        (∃ a, Lightify_lights c !! a = Some l) ∧
        ∃ o, store c !! l = Some o ∧ Luminary_name o = name
    | None =>
        ∀ a l o, Lightify_lights c !! a = Some l → store c !! l = Some o →
                 Luminary_name o ≠ name
    end.
Proof.
  intros Hrefs Hiter. unfold light_byname.
  rewrite (bind_returned get _ _ _ _ eq_refl).
  destruct (first_named_run name (itervalues (Lightify_lights c)) c)
    as (r & Hrun & Hr).
  { apply Forall_forall. intros l Hl. apply Hiter in Hl as [a Ha].
    by eapply Hrefs. }
  exists r. split; [done |]. destruct r as [l|].
  - destruct Hr as [Hin Hobj]. split; [by apply Hiter | done].
  - intros a l o Hl Ho. apply (Hr l o); [| done]. apply Hiter. by exists a.
Qed.

Lemma some_itervalues_values (lights : gmap Z loc) l :
  l ∈ some_itervalues lights ↔ ∃ a, lights !! a = Some l.
Proof.
  unfold some_itervalues. rewrite list_elem_of_fmap. split.
  - intros ([a l'] & -> & H). exists a. by apply elem_of_map_to_list.
  - intros [a H]. exists (a, l). split; [done |]. by apply elem_of_map_to_list.
Qed.

(** X20 on the lamp, looked up by the name "Test". *)
Lemma light_byname_finds_witness :
  ∃ r, light_byname some_itervalues name_Test idle = (Ret r, idle) ∧
    match r with
    | Some l =>
        (∃ a, Lightify_lights idle !! a = Some l) ∧
        ∃ o, store idle !! l = Some o ∧ Luminary_name o = name_Test
    | None =>
        ∀ a l o, Lightify_lights idle !! a = Some l → store idle !! l = Some o →
                 Luminary_name o ≠ name_Test
    end.
Proof.
  apply (light_byname_finds some_itervalues name_Test idle).
  - apply lamp_session_refers.
  - intros l. apply some_itervalues_values.
Defined.

(** * Polls that fail and polls that come again *)

(** ** A poll that fails *)

Lemma struct_bind {A B} (v : option A) (k : A → io B) c :
  (x <- struct_call v ;; k x) c =
    match v with Some x => k x c | None => (Raise StructError, c) end.
Proof. by destruct v. Qed.

Lemma length_entry data i : (length (entry data i) ≤ 50)%nat.
Proof. unfold entry, slice. rewrite length_take. lia. Qed.

(** An entry that is cut short is not decoded, and nothing is touched. *)
Lemma light_status_entry_short data old_lights i new_lights c :
  length (entry data i) ≠ 50%nat →
  light_status_entry data old_lights i new_lights c = (Raise StructError, c).
Proof.
  intros Hlen. pose proof (length_entry data i) as Hle.
  unfold light_status_entry. fold (entry data i).
  repeat (rewrite struct_bind;
          match goal with
          | |- context [unpack ?o ?f ?b] =>
              destruct (unpack o f b) as [?|] eqn:?; [| done]
          end).
  exfalso.
  match goal with
  | H : unpack LE [Q] (slice 42 50 _) = Some _ |- _ =>
      apply unpack_Some in H as [H _];
      unfold slice in H; rewrite length_take, length_drop in H;
      change (calcsize [Q]) with 8%nat in H; lia
  end.
Qed.

(** One pass of the loop either merges its entry, which is of full length,
    or raises and touches nothing. *)
Lemma light_status_entry_step data old_lights i new_lights c :
  (length (entry data i) = 50%nat ∧
   light_status_entry data old_lights i new_lights c =
     (Ret (merge_entry old_lights (new_lights, store c) (entry data i)).1,
      with_store (merge_entry old_lights (new_lights, store c) (entry data i)).2 c))
  ∨ (∃ e, light_status_entry data old_lights i new_lights c = (Raise e, c)).
Proof.
  destruct (decide (length (entry data i) = 50%nat)) as [Hlen|Hlen].
  - rewrite (light_status_entry_run _ _ _ _ _ Hlen). cbv zeta.
    unfold merge_entry. cbv zeta. cbn [fst snd].
    destruct (old_lights !! _) as [l|]; [| by left].
    destruct (store c !! l) as [o|]; [by left | right; by eexists].
  - right. exists StructError. by apply light_status_entry_short.
Qed.

Lemma with_store_same c : with_store (store c) c = c.
Proof. by destruct c. Qed.

Lemma poll_loop_outcome data old_lights (ixs : list nat) new_lights c r c' :
  for_each ixs (light_status_entry data old_lights) new_lights c = (r, c') →
  ∃ k, (k ≤ length ixs)%nat ∧
    Forall (λ p, length p = 50%nat) (entry data <$> take k ixs) ∧
    c' = with_store
           (foldl (merge_entry old_lights) (new_lights, store c)
              (entry data <$> take k ixs)).2 c ∧
    ((k = length ixs ∧
      r = Ret (foldl (merge_entry old_lights) (new_lights, store c)
                 (entry data <$> take k ixs)).1)
     ∨ ∃ e, r = Raise e).
Proof.
  revert new_lights c r c'.
  induction ixs as [|i ixs IH]; intros new_lights c r c'; cbn [for_each].
  { intros [= <- <-]. exists 0%nat. cbn. rewrite with_store_same.
    split_and!; [done | done | done | by left]. }
  rewrite bind_run.
  destruct (light_status_entry_step data old_lights i new_lights c)
    as [[Hlen ->] | [e ->]].
  - intros Hrest. apply IH in Hrest as (k & Hk & Hfull & -> & Hr).
    rewrite store_with_store, with_store_twice in *.
    exists (S k). cbn [length take fmap list_fmap foldl].
    rewrite <- surjective_pairing in *.
    split_and!; [lia | constructor; assumption | done |].
    destruct Hr as [[-> ->] | Hr]; [by left | by right].
  - intros [= <- <-]. exists 0%nat. cbn. rewrite with_store_same.
    split_and!; [lia | done | done | right; by eexists].
Qed.

(** ** What merging does to the lights that were there *)

Lemma merged_untouched old_lights ps acc l o :
  acc.2 !! l = Some o →
  (∀ p, p ∈ ps → old_lights !! Light_addr (decode_entry p) ≠ Some l) →
  (foldl (merge_entry old_lights) acc ps).2 !! l = Some o.
Proof.
  revert acc. induction ps as [|p ps IH]; intros acc Ho Hps; [done |].
  cbn [foldl]. apply IH; [| intros q Hq; apply Hps; by right].
  assert (Hp : old_lights !! Light_addr (decode_entry p) ≠ Some l)
    by (apply Hps; left).
  unfold merge_entry. cbv zeta.
  destruct (old_lights !! Light_addr (decode_entry p)) as [l'|].
  - destruct (acc.2 !! l'); [| done]. cbn [snd].
    rewrite list_lookup_insert_ne; [done | congruence].
  - cbn [snd]. by apply lookup_app_l_Some.
Qed.

Lemma merged_object old_lights ps acc l o :
  (∃ o1, acc.2 !! l = Some o1 ∧ same_object o o1) →
  ∃ o1, (foldl (merge_entry old_lights) acc ps).2 !! l = Some o1 ∧
        same_object o o1.
Proof.
  revert acc. induction ps as [|p ps IH]; intros acc Hobj; [done |].
  cbn [foldl]. apply IH.
  destruct Hobj as (o1 & Ho1 & Hsame).
  unfold merge_entry. cbv zeta.
  destruct (old_lights !! Light_addr (decode_entry p)) as [l'|].
  - destruct (acc.2 !! l') as [o'|] eqn:Ho'; [| by exists o1].
    cbn [snd]. destruct (decide (l' = l)) as [->|Hne].
    + exists (refresh (decode_entry p) o'). split.
      * apply list_lookup_insert_eq. by apply lookup_lt_Some in Ho1.
      * apply same_object_refresh. congruence.
    + exists o1. by rewrite list_lookup_insert_ne.
  - cbn [snd]. exists o1. split; [| done]. by apply lookup_app_l_Some.
Qed.

Lemma merged_last old_lights pre p post acc l o :
  acc.2 !! l = Some o →
  old_lights !! Light_addr (decode_entry p) = Some l →
  (∀ q, q ∈ post → old_lights !! Light_addr (decode_entry q) ≠ Some l) →
  (foldl (merge_entry old_lights) acc (pre ++ p :: post)).2 !! l
    = Some (refresh (decode_entry p) o).
Proof.
  intros Ho Hp Hpost. rewrite foldl_app. cbn [foldl].
  destruct (merged_object old_lights pre acc l o) as (o1 & Ho1 & Hsame).
  { exists o. split; [done |]. by split_and!. }
  apply merged_untouched; [| done].
  unfold merge_entry at 1. cbv zeta. rewrite Hp, Ho1. cbn [snd].
  rewrite <- (refresh_same_object _ o o1) by done.
  apply list_lookup_insert_eq. by apply lookup_lt_Some in Ho1.
Qed.

Lemma merged_overwritten ps c c' :
  Lightify_lights c' = Lightify_lights c →
  store c' = (foldl (merge_entry (Lightify_lights c)) (∅, store c) ps).2 →
  overwritten_by ps c c'.
Proof.
  intros Hl Hs. split.
  - intros l o Ho Hps. rewrite Hs. by apply merged_untouched.
  - intros l o pre p post Ho -> Hp Hpost. rewrite Hs. by apply merged_last.
Qed.

Lemma keeps_poll_request : keeps wire_only poll_request.
Proof.
  unfold poll_request, build_all_light_status.
  repeat keeps_step;
    first [ apply keeps_send | apply keeps_recv
          | apply keeps_build_global_command ];
    first [ exact _ | exact wire_only_seq | exact wire_only_sock ].
Qed.

Lemma update_all_light_status_unfold c :
  update_all_light_status c =
    (data <- poll_request ;;
     vals <- struct_call (unpack LE [H] (slice 7 9 data)) ;;
     match vals with
     | [Int num] =>
         c <- get ;;
         let old_lights := Lightify_lights c in
         let new_lights : gmap Z loc := ∅ in
         new_lights <- for_each (range num)
                         (light_status_entry data old_lights) new_lights ;;
         modify (with_lights new_lights)
     | _ => raise StructError
     end) c.
Proof.
  unfold update_all_light_status, poll_request.
  rewrite bind_assoc, !(bind_run (build_all_light_status 1)).
  destruct (build_all_light_status 1 c) as [[frame|e|] c1]; [| done | done].
  rewrite bind_assoc, !(bind_run (send frame)).
  by destruct (send frame c1) as [[[]|e|] c2].
Qed.

(** Whenever a poll raises, the registries are as they were and the
    objects are those that merging the first entries of the response
    leaves. *)
Lemma update_all_light_status_raises c e c' :
  update_all_light_status c = (Raise e, c') →
  Lightify_groups c' = Lightify_groups c ∧
  Lightify_lights c' = Lightify_lights c ∧
  ∃ ps, decoded_first c ps ∧
    store c' = (foldl (merge_entry (Lightify_lights c)) (∅, store c) ps).2.
Proof.
  rewrite update_all_light_status_unfold, bind_run.
  unfold decoded_first.
  pose proof (keeps_poll_request c) as Hwire.
  destruct (poll_request c) as [[data|e1|] c1] eqn:Ereq; cbn [fst snd] in *;
    [| | done].
  2:{ intros [= <- <-]. destruct Hwire as (? & ? & ?).
      split_and!; [done | done |]. by exists []. }
  destruct Hwire as (Hg & Hl & Hs).
  rewrite struct_bind.
  destruct (unpack LE [H] (slice 7 9 data)) as [vals|] eqn:Eu.
  2:{ intros [= <- <-]. split_and!; [done | done |].
      exists []. split; [by exists 0%nat | done]. }
  apply unpack_Some in Eu as [_ ->]. cbn [fields unpack1 size].
  rewrite (bind_returned get _ _ _ _ eq_refl). cbv zeta. rewrite bind_run.
  destruct (for_each _ _ _ c1) as [r c2] eqn:Eloop.
  apply poll_loop_outcome in Eloop as (k & Hk & Hfull & -> & Hr).
  destruct Hr as [[_ ->] | [e2 ->]]; [done |].
  intros [= <- <-]. rewrite Hl, Hs in *.
  split_and!; [done | done |].
  exists (entry data <$> take k (range (bytes_int LE (take 2 (slice 7 9 data))))).
  split; [| done].
  exists (k `min` length (range (bytes_int LE (take 2 (slice 7 9 data)))))%nat.
  unfold range in *. rewrite take_seq in *. rewrite length_seq. done.
Qed.

(** ** A response that breaks off *)

Lemma truncated_response_count head num entries tail :
  length head = 7%nat →
  slice 7 9 (truncated_response head num entries tail) = int_bytes LE 2 num.
Proof.
  intros Hh. unfold slice, truncated_response.
  rewrite drop_app_length' by done.
  by rewrite take_app_length' by by rewrite length_int_bytes.
Qed.

Lemma truncated_response_entry head num entries tail i p :
  length head = 7%nat → Forall (λ p, length p = 50%nat) entries →
  entries !! i = Some p →
  entry (truncated_response head num entries tail) i = p.
Proof.
  intros Hh He Hi. unfold entry, slice, truncated_response.
  replace (9 + i * 50 + 50 - (9 + i * 50))%nat with 50%nat by lia.
  rewrite app_assoc, <- drop_drop.
  rewrite drop_app_length' by (rewrite length_app, length_int_bytes; lia).
  assert (Hlt : (i < length entries)%nat) by by eapply lookup_lt_Some.
  rewrite drop_app_le
    by (rewrite (length_concat_uniform 50) by done; nia).
  rewrite (drop_concat_uniform 50) by done.
  rewrite (drop_S _ _ _ Hi). cbn [concat]. rewrite <- app_assoc.
  apply take_app_length'. symmetry.
  exact (Forall_lookup_1 (λ p : bytes, length p = 50%nat) _ _ _ He Hi).
Qed.

Lemma truncated_response_tail head num entries tail :
  length head = 7%nat → Forall (λ p, length p = 50%nat) entries →
  (length tail < 50)%nat →
  length (entry (truncated_response head num entries tail) (length entries))
    ≠ 50%nat.
Proof.
  intros Hh He Ht. unfold entry, slice, truncated_response.
  rewrite app_assoc, <- drop_drop.
  rewrite drop_app_length' by (rewrite length_app, length_int_bytes; lia).
  rewrite drop_app_length' by by rewrite (length_concat_uniform 50).
  rewrite length_take. lia.
Qed.

Lemma update_all_light_status_breaks c head num entries tail rest :
  length head = 7%nat →
  Forall (λ p, length p = 50%nat) entries →
  Z.of_nat (length entries) < num < 65536 →
  (length tail < 50)%nat →
  registry_refers c →
  answering (truncated_response head num entries tail) rest c →
  ∃ frame,
    update_all_light_status c =
      (Raise StructError,
       with_store (polled c entries).2 (answered frame rest c)).
Proof.
  intros Hhead Hentries Hnum Htail Hrefs Hans.
  destruct (build_all_light_status_run c) as [frame Hframe]; [apply Hans |].
  exists frame.
  rewrite update_all_light_status_unfold.
  erewrite bind_returned; cycle 1.
  { by apply (request_answered (build_all_light_status 1)). }
  rewrite truncated_response_count, unpack_H by (done || lia).
  cbn [struct_call]. rewrite bind_run. cbn [ret].
  rewrite (bind_returned get _ _ _ _ eq_refl). cbv zeta.
  unfold range.
  replace (Z.to_nat num)
    with (length entries + S (Z.to_nat num - S (length entries)))%nat by lia.
  rewrite seq_app. cbn [seq]. rewrite bind_run, for_each_app.
  erewrite bind_returned; cycle 1.
  { apply (poll_loop _ _ [] entries).
    - intros j p Hj. split; [by apply truncated_response_entry |].
      exact (Forall_lookup_1 (λ p : bytes, length p = 50%nat) _ _ _ Hentries Hj).
    - intros a l Hl. apply lookup_lt_is_Some. by eapply Hrefs. }
  cbn [for_each]. rewrite bind_run.
  rewrite light_status_entry_short; [done |].
  by apply truncated_response_tail.
Qed.



(** ** A record and the light it reports *)


Lemma reportable_relabelled : reportable relabelled.
Proof.
  split; try (simpl; lia); try done.
  intros H. repeat (apply elem_of_cons in H as [H|H]; [done |]).
  by apply elem_of_nil in H.
Qed.


